(** * TheraFlow Yoga: the live guided session

    A shallow embedding of the live-session code of the repository:
    - [services/gemini.ts]: [base64ToUint8Array], [connectToYogaSession];
    - [components/LiveYogaSession.tsx]: [decodeAudioData], [createPcmBlob],
      the [onMessage] callback (playback scheduling and voice navigation),
      the Prev/Next buttons, [handleStartSession], [cleanup].

    Conventions of the embedding.
    - A finite JavaScript number is a rational [Q]; [NaN] and the two
      infinities are separate constructors.  Every operation the embedded
      code performs on samples is exact on doubles (a product with 2^15, a
      quotient by 2^15 of a 16-bit integer), and comparisons and
      [Math.max]/[Math.min] are exact.  The two operations that do round,
      the quotient behind [buffer.duration] and the sum that advances
      [nextStartTimeRef], are rounded to the nearest double, ties to even
      ([Double.round]); a reading of [ctx.currentTime] is a double
      ([double]).  The exponent range of doubles is taken as unbounded
      above: a sum that overflows to [Infinity] needs a clock beyond
      10^308 seconds.
    - A byte is a [Z] in [0, 255]; typed arrays are lists, and a view
      of a buffer reads it in little-endian order, the byte order of the
      platforms the application runs on.
    - The browser and the SDK are the environment: what the code does to
      them (nodes started, responses sent, contexts closed) is recorded in
      the state the handlers thread through.
    - A handler is one turn of the event loop.  The only [await] of
      [onMessage] is on a promise that is settled when it is made, so no
      other callback of the component runs before the handler goes on,
      and the output clock is read once per handler.
    - The builtin conversion of strings to numbers is a parameter of the
      handlers, and so is the range of sample rates the browser's
      [createBuffer] takes ([RateRange]); a sample rate is a whole number
      of hertz. *)

From Stdlib Require Import ZArith QArith Qminmax Qround Qabs Qpower.
From Stdlib Require Import Lia Lqa Bool List Ascii String.
From Stdlib Require Import DecimalString DecimalNat.
From stdpp Require Import base option list gmap sets strings.

Import ListNotations.
Local Open Scope Z_scope.

(** ** JavaScript numbers *)

Inductive number : Type :=
| NaN
| PosInf
| NegInf
| Fin (q : Q).

Module JsNum.

(** The global [isNaN] on a number. *)
Definition isNaN (n : number) : bool :=
  match n with NaN => true | _ => false end.

(** [n >= k] for a finite [k]. *)
Definition ge (n : number) (k : Q) : bool :=
  match n with
  | NaN => false
  | PosInf => true
  | NegInf => false
  | Fin q => Qle_bool k q
  end.

(** [n < k] for a finite [k]. *)
Definition lt (n : number) (k : Q) : bool :=
  match n with
  | NaN => false
  | PosInf => false
  | NegInf => true
  | Fin q => negb (Qle_bool k q)
  end.

(** [n * k] for a finite positive [k]. *)
Definition mul_pos (n : number) (k : Q) : number :=
  match n with
  | Fin q => Fin (q * k)
  | other => other
  end.

(** The mathematical [truncate]: rounding towards zero. *)
Definition truncate (q : Q) : Z := Z.quot (Qnum q) (Zpos (Qden q)).

(** ECMAScript [ToInt16], the conversion applied by a store into an
    [Int16Array]: non-finite values become 0, finite ones are
    truncated and reduced modulo 2^16 into [-2^15, 2^15). *)
Definition ToInt16 (n : number) : Z :=
  match n with
  | Fin q =>
      let int16bit := truncate q mod 65536 in
      if 32768 <=? int16bit then int16bit - 65536 else int16bit
  | _ => 0
  end.

(** [n + k] for a finite [k]. *)
Definition add (n : number) (k : Q) : number :=
  match n with
  | Fin q => Fin (q + k)
  | other => other
  end.

(** [Math.max(k, n)] for a finite [k]. *)
Definition max (k : Q) (n : number) : number :=
  match n with
  | NaN => NaN
  | PosInf => PosInf
  | NegInf => Fin k
  | Fin q => Fin (Qmax k q)
  end.

(** [Math.min(k, n)] for a finite [k]. *)
Definition min (k : Q) (n : number) : number :=
  match n with
  | NaN => NaN
  | PosInf => Fin k
  | NegInf => NegInf
  | Fin q => Fin (Qmin k q)
  end.

(** A finite number with no fractional part. *)
Definition is_integerb (q : Q) : bool :=
  Qnum q mod Zpos (Qden q) =? 0.

End JsNum.

(** ** Doubles: the arithmetic of JavaScript numbers that rounds *)

Module Double.

(** binary64: 53 bits of precision, and 2^-1074 the least positive
    value. *)
Definition prec : Z := 53.
Definition emin : Z := -1074.

(** [floor (log2 q)] for a positive [q]. *)
Definition ilog2 (q : Q) : Z :=
  let k := Z.log2 (Qnum q) - Z.log2 (Zpos (Qden q)) in
  if Qle_bool (2 ^ k) q then k else k - 1.

(** The exponent of the last place of the doubles next to [q]: the
    doubles there are the multiples of 2 to that power. *)
Definition ulp_exponent (q : Q) : Z :=
  Z.max (ilog2 (Qabs q) - (prec - 1)) emin.

(** The integer nearest to [q], the even one of two equally near. *)
Definition nearest_even (q : Q) : Z :=
  let f := Qfloor q in
  match (q - inject_Z f ?= 1 # 2)%Q with
  | Lt => f
  | Gt => f + 1
  | Eq => if Z.even f then f else f + 1
  end.

(** The double nearest to [q]: round to nearest, ties to even. *)
Definition round (q : Q) : Q :=
  if Qeq_bool q 0 then 0%Q
  else
    let e := ulp_exponent q in
    Qred (inject_Z (nearest_even (q / 2 ^ e)) * 2 ^ e).

(** [a + b] and [a / b] on doubles. *)
Definition add (a b : Q) : Q := round (a + b).
Definition div (a b : Q) : Q := round (a / b).

(** A rational that is a double. *)
Definition representable (q : Q) : bool := Qeq_bool (round q) q.

(** Half the distance between 1 and the next double: the largest
    relative error of one rounding. *)
Definition unit_roundoff : Q := (2 ^ (-53))%Q.

End Double.

(** A finite double.  The readings of [ctx.currentTime] are of this
    type. *)
Record double : Type := mkDouble {
  value :> Q;
  value_representable : Double.representable value = true
}.

(** ** Base64: the browser's [btoa] and [atob] on byte strings *)

Module Base64.

Definition alphabet : list ascii :=
  list_ascii_of_string
    "ABCDEFGHIJKLMNOPQRSTUVWXYZabcdefghijklmnopqrstuvwxyz0123456789+/".

Definition pad : ascii := "="%char.

Definition char_of_sextet (n : Z) : ascii :=
  nth (Z.to_nat n) alphabet pad.

Definition sextet_of_char (c : ascii) : option Z :=
  let n := Z.of_nat (nat_of_ascii c) in
  if (65 <=? n) && (n <=? 90) then Some (n - 65)
  else if (97 <=? n) && (n <=? 122) then Some (n - 71)
  else if (48 <=? n) && (n <=? 57) then Some (n + 4)
  else if n =? 43 then Some 62
  else if n =? 47 then Some 63
  else None.

(** [btoa] of the binary string whose char codes are [bs]. *)
Fixpoint encode (bs : list Z) : list ascii :=
  match bs with
  | [] => []
  | [a] =>
      let n := a * 16 in
      [char_of_sextet (n / 64); char_of_sextet (n mod 64); pad; pad]
  | [a; b] =>
      let n := (a * 256 + b) * 4 in
      [char_of_sextet (n / 4096); char_of_sextet ((n / 64) mod 64);
       char_of_sextet (n mod 64); pad]
  | a :: b :: c :: rest =>
      let n := a * 65536 + b * 256 + c in
      char_of_sextet (n / 262144) :: char_of_sextet ((n / 4096) mod 64)
        :: char_of_sextet ((n / 64) mod 64) :: char_of_sextet (n mod 64)
        :: encode rest
  end.

Definition btoa (bs : list Z) : string :=
  string_of_list_ascii (encode bs).

Definition is_ascii_whitespace (c : ascii) : bool :=
  let n := nat_of_ascii c in
  (Nat.eqb n 9 || Nat.eqb n 10 || Nat.eqb n 12 || Nat.eqb n 13 || Nat.eqb n 32)%bool.

(** One or two trailing [=] are removed. *)
Definition strip_padding (cs : list ascii) : list ascii :=
  match rev cs with
  | p1 :: p2 :: r =>
      if Ascii.eqb p1 pad then
        if Ascii.eqb p2 pad then rev r else rev (p2 :: r)
      else cs
  | [p1] => if Ascii.eqb p1 pad then [] else cs
  | [] => cs
  end.

Fixpoint decode (ss : list Z) : list Z :=
  match ss with
  | a :: b :: c :: d :: rest =>
      let n := a * 262144 + b * 4096 + c * 64 + d in
      (n / 65536) :: ((n / 256) mod 256) :: (n mod 256) :: decode rest
  | [a; b; c] =>
      let n := (a * 4096 + b * 64 + c) / 4 in
      [n / 256; n mod 256]
  | [a; b] => [(a * 64 + b) / 16]
  | _ => []
  end.

(** [atob], the forgiving-base64 decode of the HTML standard; [None]
    when the browser throws [InvalidCharacterError]. *)
Definition atob (s : string) : option (list Z) :=
  let cs := filter (fun c => is_ascii_whitespace c = false) (list_ascii_of_string s) in
  let cs := if (Nat.modulo (length cs) 4 =? 0)%nat then strip_padding cs else cs in
  if (Nat.modulo (length cs) 4 =? 1)%nat then None
  else decode <$> mapM sextet_of_char cs.

End Base64.

(** ** Errors a handler can end with *)

Inductive JsError : Type :=
| InvalidCharacterError   (* atob on a string that is not base64 *)
| RangeError              (* an Int16Array over an odd number of bytes *)
| NotSupportedError       (* createBuffer with zero frames or a rate out of range *)
| TypeError               (* a property read on undefined *)
| MissingApiKey.          (* Error("API_KEY not set") *)

(** ** services/gemini.ts: [base64ToUint8Array] *)

Definition base64ToUint8Array (base64 : string) : JsError + list Z :=
  match Base64.atob base64 with
  | Some bytes => inr bytes
  | None => inl InvalidCharacterError
  end.

(** ** LiveYogaSession.tsx: the two PCM helpers *)

Record AudioBuffer : Type := mkAudioBuffer {
  sampleRate : Z;
  channelData : list Q
}.

Definition frames (b : AudioBuffer) : nat := length (channelData b).

(** [buffer.duration], in seconds: the double quotient of the length
    by the sample rate. *)
Definition duration (b : AudioBuffer) : Q :=
  Double.div (inject_Z (Z.of_nat (frames b))) (inject_Z (sampleRate b)).

(** What [createBuffer] uses of its context: the sample rates the
    browser takes.  The Web Audio API leaves the range to the browser
    and requires it to include 8000 to 96000 Hz. *)
Record RateRange : Type := mkRateRange {
  minRate : Z;
  maxRate : Z
}.

(** A sample rate within the nominal range of the context. *)
Definition nominal (ctx : RateRange) (sampleRate : Z) : bool :=
  ((0 <? sampleRate) && (Z.min 8000 (minRate ctx) <=? sampleRate)
   && (sampleRate <=? Z.max 96000 (maxRate ctx)))%bool.

(** [ctx.createBuffer(1, length, sampleRate)]: a silent buffer, or
    [NotSupportedError] when the length is zero or the rate is zero,
    negative or outside the nominal range. *)
Definition createBuffer (ctx : RateRange) (length : nat) (sampleRate : Z)
    : JsError + AudioBuffer :=
  if ((length =? 0)%nat || negb (nominal ctx sampleRate))%bool
  then inl NotSupportedError
  else inr (mkAudioBuffer sampleRate (repeat 0%Q length)).

(** The little-endian view of a byte buffer as signed 16-bit integers;
    a trailing odd byte is the caller's error. *)
Fixpoint int16_of_bytes (bs : list Z) : list Z :=
  match bs with
  | lo :: hi :: rest =>
      let u := lo + 256 * hi in
      (if 32768 <=? u then u - 65536 else u) :: int16_of_bytes rest
  | _ => []
  end.

(** The bytes of an [Int16Array], little-endian. *)
Fixpoint bytes_of_int16 (vs : list Z) : list Z :=
  match vs with
  | [] => []
  | v :: rest =>
      let u := v mod 65536 in
      (u mod 256) :: (u / 256) :: bytes_of_int16 rest
  end.

Definition decodeAudioData (data : list Z) (ctx : RateRange) (sampleRate : Z)
    : JsError + AudioBuffer :=
  if Nat.odd (length data) then inl RangeError
  else
    let dataInt16 := int16_of_bytes data in
    let frameCount := length dataInt16 in
    match createBuffer ctx frameCount sampleRate with
    | inl e => inl e
    | inr (mkAudioBuffer rate _) =>
        inr (mkAudioBuffer rate (map (fun v => (inject_Z v / 32768)%Q) dataInt16))
    end.

Record PcmBlob : Type := mkPcmBlob {
  blob_data : string;
  mimeType : string
}.

(** The [Int16Array] filled by the first loop of [createPcmBlob]. *)
Definition pcm_int16 (data : list number) : list Z :=
  map (fun x => JsNum.ToInt16 (JsNum.mul_pos x 32768%Q)) data.

Definition createPcmBlob (data : list number) : PcmBlob :=
  let int16 := pcm_int16 data in
  let bytes := bytes_of_int16 int16 in
  mkPcmBlob (Base64.btoa bytes) "audio/pcm;rate=16000".

(** ** types.ts *)

Record Pose : Type := mkPose {
  sanskrit_name : string;
  english_name : string;
  duration_seconds : Z;
  instructions : string;
  modification : string;
  focus : string;
  imageUrl : option string;
  videoUrl : option string
}.

Record YogaSequence : Type := mkYogaSequence {
  sequence_title : string;
  total_duration_minutes : Z;
  poses : list Pose
}.

(** ** Messages of the Live API, as far as the handlers read them *)

(** A value found in the argument object of a function call. *)
Inductive jsval : Type :=
| JUndefined
| JNull
| JBool (b : bool)
| JNumber (n : number)
| JString (s : string).

(** [args] is optional in the SDK's type: reading a property of an
    absent [args] throws. *)
Record FunctionCall : Type := mkFunctionCall {
  fc_id : string;
  fc_name : string;
  fc_args : option (gmap string jsval)
}.

(** The object handed to [session.sendToolResponse]. *)
Record FunctionResponse : Type := mkFunctionResponse {
  fr_id : string;
  fr_name : string;
  fr_result : string
}.

Record ToolCall : Type := mkToolCall {
  functionCalls : option (list FunctionCall)
}.

Record InlineData : Type := mkInlineData { inline_data : option string }.
Record Part : Type := mkPart { inlineData : option InlineData }.
Record Content : Type := mkContent { parts : option (list Part) }.
Record ServerContent : Type := mkServerContent { modelTurn : option Content }.

Record LiveServerMessage : Type := mkLiveServerMessage {
  serverContent : option ServerContent;
  toolCall : option ToolCall
}.

(** [msg.serverContent?.modelTurn?.parts?.[0]?.inlineData?.data] *)
Definition audioData (msg : LiveServerMessage) : option string :=
  sc ← serverContent msg;
  mt ← modelTurn sc;
  ps ← parts mt;
  p ← head ps;
  d ← inlineData p;
  inline_data d.

(** Truthiness of an optional string: present and not empty. *)
Definition truthy (s : option string) : bool :=
  match s with
  | Some s => negb (String.eqb s "")
  | None => false
  end.

(** ** A handler: state passing with exceptions

    A handler runs on a state and either completes with a value or
    throws; the effects made before a throw stay. *)

Definition Handler (St A : Type) : Type := St -> St * (JsError + A).

Definition ret {St A : Type} (a : A) : Handler St A :=
  fun s => (s, inr a).

Definition throw {St A : Type} (e : JsError) : Handler St A :=
  fun s => (s, inl e).

Definition bind {St A B : Type} (m : Handler St A) (k : A -> Handler St B) : Handler St B :=
  fun s =>
    match m s with
    | (s', inr a) => k a s'
    | (s', inl e) => (s', inl e)
    end.

Definition gets {St A : Type} (f : St -> A) : Handler St A :=
  fun s => (s, inr (f s)).

Definition modify {St : Type} (f : St -> St) : Handler St unit :=
  fun s => (f s, inr tt).

(** A computation that does not touch the state. *)
Definition lift {St A : Type} (r : JsError + A) : Handler St A :=
  fun s => (s, r).

Declare Scope handler_scope.
Delimit Scope handler_scope with handler.
Notation "'let*' x ':=' m 'in' k" :=
  (bind m (fun x => k))
  (at level 10, x name, m at level 100, k at level 200) : handler_scope.
Notation "m ';;' k" :=
  (bind m (fun _ => k))
  (at level 100, k at level 200, right associativity) : handler_scope.

(** The loop [for (const x of xs) body(x)]. *)
Fixpoint for_of {St A : Type} (xs : list A) (body : A -> Handler St unit) : Handler St unit :=
  match xs with
  | [] => ret tt
  | x :: rest => bind (body x) (fun _ => for_of rest body)
  end.

(** ** LiveYogaSession.tsx: the state of the component

    [currentPoseIndex] and [isSpeaking] are React state,
    [nextStartTime] and [sources] the contents of [nextStartTimeRef] and
    [sourcesRef].  A source node is named by its creation number on the
    output context.  [started] lists the calls of [source.start] and
    [sent] the calls of [session.sendToolResponse], oldest first. *)

Record Scheduled : Type := mkScheduled {
  node : nat;
  when : Q;
  buffer : AudioBuffer
}.

(** The instant at which a started node finishes playing: its start
    plus the duration of its buffer, as an exact sum. *)
Definition finish (u : Scheduled) : Q := (when u + duration (buffer u))%Q.

(** The same sum as the handler computes it, in doubles: the value it
    stores in [nextStartTimeRef] after starting the node. *)
Definition storedEnd (u : Scheduled) : Q := Double.add (when u) (duration (buffer u)).

Record SessionState : Type := mkSessionState {
  currentPoseIndex : number;
  isSpeaking : bool;
  nextStartTime : Q;
  sources : gset nat;
  created : nat;
  started : list Scheduled;
  sent : list FunctionResponse
}.

Definition initialState : SessionState :=
  mkSessionState (Fin 0) false 0%Q ∅ 0%nat [] [].

Definition setCurrentPoseIndex (f : number -> number) (st : SessionState) : SessionState :=
  mkSessionState (f (currentPoseIndex st)) (isSpeaking st) (nextStartTime st)
    (sources st) (created st) (started st) (sent st).

Definition setIsSpeaking (b : bool) (st : SessionState) : SessionState :=
  mkSessionState (currentPoseIndex st) b (nextStartTime st)
    (sources st) (created st) (started st) (sent st).

Definition setNextStartTime (t : Q) (st : SessionState) : SessionState :=
  mkSessionState (currentPoseIndex st) (isSpeaking st) t
    (sources st) (created st) (started st) (sent st).

Definition setSources (s : gset nat) (st : SessionState) : SessionState :=
  mkSessionState (currentPoseIndex st) (isSpeaking st) (nextStartTime st)
    s (created st) (started st) (sent st).

(** [ctx.createBufferSource()]: the new node's name. *)
Definition createBufferSource : Handler SessionState nat :=
  fun st =>
    (mkSessionState (currentPoseIndex st) (isSpeaking st) (nextStartTime st)
       (sources st) (S (created st)) (started st) (sent st),
     inr (created st)).

(** [source.start(t)] for a node holding [b]. *)
Definition start (source : nat) (b : AudioBuffer) (t : Q) (st : SessionState) : SessionState :=
  mkSessionState (currentPoseIndex st) (isSpeaking st) (nextStartTime st)
    (sources st) (created st) (started st ++ [mkScheduled source t b]) (sent st).

(** [sessionPromise.then(session => session.sendToolResponse(...))] *)
Definition sendToolResponse (r : FunctionResponse) (st : SessionState) : SessionState :=
  mkSessionState (currentPoseIndex st) (isSpeaking st) (nextStartTime st)
    (sources st) (created st) (started st) (sent st ++ [r]).

(** The listener of a node's [ended] event. *)
Definition onEnded (source : nat) (st : SessionState) : SessionState :=
  let st := setSources (sources st ∖ {[source]}) st in
  if (size (sources st) =? 0)%nat then setIsSpeaking false st else st.

(** ** LiveYogaSession.tsx: the resources of the component

    The refs of the component point into the browser's objects, which
    are listed by creation order; for each object the number of calls
    that release it is counted. *)

Record AudioContext : Type := mkAudioContext {
  ctx_sampleRate : Z;
  closes : nat                 (* calls of close() *)
}.

Record Resources : Type := mkResources {
  (* React state shown to the user *)
  isSessionActive : bool;
  isConnected : bool;
  status : string;
  (* refs *)
  streamRef : option nat;
  audioContextRef : option nat;
  frameIntervalRef : option nat;
  processorRef : option nat;
  (* browser objects *)
  streams : list nat;          (* per stream: how often its tracks were stopped *)
  contexts : list AudioContext;
  intervals : list nat;        (* per timer: calls of clearInterval; timer ids start at 1 *)
  processors : list nat        (* per script processor: calls of disconnect *)
}.

Definition mounted : Resources :=
  mkResources false false "Ready to Start" None None None None [] [] [] [].

(** [initCamera], by whether [getUserMedia] grants a stream. *)
Definition initCamera (granted : bool) (r : Resources) : Resources :=
  if granted then
    mkResources (isSessionActive r) (isConnected r) (status r)
      (Some (length (streams r))) (audioContextRef r) (frameIntervalRef r) (processorRef r)
      (streams r ++ [0%nat]) (contexts r) (intervals r) (processors r)
  else
    mkResources (isSessionActive r) (isConnected r) "Camera access required."
      (streamRef r) (audioContextRef r) (frameIntervalRef r) (processorRef r)
      (streams r) (contexts r) (intervals r) (processors r).

(** [handleStartSession], by whether both [resume()] calls succeed.
    The promise of [connectToYogaSession] is not awaited, so only the
    construction and the resumption of the contexts can reach the
    [catch]. *)
Definition handleStartSession (resumed : bool) (r : Resources) : Resources :=
  let inputCtx := length (contexts r) in
  let outputCtx := S inputCtx in
  mkResources true (isConnected r)
    (if resumed then "Connecting to AI..." else "Failed to start session.")
    (streamRef r)
    (if resumed then Some outputCtx else audioContextRef r)
    (frameIntervalRef r) (processorRef r)
    (streams r)
    (contexts r ++ [mkAudioContext 16000 0; mkAudioContext 24000 0])
    (intervals r) (processors r).

(** The [onOpen] callback. *)
Definition onOpen (r : Resources) : Resources :=
  let withProcessor := bool_decide (is_Some (streamRef r)) in
  mkResources (isSessionActive r) true "Connected"
    (streamRef r) (audioContextRef r)
    (Some (S (length (intervals r))))
    (if withProcessor then Some (length (processors r)) else processorRef r)
    (streams r) (contexts r)
    (intervals r ++ [0%nat])
    (if withProcessor then processors r ++ [0%nat] else processors r).

Definition close (c : AudioContext) : AudioContext :=
  mkAudioContext (ctx_sampleRate c) (S (closes c)).

(** Applies [f] to the object a ref points to, when it points to one. *)
Definition release {A : Type} (ref : option nat) (f : A -> A) (objs : list A) : list A :=
  match ref with
  | Some i => alter f i objs
  | None => objs
  end.

Definition cleanup (r : Resources) : Resources :=
  mkResources (isSessionActive r) (isConnected r) (status r)
    (streamRef r) (audioContextRef r) (frameIntervalRef r) (processorRef r)
    (release (streamRef r) S (streams r))
    (release (audioContextRef r) close (contexts r))
    (release (Nat.pred <$> frameIntervalRef r) S (intervals r))
    (release (processorRef r) S (processors r)).

(** What can happen to the resources of a component. *)
Inductive LifeEvent : Type :=
| CameraReady (granted : bool)
| StartClick (resumed : bool)
| Open
| Unmount.

Definition lifeStep (r : Resources) (ev : LifeEvent) : Resources :=
  match ev with
  | CameraReady granted => initCamera granted r
  | StartClick resumed => handleStartSession resumed r
  | Open => onOpen r
  | Unmount => cleanup r
  end.

Definition lifeRun (evs : list LifeEvent) : Resources :=
  fold_left lifeStep evs mounted.

(** ** services/gemini.ts: [connectToYogaSession] *)

Module Gemini.

Inductive SchemaType : Type := OBJECT | INTEGER | STRING | ARRAY.

#[warnings="-register-all"] Inductive Schema : Type :=
  mkSchema (type : SchemaType) (description : option string)
           (properties : list (string * Schema)) (required : list string).

Definition schema_type (s : Schema) : SchemaType :=
  match s with mkSchema t _ _ _ => t end.

Definition schema_properties (s : Schema) : list (string * Schema) :=
  match s with mkSchema _ _ ps _ => ps end.

Definition schema_required (s : Schema) : list string :=
  match s with mkSchema _ _ _ r => r end.

Record FunctionDeclaration : Type := mkFunctionDeclaration {
  fd_name : string;
  fd_description : string;
  parameters : Schema
}.

Record Tool : Type := mkTool { functionDeclarations : list FunctionDeclaration }.

Inductive Modality : Type := TEXT | IMAGE | AUDIO.

Record LiveConnectConfig : Type := mkLiveConnectConfig {
  responseModalities : list Modality;
  systemInstruction : string;
  tools : list Tool;
  voiceName : string
}.

(** The argument of [ai.live.connect], callbacks apart. *)
Record LiveConnectParameters : Type := mkLiveConnectParameters {
  model : string;
  config : LiveConnectConfig
}.

Definition dq : string := String (ascii_of_nat 34) EmptyString.
Definition nl : string := String (ascii_of_nat 10) EmptyString.

Definition setPoseIndexTool : FunctionDeclaration :=
  mkFunctionDeclaration "setPoseIndex"
    "Move the user to a specific pose in the sequence. Call this when the user says 'Next', 'Previous', or asks to move to a specific step."
    (mkSchema OBJECT None
       [("index", mkSchema INTEGER (Some "The 0-based index of the pose to move to.") [] [])]
       ["index"]).

(** [String(i)] for an array index. *)
Definition index_to_string (i : nat) : string :=
  NilEmpty.string_of_uint (Nat.to_uint i).

(** [`${i}. ${p.english_name}. Mod: ${p.modification}`] *)
Definition poseLine (i : nat) (p : Pose) : string :=
  index_to_string i +:+ ". " +:+ english_name p +:+ ". Mod: " +:+ modification p.

(** [poses.map((p, i) => ...)] *)
Definition poseLines (ps : list Pose) : list string := imap poseLine ps.

(** [lines.join(sep)] *)
Fixpoint join (sep : string) (lines : list string) : string :=
  match lines with
  | [] => ""
  | [l] => l
  | l :: rest => l +:+ sep +:+ join sep rest
  end.

Definition promptHead : string :=
  nl +:+
  "    You are a Live Yoga Instructor named " +:+ dq +:+ "TheraFlow AI" +:+ dq +:+ "." +:+ nl +:+
  "    You are guiding a student through a therapeutic sequence." +:+ nl +:+
  "    " +:+ nl +:+
  "    Sequence Plan:" +:+ nl +:+
  "    ".

Definition promptTail : string :=
  nl +:+
  nl +:+
  "    CRITICAL INSTRUCTIONS FOR COMPUTER VISION:" +:+ nl +:+
  "    1. You are receiving a continuous stream of images from the user's camera." +:+ nl +:+
  "    2. If the user asks " +:+ dq +:+ "Check my form" +:+ dq +:+ ", " +:+ dq +:+ "Am I doing this right?" +:+ dq
    +:+ ", or " +:+ dq +:+ "How does this look?" +:+ dq
    +:+ ", you MUST immediately analyze the latest image you received." +:+ nl +:+
  "    3. Provide specific, corrective feedback based on the CURRENT POSE. E.g., " +:+ dq
    +:+ "Lift your chest higher," +:+ dq +:+ " or " +:+ dq +:+ "Keep that knee bent." +:+ dq +:+ nl +:+
  "    4. If the user is doing the pose correctly, give positive reinforcement." +:+ nl +:+
  nl +:+
  "    GENERAL INTERACTION:" +:+ nl +:+
  "    - Be concise. The user is holding a pose." +:+ nl +:+
  "    - If they say " +:+ dq +:+ "Next" +:+ dq +:+ ", use the 'setPoseIndex' tool to move forward." +:+ nl +:+
  "    - Keep your tone soothing but authoritative on safety." +:+ nl +:+
  "  ".

Definition systemPrompt (sequence : YogaSequence) : string :=
  promptHead +:+ join nl (poseLines (poses sequence)) +:+ promptTail.

(** The handshake handed to [ai.live.connect], or the error thrown
    before it; [apiKey] is [process.env.API_KEY]. *)
Definition connectToYogaSession (apiKey : option string) (sequence : YogaSequence)
  : JsError + LiveConnectParameters :=
  if truthy apiKey then
    inr (mkLiveConnectParameters
           "gemini-2.5-flash-native-audio-preview-09-2025"
           (mkLiveConnectConfig [AUDIO] (systemPrompt sequence)
              [mkTool [setPoseIndexTool]] "Zephyr"))
  else inl MissingApiKey.

End Gemini.

(** ** Ranges of the wire format *)

(** A value a [Uint8Array] can hold. *)
Definition isByte (b : Z) : Prop := 0 <= b < 256.

(** A value an [Int16Array] can hold. *)
Definition isInt16 (v : Z) : Prop := -32768 <= v <= 32767.

(** Each unit starts at the end stored for the one before it, the
    first at [t]. *)
Fixpoint backToBack (t : Q) (units : list Scheduled) : Prop :=
  match units with
  | [] => True
  | u :: rest => when u = t /\ backToBack (storedEnd u) rest
  end.

(** The durations of a list of buffers added to [t] one by one, in
    doubles, as the handlers of a burst add them to the marker. *)
Definition runningSum (t : Q) (bs : list AudioBuffer) : Q :=
  fold_left (fun acc b => Double.add acc (duration b)) bs t.

(** The nodes started are the nodes created, each once and in order,
    and every pending node is one of them. *)
Definition nodesConsistent (st : SessionState) : Prop :=
  map node (started st) = seq 0 (created st) /\
  forall n : nat, n ∈ sources st -> (n < created st)%nat.

(** The pose index is the whole number [i]. *)
Definition indexIs (st : SessionState) (i : Z) : Prop :=
  exists q : Q, currentPoseIndex st = Fin q /\ (q == inject_Z i)%Q.

(** ** LiveYogaSession.tsx: [blobToBase64] *)

(** [s.split(sep)] for a separator of one character. *)
Fixpoint splitOn (sep : ascii) (s : string) : list string :=
  match s with
  | EmptyString => [EmptyString]
  | String c rest =>
      match splitOn sep rest with
      | [] => []
      | piece :: pieces =>
          if Ascii.eqb c sep then EmptyString :: piece :: pieces
          else String c piece :: pieces
      end
  end.

(** What [FileReader.readAsDataURL] yields for a blob holding [bytes],
    [mime] being the media type the browser writes into the URL. *)
Definition dataURL (mime : string) (bytes : list Z) : string :=
  "data:" +:+ mime +:+ ";base64," +:+ Base64.btoa bytes.

(** The value the promise of [blobToBase64] resolves with; [None] is
    [undefined]. *)
Definition blobToBase64 (mime : string) (bytes : list Z) : option string :=
  splitOn ","%char (dataURL mime bytes) !! 1%nat.

(** ** services/gemini.ts: images *)

(** [s] without the prefix [p], when it starts with it. *)
Fixpoint dropPrefix (p s : string) : option string :=
  match p with
  | EmptyString => Some s
  | String c p' =>
      match s with
      | EmptyString => None
      | String d s' => if Ascii.eqb c d then dropPrefix p' s' else None
      end
  end.

(** [imageBase64.replace(/^data:image\/(png|jpeg|jpg);base64,/, "")]
    in [analyzePoseForm]. *)
Definition stripDataUrlPrefix (imageBase64 : string) : string :=
  match dropPrefix "data:image/png;base64," imageBase64 with
  | Some rest => rest
  | None =>
      match dropPrefix "data:image/jpeg;base64," imageBase64 with
      | Some rest => rest
      | None =>
          match dropPrefix "data:image/jpg;base64," imageBase64 with
          | Some rest => rest
          | None => imageBase64
          end
      end
  end.

(** The loop of [generatePoseImage] over the parts of the response:
    the first part with inline data makes the URL; absent data prints
    as [undefined]. *)
Fixpoint firstInlineImage (ps : list Part) : option string :=
  match ps with
  | [] => None
  | p :: rest =>
      match inlineData p with
      | Some d => Some ("data:image/png;base64," +:+ default "undefined" (inline_data d))
      | None => firstInlineImage rest
      end
  end.

(** [generatePoseImage], by [process.env.API_KEY] and by
    [response.candidates?.[0]?.content?.parts] of a request that
    succeeded. *)
Definition generatePoseImage (apiKey : option string) (responseParts : option (list Part))
  : JsError + option string :=
  if truthy apiKey then inr (firstInlineImage (default [] responseParts))
  else inl MissingApiKey.

(** ** YogaForm.tsx and the request of [generateYogaSequence] *)

Inductive ExperienceLevel : Type := Beginner | Intermediate | Advanced.

Record UserPreferences : Type := mkUserPreferences {
  goal : string;
  injuries : string;
  durationMinutes : nat;
  experienceLevel : ExperienceLevel
}.

(** The state of the form: the two text fields, the slider, the level. *)
Record YogaFormState : Type := mkYogaFormState {
  form_goal : string;
  form_injuries : string;
  form_duration : nat;
  form_level : ExperienceLevel
}.

(** [a || b] on strings. *)
Definition orElse (a b : string) : string :=
  if String.eqb a "" then b else a.

(** What [handleSubmit] hands to [onSubmit]. *)
Definition handleSubmit (f : YogaFormState) : UserPreferences :=
  mkUserPreferences
    (orElse (form_goal f) "General relaxation and mobility")
    (orElse (form_injuries f) "None")
    (form_duration f)
    (form_level f).

Definition levelName (l : ExperienceLevel) : string :=
  match l with
  | Beginner => "Beginner"
  | Intermediate => "Intermediate"
  | Advanced => "Advanced"
  end.

(** The [prompt] of [generateYogaSequence]. *)
Definition sequencePrompt (prefs : UserPreferences) : string :=
  Gemini.nl +:+
  "    Create a therapeutic yoga sequence with the following parameters:" +:+ Gemini.nl +:+
  "    - User Goal: " +:+ goal prefs +:+ Gemini.nl +:+
  "    - Injuries/Conditions: " +:+ orElse (injuries prefs) "None reported" +:+ Gemini.nl +:+
  "    - Experience Level: " +:+ levelName (experienceLevel prefs) +:+ Gemini.nl +:+
  "    - Total Duration: " +:+ Gemini.index_to_string (durationMinutes prefs) +:+ " minutes"
    +:+ Gemini.nl +:+
  Gemini.nl +:+
  "    Ensure the sequence flows logically (warm-up, peak, cool-down) and strictly adheres to safety guidelines for the listed injuries."
    +:+ Gemini.nl +:+
  "  ".

(** ** SequenceDisplay.tsx: [formatTime] *)

(** [String(z)] for an integer that is printed digit by digit (one of
    magnitude below 10^21, held exactly). *)
Definition numberToString (z : Z) : string :=
  if z <? 0 then "-" +:+ Gemini.index_to_string (Z.to_nat (- z))
  else Gemini.index_to_string (Z.to_nat z).

(** [formatTime] on a whole number of seconds: [Math.floor] of the
    quotient, and the remainder with the sign of the dividend. *)
Definition formatTime (seconds : Z) : string :=
  let mins := seconds / 60 in
  let secs := Z.rem seconds 60 in
  if ((0 <? mins) && (0 <? secs))%bool
  then numberToString mins +:+ "m " +:+ numberToString secs +:+ "s"
  else if 0 <? mins then numberToString mins +:+ " min"
  else numberToString secs +:+ " sec".

(** A decimal digit. *)
Definition isDigit (c : ascii) : bool :=
  ((48 <=? nat_of_ascii c) && (nat_of_ascii c <=? 57))%nat.

(** A text that does not go on with a digit. *)
Definition endsNumber (s : string) : Prop :=
  match s with
  | EmptyString => True
  | String c _ => isDigit c = false
  end.

(** ** App.tsx: submitting the form *)

(** [hay.includes(needle)] *)
Fixpoint includes (needle hay : string) : bool :=
  match dropPrefix needle hay with
  | Some _ => true
  | None =>
      match hay with
      | EmptyString => false
      | String _ rest => includes needle rest
      end
  end.

Record AppState : Type := mkAppState {
  hasApiKey : bool;
  app_sequence : option YogaSequence;
  isLoading : bool;
  app_error : option string
}.

(** [handleFormSubmit], by what [generateYogaSequence] settles with:
    a sequence, or a thrown value and its [message], if it has one.
    The form is disabled while the request is pending, so no other
    handler of the page runs in between. *)
Definition handleFormSubmit (outcome : option string + YogaSequence) (st : AppState) : AppState :=
  let st := mkAppState (hasApiKey st) (app_sequence st) true None in
  match outcome with
  | inr result => mkAppState (hasApiKey st) (Some result) false (app_error st)
  | inl message =>
      if match message with
         | Some m => negb (String.eqb m "") && includes "Requested entity was not found" m
         | None => false
         end
      then mkAppState false (app_sequence st) false
             (Some "API Key session expired or invalid. Please select your key again.")
      else mkAppState (hasApiKey st) (app_sequence st) false
             (Some "We encountered an issue connecting to the AI Therapist. Please check your connection and try again.")
  end.

(** The banner offers [Reselect API Key] when the error mentions the
    key: [error.includes("API Key")]. *)
Definition offersReselect (st : AppState) : bool :=
  match app_error st with
  | Some e => includes "API Key" e
  | None => false
  end.

(** ** Vocabulary of the statements *)

(** The payload of a message. *)
Definition payload (msg : LiveServerMessage) : string :=
  default "" (audioData msg).

(** Two started units do not play at the same time. *)
Definition disjoint (u v : Scheduled) : Prop :=
  (finish u <= when v)%Q \/ (finish v <= when u)%Q.

(** [v] starts before the playing time of [u] is over by no more than
    the rounding error of one sum, 2^-53 of the end of [u]. *)
Definition withinRounding (u v : Scheduled) : Prop :=
  (finish u - when v <= finish u * Double.unit_roundoff)%Q.

(** The state right after a unit for [b] was scheduled at clock [now]. *)
Definition scheduledAt (now : Q) (b : AudioBuffer) (st : SessionState) : SessionState :=
  let t := Qmax (nextStartTime st) now in
  mkSessionState (currentPoseIndex st) true (Double.add t (duration b))
    (sources st ∪ {[created st]}) (S (created st))
    (started st ++ [mkScheduled (created st) t b]) (sent st).

(** Started units in list order: each later one starts no earlier than
    an earlier one starts, and no earlier than the end stored for it. *)
Definition ordered (l : list Scheduled) : Prop :=
  forall (i j : nat) (u v : Scheduled),
    (i < j)%nat -> l !! i = Some u -> l !! j = Some v ->
    (when u <= when v)%Q /\ (storedEnd u <= when v)%Q.

(** The end stored for every started unit is at or before the marker. *)
Definition settled (st : SessionState) : Prop :=
  forall u : Scheduled, u ∈ started st -> (storedEnd u <= nextStartTime st)%Q.

(** The marker and the start times are doubles, none negative, and
    every started buffer plays for 2^-15 seconds at least. *)
Definition soundTimes (st : SessionState) : Prop :=
  (0 <= nextStartTime st)%Q /\
  Double.representable (nextStartTime st) = true /\
  forall u : Scheduled, u ∈ started st ->
    (0 <= when u)%Q /\ Double.representable (when u) = true /\
    (2 ^ (-15) <= duration (buffer u))%Q.

(** The fields the tool-call dispatcher never writes. *)
Definition sameSchedule (st st' : SessionState) : Prop :=
  isSpeaking st' = isSpeaking st /\ nextStartTime st' = nextStartTime st /\
  sources st' = sources st /\ created st' = created st /\ started st' = started st.

(** The fields the playback scheduler never writes. *)
Definition sameNavigation (st st' : SessionState) : Prop :=
  currentPoseIndex st' = currentPoseIndex st /\ sent st' = sent st.

(** No 16 kHz context was closed, and the ref holds a 24 kHz one. *)
Definition inputNeverClosed (r : Resources) : Prop :=
  (forall c : AudioContext, c ∈ contexts r -> ctx_sampleRate c = 16000 -> closes c = 0%nat) /\
  (forall i : nat,
     audioContextRef r = Some i ->
     exists c : AudioContext, contexts r !! i = Some c /\ ctx_sampleRate c = 24000).

(** ** Sample data *)

(** A string conversion for sessions whose calls carry no strings. *)
Definition everyStringNaN : string -> number := fun _ => NaN.

Definition childsPose : Pose :=
  mkPose "Balasana" "Child's Pose" 60 "Kneel and fold forward."
    "Rest the forehead on a block." "Rest" None None.

Definition mountainPose : Pose :=
  mkPose "Tadasana" "Mountain Pose" 30 "Stand tall." "Keep the feet hip-width apart."
    "Posture" None None.

Definition corpsePose : Pose :=
  mkPose "Savasana" "Corpse Pose" 120 "Lie on the back." "Place a bolster under the knees."
    "Relaxation" None None.

Definition threePoses : YogaSequence :=
  mkYogaSequence "Gentle flow" 4 [childsPose; mountainPose; corpsePose].

Definition noPoses : YogaSequence := mkYogaSequence "Nothing yet" 0 [].

(** A message with one inline audio payload. *)
Definition audioMessage (data : string) : LiveServerMessage :=
  mkLiveServerMessage
    (Some (mkServerContent (Some (mkContent (Some [mkPart (Some (mkInlineData (Some data)))])))))
    None.

(** A message with tool calls only. *)
Definition toolCallMessage (calls : list FunctionCall) : LiveServerMessage :=
  mkLiveServerMessage None (Some (mkToolCall (Some calls))).

Definition setPoseIndexCall (id : string) (index : jsval) : FunctionCall :=
  mkFunctionCall id "setPoseIndex" (Some {[ "index" := index ]}).

(** [n] frames of silence at 24 kHz, as decoded. *)
Definition silence (n : nat) : AudioBuffer :=
  mkAudioBuffer 24000 (repeat (0 # 32768)%Q n).

(** A browser that takes sample rates from 3000 to 768000 Hz. *)
Definition chrome : RateRange := mkRateRange 3000 768000.

(** Four readings of the output clock. *)
Definition clock_0 : double := mkDouble 0 eq_refl.
Definition clock_1 : double := mkDouble 1 eq_refl.
Definition clock_1_1024 : double := mkDouble (1 # 1024) eq_refl.

(** ** LiveYogaSession.tsx: the handlers of a mounted component *)

Section Session.

(** The builtin conversion of a string to a number. *)
Variable StringToNumber : string -> number.

(** The [sequence] prop of the component. *)
Variable sequence : YogaSequence.

(** The output context in [audioContextRef], as far as [createBuffer]
    goes. *)
Variable ctx : RateRange.

(** The builtin [Number(v)]. *)
Definition Number (v : jsval) : number :=
  match v with
  | JUndefined => NaN
  | JNull => Fin 0
  | JBool true => Fin 1
  | JBool false => Fin 0
  | JNumber n => n
  | JString s => StringToNumber s
  end.

Definition poseCount : Q := inject_Z (Z.of_nat (length (poses sequence))).

Local Open Scope handler_scope.

(** The audio branch of [onMessage], entered with a truthy payload.
    [currentTime] is the reading of the output context's clock; the
    context is in [audioContextRef] before the callback is registered. *)
Definition handleAudio (currentTime : double) (data : string) : Handler SessionState unit :=
  modify (setIsSpeaking true) ;;
  let* next := gets nextStartTime in
  modify (setNextStartTime (Qmax next currentTime)) ;;
  let* bytes := lift (base64ToUint8Array data) in
  let* buffer := lift (decodeAudioData bytes ctx 24000) in
  let* source := createBufferSource in
  let* next := gets nextStartTime in
  modify (start source buffer next) ;;
  modify (setNextStartTime (Double.add next (duration buffer))) ;;
  let* srcs := gets sources in
  modify (setSources (srcs ∪ {[source]})).

(** The body of the loop over [toolCall.functionCalls]. *)
Definition handleFunctionCall (fc : FunctionCall) : Handler SessionState unit :=
  if String.eqb (fc_name fc) "setPoseIndex" then
    match fc_args fc with
    | None => throw TypeError
    | Some args =>
        let newIndex := Number (default JUndefined (args !! "index")) in
        if (negb (JsNum.isNaN newIndex) && JsNum.ge newIndex 0 && JsNum.lt newIndex poseCount)%bool
        then
          modify (setCurrentPoseIndex (fun _ => newIndex)) ;;
          modify (sendToolResponse
                    (mkFunctionResponse (fc_id fc) (fc_name fc) "OK, pose updated."))
        else
          modify (sendToolResponse
                    (mkFunctionResponse (fc_id fc) (fc_name fc)
                       "Error: Pose index out of bounds."))
    end
  else ret tt.

(** The first half of [onMessage]: audio output. *)
Definition playAudio (currentTime : double) (msg : LiveServerMessage)
    : Handler SessionState unit :=
  if truthy (audioData msg)
  then handleAudio currentTime (default "" (audioData msg))
  else ret tt.

(** The second half of [onMessage]: tool calls (voice navigation). *)
Definition dispatch (msg : LiveServerMessage) : Handler SessionState unit :=
  match toolCall msg with
  | Some tc =>
      match functionCalls tc with
      | Some calls => for_of calls handleFunctionCall
      | None => throw TypeError
      end
  | None => ret tt
  end.

Definition onMessage (currentTime : double) (msg : LiveServerMessage)
    : Handler SessionState unit :=
  playAudio currentTime msg ;; dispatch msg.

(** The Prev and Next buttons. *)
Definition onPrevClick (st : SessionState) : SessionState :=
  setCurrentPoseIndex (fun prev => JsNum.max 0 (JsNum.add prev (-1))) st.

Definition onNextClick (st : SessionState) : SessionState :=
  setCurrentPoseIndex (fun prev => JsNum.min (poseCount - 1) (JsNum.add prev 1)) st.

(** What can happen to a mounted component. *)
Inductive Event : Type :=
| Message (currentTime : double) (msg : LiveServerMessage)
| Ended (source : nat)
| PrevClick
| NextClick.

(** The state after an event.  A handler that throws leaves the state
    it had reached: nothing catches the rejection of its promise. *)
Definition step (st : SessionState) (ev : Event) : SessionState :=
  match ev with
  | Message currentTime msg => fst (onMessage currentTime msg st)
  | Ended source => onEnded source st
  | PrevClick => onPrevClick st
  | NextClick => onNextClick st
  end.

Definition run (evs : list Event) : SessionState :=
  fold_left step evs initialState.

(** What decoding makes of a payload. *)
Definition decodePayload (data : string) : JsError + AudioBuffer :=
  match base64ToUint8Array data with
  | inl e => inl e
  | inr bytes => decodeAudioData bytes ctx 24000
  end.

(** A message that carries audio the scheduler can play. *)
Definition playable (msg : LiveServerMessage) (b : AudioBuffer) : Prop :=
  truthy (audioData msg) = true /\ decodePayload (payload msg) = inr b.

(** A message that carries audio the scheduler cannot decode. *)
Definition malformed (msg : LiveServerMessage) (e : JsError) : Prop :=
  truthy (audioData msg) = true /\ decodePayload (payload msg) = inl e.

(** The number a call's [index] argument converts to. *)
Definition requestedIndex (args : gmap string jsval) : number :=
  Number (default JUndefined (args !! "index")).

(** The check [!isNaN(i) && i >= 0 && i < sequence.poses.length]. *)
Definition accepted (i : number) : bool :=
  (negb (JsNum.isNaN i) && JsNum.ge i 0 && JsNum.lt i poseCount)%bool.

(** The pose index is a whole number within [0, poseCount). *)
Definition poseIndexInBounds (st : SessionState) : Prop :=
  match currentPoseIndex st with
  | Fin q => JsNum.is_integerb q = true /\ (0 <= q)%Q /\ (q < poseCount)%Q
  | _ => False
  end.

(** The pose index is a number within [0, poseCount). *)
Definition poseIndexInRange (st : SessionState) : Prop :=
  match currentPoseIndex st with
  | Fin q => (0 <= q)%Q /\ (q < poseCount)%Q
  | _ => False
  end.

(** A call that is not one to [setPoseIndex] with a fractional index
    that the check accepts. *)
Definition wholeCall (fc : FunctionCall) : bool :=
  if String.eqb (fc_name fc) "setPoseIndex" then
    match fc_args fc with
    | Some args =>
        match requestedIndex args with
        | Fin q => JsNum.is_integerb q || negb (accepted (Fin q))
        | _ => true
        end
    | None => true
    end
  else true.

(** An event that is not a message with such a call. *)
Definition wholeEvent (ev : Event) : bool :=
  match ev with
  | Message _ msg =>
      match toolCall msg with
      | Some tc =>
          match functionCalls tc with
          | Some calls => forallb wholeCall calls
          | None => true
          end
      | None => true
      end
  | _ => true
  end.

(** The one response a [setPoseIndex] call with arguments is given. *)
Definition responseTo (fc : FunctionCall) : FunctionResponse :=
  mkFunctionResponse (fc_id fc) (fc_name fc)
    (if accepted (requestedIndex (default ∅ (fc_args fc)))
     then "OK, pose updated."
     else "Error: Pose index out of bounds.").

(** An event that is not an audio message with an undecodable payload. *)
Definition decodable (ev : Event) : bool :=
  match ev with
  | Message _ msg =>
      if truthy (audioData msg)
      then match decodePayload (payload msg) with inr _ => true | inl _ => false end
      else true
  | _ => true
  end.

(** * Properties *)

(** ** Rounding to the nearest double *)

Section DoubleArithmetic.

Local Open Scope Q_scope.

Lemma pow2_pos (k : Z) : 0 < 2 ^ k.
Proof. apply Qpower_0_lt. reflexivity. Qed.

Lemma pow2_add (a b : Z) : 2 ^ (a + b) == 2 ^ a * 2 ^ b.
Proof. apply Qpower_plus. discriminate. Qed.

Lemma pow2_succ (a : Z) : 2 ^ (a + 1) == 2 * 2 ^ a.
Proof. rewrite pow2_add. change (2 ^ 1) with 2. ring. Qed.

Lemma pow2_le (a b : Z) : (a <= b)%Z -> 2 ^ a <= 2 ^ b.
Proof. intros H. apply Qpower_le_compat_l; [exact H|discriminate]. Qed.

Lemma pow2_lt_inv (a b : Z) : 2 ^ a < 2 ^ b -> (a < b)%Z.
Proof. intros H. apply (Qpower_lt_compat_l_inv 2); [exact H|reflexivity]. Qed.

Lemma pow2_inject (k : Z) : (0 <= k)%Z -> inject_Z (2 ^ k) == 2 ^ k.
Proof. intros H. apply (Zpower_Qpower 2 k H). Qed.

Lemma pow2_cancel (x : Q) (e : Z) : x / 2 ^ e * 2 ^ e == x.
Proof.
  pose proof (pow2_pos e). field. intros H0. rewrite H0 in H. discriminate.
Qed.

Lemma ilog2_spec (q : Q) :
  0 < q -> 2 ^ Double.ilog2 q <= q /\ q < 2 ^ (Double.ilog2 q + 1).
Proof.
  intros Hq. unfold Double.ilog2.
  destruct q as [n d]. cbn [Qnum Qden].
  assert (Hn : (0 < n)%Z) by (unfold Qlt in Hq; cbn in Hq; lia).
  pose proof (Z.log2_spec n Hn) as [Ha1 Ha2].
  pose proof (Z.log2_spec (Z.pos d) (Pos2Z.is_pos d)) as [Hb1 Hb2].
  pose proof (Z.log2_nonneg n) as Ha0.
  pose proof (Z.log2_nonneg (Z.pos d)) as Hb0.
  set (a := Z.log2 n) in *. set (b := Z.log2 (Z.pos d)) in *.
  replace (Z.succ a) with (a + 1)%Z in Ha2 by lia.
  replace (Z.succ b) with (b + 1)%Z in Hb2 by lia.
  rewrite Zle_Qle in Ha1, Hb1. rewrite Zlt_Qlt in Ha2, Hb2.
  rewrite pow2_inject in Ha1, Ha2, Hb1, Hb2 by lia.
  rewrite pow2_succ in Ha2, Hb2.
  assert (Hk : 2 ^ (a - b) * 2 ^ b == 2 ^ a).
  { rewrite <- pow2_add. replace (a - b + b)%Z with a by lia. reflexivity. }
  pose proof (pow2_pos (a - b)) as HK. pose proof (pow2_pos b) as HB.
  assert (Hq' : n # d == inject_Z n / inject_Z (Z.pos d)) by apply Qmake_Qdiv.
  assert (Hd : 0 < inject_Z (Z.pos d)) by (change 0 with (inject_Z 0); rewrite <- Zlt_Qlt; lia).
  assert (Hmul : (n # d) * inject_Z (Z.pos d) == inject_Z n).
  { rewrite Hq'. field. intros H0. rewrite H0 in Hd. discriminate. }
  set (A := 2 ^ a) in *. set (B := 2 ^ b) in *.
  set (N := inject_Z n) in *. set (D := inject_Z (Z.pos d)) in *.
  set (x := n # d) in *.
  assert (Hupper : x < 2 * 2 ^ (a - b)).
  { set (K := 2 ^ (a - b)) in *. apply Qnot_le_lt. intros Hc.
    assert (2 * K * D <= x * D) by (apply Qmult_le_compat_r; lra).
    assert (K * B <= K * D) by (apply Qmult_le_l; lra). lra. }
  assert (Hlower : 2 ^ (a - b) < 2 * x).
  { set (K := 2 ^ (a - b)) in *. apply Qnot_le_lt. intros Hc.
    assert (2 * x * D <= K * D) by (apply Qmult_le_compat_r; lra).
    assert (K * D < K * (2 * B)) by (apply Qmult_lt_l; lra). lra. }
  destruct (Qle_bool (2 ^ (a - b)) x) eqn:Hle.
  - apply Qle_bool_iff in Hle. split; [exact Hle|]. rewrite pow2_succ. exact Hupper.
  - assert (Hlt : x < 2 ^ (a - b)).
    { apply Qnot_le_lt. intros Hc. apply Qle_bool_iff in Hc. congruence. }
    replace (a - b - 1 + 1)%Z with (a - b)%Z by lia.
    split; [|exact Hlt].
    assert (He : 2 ^ (a - b) == 2 * 2 ^ (a - b - 1)).
    { rewrite <- pow2_succ. replace (a - b - 1 + 1)%Z with (a - b)%Z by lia. reflexivity. }
    lra.
Qed.

Lemma ilog2_unique (q : Q) (k : Z) :
  2 ^ k <= q -> q < 2 ^ (k + 1) -> Double.ilog2 q = k.
Proof.
  intros Hlo Hhi.
  assert (Hq : 0 < q) by (pose proof (pow2_pos k); lra).
  destruct (ilog2_spec q Hq) as [Hl Hh].
  assert (k < Double.ilog2 q + 1)%Z by (apply pow2_lt_inv; lra).
  assert (Double.ilog2 q < k + 1)%Z by (apply pow2_lt_inv; lra).
  lia.
Qed.

Lemma ilog2_comp (x y : Q) : 0 < x -> x == y -> Double.ilog2 x = Double.ilog2 y.
Proof.
  intros Hx Hxy. destruct (ilog2_spec x Hx) as [Hl Hh].
  symmetry. apply ilog2_unique; rewrite <- Hxy; assumption.
Qed.

Lemma ilog2_le (x y : Q) : 0 < x -> x <= y -> (Double.ilog2 x <= Double.ilog2 y)%Z.
Proof.
  intros Hx Hxy.
  destruct (ilog2_spec x Hx) as [Hl _].
  destruct (ilog2_spec y ltac:(lra)) as [_ Hh].
  assert (Double.ilog2 x < Double.ilog2 y + 1)%Z by (apply pow2_lt_inv; lra).
  lia.
Qed.

Lemma nearest_even_cases (q : Q) :
  let f := Qfloor q in
  (q - inject_Z f < 1 # 2 /\ Double.nearest_even q = f) \/
  (1 # 2 < q - inject_Z f /\ Double.nearest_even q = (f + 1)%Z) \/
  (q - inject_Z f == 1 # 2 /\
   Double.nearest_even q = if Z.even f then f else (f + 1)%Z).
Proof.
  intros f. unfold Double.nearest_even. fold f.
  destruct (q - inject_Z f ?= 1 # 2) eqn:Hc.
  - right; right. split; [apply Qeq_alt, Hc|reflexivity].
  - left. split; [apply Qlt_alt, Hc|reflexivity].
  - right; left. split; [apply Qgt_alt, Hc|reflexivity].
Qed.

Lemma floor_bounds (q : Q) : inject_Z (Qfloor q) <= q /\ q < inject_Z (Qfloor q) + 1.
Proof.
  split; [apply Qfloor_le|].
  pose proof (Qlt_floor q) as H. rewrite inject_Z_plus in H. exact H.
Qed.

Lemma nearest_even_near (q : Q) :
  q - (1 # 2) <= inject_Z (Double.nearest_even q) /\
  inject_Z (Double.nearest_even q) <= q + (1 # 2).
Proof.
  pose proof (floor_bounds q) as [Hl Hh].
  destruct (nearest_even_cases q) as [[Hc ->]|[[Hc ->]|[Hc ->]]].
  - lra.
  - rewrite inject_Z_plus. change (inject_Z 1) with 1. lra.
  - destruct (Z.even (Qfloor q)); [|rewrite inject_Z_plus; change (inject_Z 1) with 1]; lra.
Qed.

Lemma nearest_even_le (x y : Q) :
  x <= y -> (Double.nearest_even x <= Double.nearest_even y)%Z.
Proof.
  intros Hxy.
  pose proof (Qfloor_resp_le x y Hxy) as Hf.
  pose proof (floor_bounds x) as [Hxl Hxh].
  pose proof (floor_bounds y) as [Hyl Hyh].
  destruct (Z.eq_dec (Qfloor x) (Qfloor y)) as [Heq|Hne].
  - destruct (nearest_even_cases x) as [[Hcx ->]|[[Hcx ->]|[Hcx ->]]];
      destruct (nearest_even_cases y) as [[Hcy ->]|[[Hcy ->]|[Hcy ->]]];
      rewrite <- ?Heq in *; try lia; try (exfalso; lra);
      destruct (Z.even (Qfloor x)); lia.
  - assert (Hlt : (Qfloor x + 1 <= Qfloor y)%Z) by lia.
    assert (Double.nearest_even x <= Qfloor x + 1)%Z.
    { destruct (nearest_even_cases x) as [[_ ->]|[[_ ->]|[_ ->]]]; try lia.
      destruct (Z.even (Qfloor x)); lia. }
    assert (Qfloor y <= Double.nearest_even y)%Z.
    { destruct (nearest_even_cases y) as [[_ ->]|[[_ ->]|[_ ->]]]; try lia.
      destruct (Z.even (Qfloor y)); lia. }
    lia.
Qed.

Lemma nearest_even_Z (q : Q) (z : Z) : q == inject_Z z -> Double.nearest_even q = z.
Proof.
  intros Hq.
  assert (Hf : Qfloor q = z) by (rewrite Hq; apply Qfloor_Z).
  destruct (nearest_even_cases q) as [[Hc ->]|[[Hc ->]|[Hc ->]]];
    rewrite Hf in *; try reflexivity; exfalso; lra.
Qed.

Lemma nearest_even_comp (x y : Q) : x == y -> Double.nearest_even x = Double.nearest_even y.
Proof.
  intros Hxy. unfold Double.nearest_even.
  rewrite (Qfloor_comp x y Hxy).
  assert (Hc : (x - inject_Z (Qfloor y) ?= 1 # 2) = (y - inject_Z (Qfloor y) ?= 1 # 2)).
  { rewrite Hxy. reflexivity. }
  rewrite Hc. reflexivity.
Qed.

Lemma round_nonzero (q : Q) :
  ~ q == 0 ->
  Double.round q ==
    inject_Z (Double.nearest_even (q / 2 ^ Double.ulp_exponent q)) * 2 ^ Double.ulp_exponent q.
Proof.
  intros Hq. unfold Double.round.
  destruct (Qeq_bool q 0) eqn:H0; [apply Qeq_bool_iff in H0; contradiction|].
  apply Qred_correct.
Qed.

Lemma round_zero (q : Q) : q == 0 -> Double.round q = 0.
Proof.
  intros Hq. unfold Double.round. apply Qeq_bool_iff in Hq. rewrite Hq. reflexivity.
Qed.

Lemma ulp_exponent_pos (q : Q) :
  0 < q -> Double.ulp_exponent q = Z.max (Double.ilog2 q - 52) (-1074).
Proof.
  intros Hq. unfold Double.ulp_exponent, Double.prec, Double.emin.
  rewrite (ilog2_comp (Qabs q) q); [reflexivity| |apply Qabs_pos; lra].
  rewrite Qabs_pos; lra.
Qed.

Lemma round_comp (x y : Q) : x == y -> Double.round x = Double.round y.
Proof.
  intros Hxy. unfold Double.round.
  assert (Hz : Qeq_bool x 0 = Qeq_bool y 0).
  { destruct (Qeq_bool y 0) eqn:Hy.
    - apply Qeq_bool_iff. apply Qeq_bool_iff in Hy. lra.
    - destruct (Qeq_bool x 0) eqn:Hx; [|reflexivity].
      apply Qeq_bool_iff in Hx. assert (Hy' : y == 0) by lra.
      apply Qeq_bool_iff in Hy'. congruence. }
  rewrite Hz. destruct (Qeq_bool y 0) eqn:Hy; [reflexivity|].
  assert (Hy0 : ~ y == 0) by (intros H; apply Qeq_bool_iff in H; congruence).
  assert (He : Double.ulp_exponent x = Double.ulp_exponent y).
  { unfold Double.ulp_exponent. f_equal. f_equal.
    apply ilog2_comp; [|rewrite Hxy; reflexivity].
    apply Qabs_case; intros; lra. }
  rewrite He.
  rewrite (nearest_even_comp (x / 2 ^ Double.ulp_exponent y) (y / 2 ^ Double.ulp_exponent y))
    by (rewrite Hxy; reflexivity).
  reflexivity.
Qed.

Lemma round_pos (x : Q) :
  0 < x ->
  Double.round x ==
    inject_Z (Double.nearest_even (x / 2 ^ Double.ulp_exponent x)) * 2 ^ Double.ulp_exponent x.
Proof. intros Hx. apply round_nonzero. lra. Qed.

Lemma div_pow2_le (x y : Q) (e : Z) : x <= y -> x / 2 ^ e <= y / 2 ^ e.
Proof.
  intros Hxy. unfold Qdiv. apply Qmult_le_compat_r; [exact Hxy|].
  apply Qlt_le_weak, Qinv_lt_0_compat, pow2_pos.
Qed.

Lemma grid_div (m : Z) (e' e : Z) :
  (e <= e')%Z -> inject_Z m * 2 ^ e' / 2 ^ e == inject_Z (m * 2 ^ (e' - e)).
Proof.
  intros He. rewrite inject_Z_mult, pow2_inject by lia.
  replace e' with ((e' - e) + e)%Z at 1 by lia. rewrite pow2_add.
  pose proof (pow2_pos e). field. intros H0. rewrite H0 in H. discriminate.
Qed.

Lemma grid_mul (m : Z) (e' e : Z) :
  (e <= e')%Z -> inject_Z (m * 2 ^ (e' - e)) * 2 ^ e == inject_Z m * 2 ^ e'.
Proof.
  intros He. rewrite <- (grid_div m e' e He). apply pow2_cancel.
Qed.

(** A value at or below a point of a grid no finer than its own is
    rounded to a value at or below that point. *)
Lemma round_grid_le (x : Q) (m e' : Z) :
  0 < x -> x <= inject_Z m * 2 ^ e' -> (Double.ulp_exponent x <= e')%Z ->
  Double.round x <= inject_Z m * 2 ^ e'.
Proof.
  intros Hx Hle He. rewrite (round_pos x Hx).
  set (e := Double.ulp_exponent x) in *.
  rewrite <- (grid_mul m e' e He).
  apply Qmult_le_compat_r; [|apply Qlt_le_weak, pow2_pos].
  rewrite <- Zle_Qle.
  rewrite <- (nearest_even_Z _ _ (grid_div m e' e He)).
  apply nearest_even_le, div_pow2_le, Hle.
Qed.

Lemma round_grid_ge (x : Q) (m e' : Z) :
  0 < x -> inject_Z m * 2 ^ e' <= x -> (Double.ulp_exponent x <= e')%Z ->
  inject_Z m * 2 ^ e' <= Double.round x.
Proof.
  intros Hx Hle He. rewrite (round_pos x Hx).
  set (e := Double.ulp_exponent x) in *.
  rewrite <- (grid_mul m e' e He).
  apply Qmult_le_compat_r; [|apply Qlt_le_weak, pow2_pos].
  rewrite <- Zle_Qle.
  rewrite <- (nearest_even_Z _ _ (grid_div m e' e He)).
  apply nearest_even_le, div_pow2_le, Hle.
Qed.

Lemma pow2_grid (k : Z) : 2 ^ k == inject_Z 1 * 2 ^ k.
Proof. change (inject_Z 1) with 1. ring. Qed.

Lemma round_nonneg (x : Q) : 0 <= x -> 0 <= Double.round x.
Proof.
  intros Hx. destruct (Qeq_dec x 0) as [H0|H0].
  - rewrite (round_zero x H0). lra.
  - assert (Hpos : 0 < x).
    { destruct (Qlt_le_dec 0 x); [assumption|]. exfalso. apply H0. lra. }
    rewrite (round_pos x Hpos).
    apply Qmult_le_0_compat; [|apply Qlt_le_weak, pow2_pos].
    change 0 with (inject_Z 0). rewrite <- Zle_Qle.
    rewrite <- (nearest_even_Z 0 0%Z) by reflexivity.
    apply nearest_even_le.
    apply Qlt_le_weak, Qlt_shift_div_l; [apply pow2_pos|lra].
Qed.

Lemma round_le_pos (x y : Q) : 0 < x -> x <= y -> Double.round x <= Double.round y.
Proof.
  intros Hx Hxy.
  assert (Hy : 0 < y) by lra.
  pose proof (ilog2_le x y Hx Hxy) as Hl.
  pose proof (ulp_exponent_pos x Hx) as Hex.
  pose proof (ulp_exponent_pos y Hy) as Hey.
  destruct (Z.eq_dec (Double.ulp_exponent x) (Double.ulp_exponent y)) as [Heq|Hne].
  - rewrite (round_pos x Hx), (round_pos y Hy), Heq.
    apply Qmult_le_compat_r; [|apply Qlt_le_weak, pow2_pos].
    rewrite <- Zle_Qle. apply nearest_even_le, div_pow2_le, Hxy.
  - destruct (ilog2_spec x Hx) as [_ Hxh].
    destruct (ilog2_spec y Hy) as [Hyl _].
    assert (Hlt : (Double.ilog2 x + 1 <= Double.ilog2 y)%Z) by lia.
    pose proof (pow2_le _ _ Hlt) as Hp.
    apply Qle_trans with (2 ^ Double.ilog2 y).
    + rewrite pow2_grid. apply round_grid_le; [exact Hx|rewrite <- pow2_grid; lra|lia].
    + rewrite pow2_grid. apply round_grid_ge; [exact Hy|rewrite <- pow2_grid; lra|lia].
Qed.

Lemma round_le (x y : Q) : 0 <= x -> x <= y -> Double.round x <= Double.round y.
Proof.
  intros Hx Hxy. destruct (Qeq_dec x 0) as [H0|H0].
  - rewrite (round_zero x H0). apply round_nonneg. lra.
  - apply round_le_pos; [|exact Hxy].
    destruct (Qlt_le_dec 0 x); [assumption|]. exfalso. apply H0. lra.
Qed.

Lemma ilog2_lt_pow2 (x : Q) (k : Z) : 0 < x -> x < 2 ^ k -> (Double.ilog2 x < k)%Z.
Proof.
  intros Hx Hk. destruct (ilog2_spec x Hx) as [Hl _]. apply pow2_lt_inv. lra.
Qed.

Lemma ilog2_ge_pow2 (x : Q) (k : Z) : 2 ^ k <= x -> (k <= Double.ilog2 x)%Z.
Proof.
  intros Hk. pose proof (pow2_pos k).
  destruct (ilog2_spec x ltac:(lra)) as [_ Hh].
  assert (k < Double.ilog2 x + 1)%Z by (apply pow2_lt_inv; lra). lia.
Qed.

(** A point of a grid no finer than that of its own binade is a double. *)
Lemma round_grid (m e' : Z) :
  0 < inject_Z m * 2 ^ e' ->
  (Double.ulp_exponent (inject_Z m * 2 ^ e') <= e')%Z ->
  Double.round (inject_Z m * 2 ^ e') == inject_Z m * 2 ^ e'.
Proof.
  intros Hpos He. apply Qle_antisym.
  - apply round_grid_le; [exact Hpos|apply Qle_refl|exact He].
  - apply round_grid_ge; [exact Hpos|apply Qle_refl|exact He].
Qed.

Lemma scaled_below (x : Q) :
  0 < x -> x / 2 ^ Double.ulp_exponent x < 2 ^ 53.
Proof.
  intros Hx. destruct (ilog2_spec x Hx) as [_ Hh].
  apply Qlt_shift_div_r; [apply pow2_pos|].
  rewrite <- pow2_add.
  eapply Qlt_le_trans; [exact Hh|]. apply pow2_le.
  rewrite (ulp_exponent_pos x Hx). lia.
Qed.

Lemma round_idempotent (x : Q) : 0 <= x -> Double.round (Double.round x) == Double.round x.
Proof.
  intros Hx0. destruct (Qeq_dec x 0) as [H0|H0].
  { rewrite (round_zero x H0). reflexivity. }
  assert (Hx : 0 < x).
  { destruct (Qlt_le_dec 0 x); [assumption|]. exfalso. apply H0. lra. }
  pose proof (round_pos x Hx) as Hr.
  set (e := Double.ulp_exponent x) in *.
  set (M := Double.nearest_even (x / 2 ^ e)) in *.
  assert (He : (-1074 <= e)%Z) by (unfold e; rewrite (ulp_exponent_pos x Hx); lia).
  assert (HM0 : (0 <= M)%Z).
  { unfold M. rewrite <- (nearest_even_Z 0 0%Z) by reflexivity.
    apply nearest_even_le, Qlt_le_weak, Qlt_shift_div_l; [apply pow2_pos|lra]. }
  assert (HM53 : (M <= 2 ^ 53)%Z).
  { unfold M. rewrite <- (nearest_even_Z (2 ^ 53) (2 ^ 53)%Z) by reflexivity.
    apply nearest_even_le, Qlt_le_weak, scaled_below, Hx. }
  rewrite (round_comp _ _ Hr), Hr.
  destruct (Z.eq_dec M 0%Z) as [HMz|HMz].
  { rewrite HMz. rewrite round_zero; [|ring]. ring. }
  pose proof (pow2_pos e) as Hpe.
  assert (Hrpos : 0 < inject_Z M * 2 ^ e).
  { apply Qmult_lt_0_compat; [|exact Hpe]. change 0 with (inject_Z 0). rewrite <- Zlt_Qlt. lia. }
  destruct (Z.eq_dec M (2 ^ 53)%Z) as [HMtop|HMtop].
  - assert (Heq : inject_Z M * 2 ^ e == inject_Z (2 ^ 52) * 2 ^ (e + 1)).
    { rewrite HMtop, pow2_succ. change (inject_Z (2 ^ 53)) with (2 * inject_Z (2 ^ 52)). ring. }
    rewrite (round_comp _ _ Heq), Heq. apply round_grid.
    + rewrite <- Heq. exact Hrpos.
    + rewrite ulp_exponent_pos by (rewrite <- Heq; exact Hrpos).
      assert (Hl : Double.ilog2 (inject_Z (2 ^ 52) * 2 ^ (e + 1)) = (53 + e)%Z).
      { apply ilog2_unique.
        - replace (53 + e)%Z with (52 + (e + 1))%Z by lia. rewrite (pow2_add 52 (e + 1)).
          change (inject_Z (2 ^ 52)) with (2 ^ 52). apply Qle_refl.
        - replace (53 + e + 1)%Z with (53 + (e + 1))%Z by lia. rewrite (pow2_add 53 (e + 1)).
          change (inject_Z (2 ^ 52)) with (2 ^ 52).
          apply Qmult_lt_compat_r; [apply pow2_pos|reflexivity]. }
      rewrite Hl. lia.
  - apply round_grid; [exact Hrpos|].
    rewrite ulp_exponent_pos by exact Hrpos.
    assert (Double.ilog2 (inject_Z M * 2 ^ e) < 53 + e)%Z; [|lia].
    apply ilog2_lt_pow2; [exact Hrpos|].
    rewrite pow2_add. apply Qmult_lt_compat_r; [exact Hpe|].
    change (2 ^ 53) with (inject_Z (2 ^ 53)). rewrite <- Zlt_Qlt. lia.
Qed.

Lemma round_representable (x : Q) : 0 <= x -> Double.representable (Double.round x) = true.
Proof. intros Hx. apply Qeq_bool_iff, round_idempotent, Hx. Qed.

Lemma representable_round (x : Q) : Double.representable x = true -> Double.round x == x.
Proof. apply Qeq_bool_iff. Qed.

(** In the normal range rounding moves a value by at most 2^-53 of it. *)
Lemma round_error (x : Q) :
  2 ^ (-1022) <= x ->
  x - x * 2 ^ (-53) <= Double.round x /\ Double.round x <= x + x * 2 ^ (-53).
Proof.
  intros Hn. pose proof (pow2_pos (-1022)) as Hp.
  assert (Hx : 0 < x) by lra.
  pose proof (ilog2_ge_pow2 x (-1022) Hn) as Hl.
  destruct (ilog2_spec x Hx) as [Hlo _].
  rewrite (round_pos x Hx).
  assert (He : Double.ulp_exponent x = (Double.ilog2 x - 52)%Z)
    by (rewrite (ulp_exponent_pos x Hx); lia).
  rewrite He. set (l := Double.ilog2 x) in *.
  pose proof (nearest_even_near (x / 2 ^ (l - 52))) as [Hn1 Hn2].
  pose proof (pow2_pos (l - 52)) as Hpe.
  pose proof (pow2_cancel x (l - 52)) as Hc.
  assert (Hhalf : (1 # 2) * 2 ^ (l - 52) == 2 ^ l * 2 ^ (-53)).
  { rewrite <- pow2_add. replace (l + -53)%Z with ((l - 52) + (-1))%Z by lia.
    rewrite pow2_add. change (2 ^ (-1)) with (1 # 2). ring. }
  assert (Hu : 2 ^ l * 2 ^ (-53) <= x * 2 ^ (-53)).
  { apply Qmult_le_compat_r; [exact Hlo|apply Qlt_le_weak, pow2_pos]. }
  set (z := inject_Z (Double.nearest_even (x / 2 ^ (l - 52)))) in *.
  assert (H1 : (x / 2 ^ (l - 52) - (1 # 2)) * 2 ^ (l - 52) <= z * 2 ^ (l - 52))
    by (apply Qmult_le_compat_r; lra).
  assert (H2 : z * 2 ^ (l - 52) <= (x / 2 ^ (l - 52) + (1 # 2)) * 2 ^ (l - 52))
    by (apply Qmult_le_compat_r; lra).
  set (zz := z * 2 ^ (l - 52)) in *.
  set (s := x / 2 ^ (l - 52)) in *. set (P := 2 ^ (l - 52)) in *.
  set (U := x * 2 ^ (-53)) in *. set (V := 2 ^ l * 2 ^ (-53)) in *.
  assert (H1' : s * P - (1 # 2) * P <= zz) by (ring_simplify in H1; lra).
  assert (H2' : zz <= s * P + (1 # 2) * P) by (ring_simplify in H2; lra).
  split; lra.
Qed.

(** Rounding at work: a third; the tie 2^53 + 1, which goes to the even
    neighbour; 2^53 + 3, which goes up; half the least positive double,
    a tie that goes to zero; and the durations of three and of four
    frames at 24 kHz. *)
Example round_examples :
  Double.round (1 # 3) = 6004799503160661 # 18014398509481984 /\
  Double.round (2 ^ 53 + 1) == 2 ^ 53 /\
  Double.round (2 ^ 53 + 3) == 2 ^ 53 + 4 /\
  Double.round (2 ^ (-1075)) == 0 /\
  Double.round (3 * 2 ^ (-1075)) == 2 ^ (-1073) /\
  Double.div 3 24000 = 1152921504606847 # 9223372036854775808 /\
  Double.div 4 24000 = 6148914691236517 # 36893488147419103232.
Proof. vm_compute. repeat split. Qed.

End DoubleArithmetic.

(** ** The PCM helpers *)

Lemma nominal_24000 (c : RateRange) : nominal c 24000 = true.
Proof.
  unfold nominal. rewrite !andb_true_iff, Z.ltb_lt, !Z.leb_le. lia.
Qed.

Lemma decodeAudioData_24000 (bytes : list Z) (b : AudioBuffer) :
  decodeAudioData bytes ctx 24000 = inr b ->
  sampleRate b = 24000 /\ (0 < frames b)%nat.
Proof.
  unfold decodeAudioData, createBuffer.
  destruct (Nat.odd (length bytes)); [discriminate|].
  rewrite nominal_24000, orb_false_r.
  destruct (length (int16_of_bytes bytes) =? 0)%nat eqn:Hlen; [discriminate|].
  intros [= <-]. apply Nat.eqb_neq in Hlen.
  unfold frames; cbn [channelData sampleRate]. rewrite length_map. split; [reflexivity|lia].
Qed.

(** A buffer of at least one frame at 24 kHz lasts 2^-15 seconds or
    more, also as a double. *)
Lemma duration_at_least (b : AudioBuffer) :
  sampleRate b = 24000 -> (0 < frames b)%nat -> (2 ^ (-15) <= duration b)%Q.
Proof.
  intros Hr Hf. unfold duration, Double.div. rewrite Hr.
  assert (Hfix : (Double.round (2 ^ (-15)) == 2 ^ (-15))%Q) by (vm_compute; reflexivity).
  rewrite <- Hfix. apply round_le; [vm_compute; discriminate|].
  assert (Hn : (1 <= inject_Z (Z.of_nat (frames b)))%Q).
  { change 1%Q with (inject_Z 1). rewrite <- Zle_Qle. lia. }
  change (2 ^ (-15))%Q with (1 # 32768)%Q. change (inject_Z 24000) with (24000 # 1)%Q.
  apply Qle_shift_div_l; [reflexivity|]. lra.
Qed.

Lemma decodePayload_duration (data : string) (b : AudioBuffer) :
  decodePayload data = inr b -> (2 ^ (-15) <= duration b)%Q.
Proof.
  unfold decodePayload. destruct (base64ToUint8Array data); [discriminate|].
  intros Hd. apply decodeAudioData_24000 in Hd as [Hr Hf].
  apply duration_at_least; assumption.
Qed.

Lemma duration_positive (b : AudioBuffer) : (2 ^ (-15) <= duration b)%Q -> (0 < duration b)%Q.
Proof. intros H. change (2 ^ (-15))%Q with (1 # 32768)%Q in H. lra. Qed.

(** Adding a duration to a non-negative double does not give less. *)
Lemma add_ge (s d : Q) :
  (0 <= s)%Q -> Double.representable s = true -> (0 <= d)%Q -> (s <= Double.add s d)%Q.
Proof.
  intros Hs Hrep Hd. unfold Double.add.
  rewrite <- (representable_round s Hrep) at 1.
  apply round_le; [exact Hs|lra].
Qed.

(** The stored sum falls short of the exact one by at most 2^-53 of
    it. *)
Lemma add_error (s d : Q) :
  (0 <= s)%Q -> (2 ^ (-15) <= d)%Q ->
  (s + d - (s + d) * Double.unit_roundoff <= Double.add s d)%Q.
Proof.
  intros Hs Hd. unfold Double.add, Double.unit_roundoff.
  apply round_error.
  apply Qle_trans with (2 ^ (-15))%Q; [apply pow2_le; lia|lra].
Qed.

Lemma Qmax_cases (a b : Q) : Qmax a b = a \/ Qmax a b = b.
Proof. unfold Qmax, GenericMinMax.gmax. destruct (a ?= b)%Q; auto. Qed.

Lemma Qmax_representable (a : Q) (now : double) :
  Double.representable a = true -> Double.representable (Qmax a now) = true.
Proof.
  intros Ha. destruct (Qmax_cases a now) as [-> | ->]; [exact Ha|apply value_representable].
Qed.

(** ** The handlers, one equation per path *)

Lemma truthy_Some (o : option string) :
  truthy o = true -> exists s, o = Some s /\ s <> "".
Proof.
  destruct o as [s|]; [|discriminate]. simpl. intros H. exists s. split; [done|].
  intros ->. discriminate.
Qed.

Lemma handleAudio_decoded (now : double) (data : string) (b : AudioBuffer) (st : SessionState) :
  decodePayload data = inr b ->
  handleAudio now data st = (scheduledAt now b st, inr tt).
Proof.
  unfold decodePayload, handleAudio, bind, modify, gets, lift, createBufferSource.
  destruct (base64ToUint8Array data) as [e|bytes]; [discriminate|].
  intros ->. reflexivity.
Qed.

Lemma handleAudio_failed (now : double) (data : string) (e : JsError) (st : SessionState) :
  decodePayload data = inl e ->
  handleAudio now data st =
    (setNextStartTime (Qmax (nextStartTime st) now) (setIsSpeaking true st), inl e).
Proof.
  unfold decodePayload, handleAudio, bind, modify, gets, lift, createBufferSource.
  destruct (base64ToUint8Array data) as [e'|bytes].
  - intros [= ->]. reflexivity.
  - intros ->. reflexivity.
Qed.

Lemma sameSchedule_refl (st : SessionState) : sameSchedule st st.
Proof. repeat split. Qed.

Lemma sameSchedule_trans (a b c : SessionState) :
  sameSchedule a b -> sameSchedule b c -> sameSchedule a c.
Proof.
  unfold sameSchedule. intros (?&?&?&?&?) (?&?&?&?&?).
  repeat split; congruence.
Qed.

Lemma handleFunctionCall_schedule (fc : FunctionCall) (st : SessionState) :
  sameSchedule st (fst (handleFunctionCall fc st)).
Proof.
  unfold handleFunctionCall, bind, modify, throw, ret.
  destruct (String.eqb _ _); [|apply sameSchedule_refl].
  destruct (fc_args fc); [|apply sameSchedule_refl].
  destruct (_ && _)%bool; repeat split.
Qed.

Lemma for_of_schedule (calls : list FunctionCall) (st : SessionState) :
  sameSchedule st (fst (for_of calls handleFunctionCall st)).
Proof.
  revert st. induction calls as [|fc calls IH]; intros st; [apply sameSchedule_refl|].
  cbn [for_of]. unfold bind.
  pose proof (handleFunctionCall_schedule fc st) as Hfc.
  destruct (handleFunctionCall fc st) as [st' [e|[]]]; [exact Hfc|].
  eapply sameSchedule_trans; [exact Hfc|apply IH].
Qed.

Lemma dispatch_schedule (msg : LiveServerMessage) (st : SessionState) :
  sameSchedule st (fst (dispatch msg st)).
Proof.
  unfold dispatch. destruct (toolCall msg) as [tc|]; [|apply sameSchedule_refl].
  destruct (functionCalls tc); [apply for_of_schedule|apply sameSchedule_refl].
Qed.

Lemma onMessage_silent (now : double) (msg : LiveServerMessage) (st : SessionState) :
  truthy (audioData msg) = false ->
  onMessage now msg st = dispatch msg st.
Proof. unfold onMessage, playAudio, bind. intros ->. reflexivity. Qed.

Lemma onMessage_playable
    (now : double) (msg : LiveServerMessage) (b : AudioBuffer) (st : SessionState) :
  playable msg b ->
  onMessage now msg st = dispatch msg (scheduledAt now b st).
Proof.
  intros [Ht Hd]. unfold onMessage, playAudio, bind. rewrite Ht.
  fold (payload msg). rewrite (handleAudio_decoded _ _ _ _ Hd). reflexivity.
Qed.

Lemma onMessage_malformed
    (now : double) (msg : LiveServerMessage) (e : JsError) (st : SessionState) :
  malformed msg e ->
  onMessage now msg st =
    (setNextStartTime (Qmax (nextStartTime st) now) (setIsSpeaking true st), inl e).
Proof.
  intros [Ht Hd]. unfold onMessage, playAudio, bind. rewrite Ht.
  fold (payload msg). rewrite (handleAudio_failed _ _ _ _ Hd). reflexivity.
Qed.

(** ** The playback scheduler *)

Lemma run_snoc (evs : list Event) (ev : Event) :
  run (evs ++ [ev]) = step (run evs) ev.
Proof. unfold run. apply fold_left_app. Qed.

(** A step either leaves the list of started units alone, and the
    marker where it is or raised to a clock reading, or starts one unit
    at the larger of marker and clock and stores the double sum of that
    start and the unit's duration in the marker. *)
Lemma step_schedule (st : SessionState) (ev : Event) :
  (started (step st ev) = started st /\
   (nextStartTime (step st ev) = nextStartTime st \/
    exists now : double, nextStartTime (step st ev) = Qmax (nextStartTime st) now)) \/
  (exists (now : double) (b : AudioBuffer),
      (2 ^ (-15) <= duration b)%Q /\
      started (step st ev) =
        started st ++ [mkScheduled (created st) (Qmax (nextStartTime st) now) b] /\
      nextStartTime (step st ev) = Double.add (Qmax (nextStartTime st) now) (duration b)).
Proof.
  destruct ev as [now msg|source| |]; cbn [step].
  - destruct (truthy (audioData msg)) eqn:Ht.
    + destruct (decodePayload (payload msg)) as [e|b] eqn:Hd.
      * left. rewrite (onMessage_malformed now msg e st (conj Ht Hd)).
        cbn. split; [reflexivity|]. right. exists now. reflexivity.
      * right. exists now, b.
        rewrite (onMessage_playable now msg b st (conj Ht Hd)).
        destruct (dispatch_schedule msg (scheduledAt now b st))
          as (_ & Hn & _ & _ & Hs).
        rewrite Hn, Hs. split; [eapply decodePayload_duration; eassumption|].
        split; reflexivity.
    + left. rewrite (onMessage_silent now msg st Ht).
      destruct (dispatch_schedule msg st) as (_ & Hn & _ & _ & Hs).
      rewrite Hn, Hs. split; [reflexivity|left; reflexivity].
  - left. unfold onEnded. cbn.
    destruct (size _ =? 0)%nat; cbn; split; try reflexivity; left; reflexivity.
  - left. cbn. split; [reflexivity|left; reflexivity].
  - left. cbn. split; [reflexivity|left; reflexivity].
Qed.

Lemma step_marker (st : SessionState) (ev : Event) :
  soundTimes st -> (nextStartTime st <= nextStartTime (step st ev))%Q.
Proof.
  intros (H0 & Hrep & _).
  destruct (step_schedule st ev) as [[_ [Hn|[now Hn]]]|(now & b & Hd & _ & Hn)]; rewrite Hn.
  - apply Qle_refl.
  - apply Q.le_max_l.
  - pose proof (Q.le_max_l (nextStartTime st) now) as Hmax.
    eapply Qle_trans; [exact Hmax|].
    apply add_ge; [lra|apply Qmax_representable, Hrep|].
    apply Qlt_le_weak, duration_positive, Hd.
Qed.

Lemma step_soundTimes (st : SessionState) (ev : Event) :
  soundTimes st -> soundTimes (step st ev).
Proof.
  intros Hst. pose proof (step_marker st ev Hst) as Hle.
  destruct Hst as (H0 & Hrep & Hunits).
  split; [lra|].
  destruct (step_schedule st ev) as [[Hs [Hn|[now Hn]]]|(now & b & Hd & Hs & Hn)];
    rewrite Hn, Hs.
  - split; assumption.
  - split; [apply Qmax_representable, Hrep|assumption].
  - pose proof (Q.le_max_l (nextStartTime st) now) as Hmax.
    split.
    + apply round_representable. pose proof (duration_positive b Hd). lra.
    + intros u Hu. apply elem_of_app in Hu as [Hu|Hu]; [apply Hunits, Hu|].
      apply list_elem_of_singleton in Hu as ->. cbn.
      split; [lra|]. split; [apply Qmax_representable, Hrep|exact Hd].
Qed.

Lemma run_soundTimes (evs : list Event) : soundTimes (run evs).
Proof.
  induction evs as [|ev evs IH] using rev_ind.
  - split; [cbn; lra|]. split; [reflexivity|].
    intros u Hu. cbn in Hu. apply elem_of_nil in Hu. contradiction.
  - rewrite run_snoc. apply step_soundTimes, IH.
Qed.

Lemma ordered_snoc (l : list Scheduled) (v : Scheduled) :
  ordered l ->
  (forall u, u ∈ l -> (when u <= when v)%Q /\ (storedEnd u <= when v)%Q) ->
  ordered (l ++ [v]).
Proof.
  intros Hl Hv i j a b Hij Ha Hb.
  assert (Hj : (j < length (l ++ [v]))%nat) by (apply lookup_lt_is_Some; eauto).
  rewrite length_app in Hj. cbn in Hj.
  rewrite lookup_app_l in Ha by lia.
  destruct (decide (j < length l)%nat) as [Hlt|Hge].
  - rewrite lookup_app_l in Hb by lia. exact (Hl i j a b Hij Ha Hb).
  - rewrite lookup_app_r in Hb by lia.
    replace (j - length l)%nat with 0%nat in Hb by lia. cbn in Hb.
    injection Hb as <-. apply Hv. eapply list_elem_of_lookup_2; eassumption.
Qed.

Lemma storedEnd_ge (st : SessionState) (u : Scheduled) :
  soundTimes st -> u ∈ started st -> (when u <= storedEnd u)%Q.
Proof.
  intros (_ & _ & Hunits) Hu. destruct (Hunits u Hu) as (H0 & Hrep & Hd).
  apply add_ge; [exact H0|exact Hrep|]. apply Qlt_le_weak, duration_positive, Hd.
Qed.

Lemma step_invariant (st : SessionState) (ev : Event) :
  soundTimes st ->
  ordered (started st) /\ settled st ->
  ordered (started (step st ev)) /\ settled (step st ev).
Proof.
  intros Hsound [Hord Hset].
  pose proof (step_marker st ev Hsound) as Hle.
  destruct (step_schedule st ev) as [[Hs _]|(now & b & Hd & Hs & Hn)].
  - split.
    + rewrite Hs. exact Hord.
    + intros u Hu. rewrite Hs in Hu. eapply Qle_trans; [apply Hset; exact Hu|exact Hle].
  - assert (Hbefore : forall u, u ∈ started st ->
                (storedEnd u <= Qmax (nextStartTime st) now)%Q).
    { intros u Hu. eapply Qle_trans; [apply Hset; exact Hu|apply Q.le_max_l]. }
    split.
    + rewrite Hs. apply ordered_snoc; [exact Hord|]. intros u Hu. cbn.
      specialize (Hbefore u Hu). pose proof (storedEnd_ge st u Hsound Hu). split; lra.
    + intros u Hu. rewrite Hs in Hu.
      apply elem_of_app in Hu as [Hu|Hu].
      * specialize (Hbefore u Hu).
        pose proof (Q.le_max_l (nextStartTime st) now). rewrite Hn in *.
        destruct Hsound as (H0 & Hrep & _).
        pose proof (add_ge (Qmax (nextStartTime st) now) (duration b)
                      ltac:(lra) (Qmax_representable _ now Hrep)
                      (Qlt_le_weak _ _ (duration_positive b Hd))).
        lra.
      * apply list_elem_of_singleton in Hu as ->. rewrite Hn. apply Qle_refl.
Qed.

Lemma run_invariant (evs : list Event) :
  ordered (started (run evs)) /\ settled (run evs).
Proof.
  induction evs as [|ev evs IH] using rev_ind.
  - split.
    + intros i j u v _ Hu. cbn in Hu. rewrite lookup_nil in Hu. discriminate.
    + intros u Hu. cbn in Hu. apply elem_of_nil in Hu. contradiction.
  - rewrite run_snoc. apply step_invariant; [apply run_soundTimes|exact IH].
Qed.

(** What the stored end of a unit bounds, the exact end passes by the
    rounding error of the one sum at most. *)
Lemma stored_within_rounding (st : SessionState) (u : Scheduled) (t : Q) :
  soundTimes st -> u ∈ started st -> (storedEnd u <= t)%Q ->
  (finish u - t <= finish u * Double.unit_roundoff)%Q.
Proof.
  intros (_ & _ & Hunits) Hu Ht. destruct (Hunits u Hu) as (H0 & _ & Hd).
  pose proof (add_error (when u) (duration (buffer u)) H0 Hd) as Herr.
  unfold finish. unfold storedEnd in Ht. lra.
Qed.

(** C1, amended. However the inbound audio chunks and the other events
    of a session interleave, and whatever the output clock reads when
    each chunk arrives: the next playable chunk is started exactly at
    [max(nextStartTime, currentTime)], which is neither earlier than the
    clock nor earlier than the end stored for any chunk started before,
    the double sum of its start and its duration.  So the chunks started
    so far are in order: each later one starts no earlier than each
    earlier one starts and than the end stored for it, and the exact end
    of the earlier one lies past the start of the later one by the
    rounding error of that one sum at most, 2^-53 of the end. *)
Theorem playback_schedule (evs : list Event) :
  (forall (i j : nat) (u v : Scheduled),
     (i < j)%nat -> started (run evs) !! i = Some u -> started (run evs) !! j = Some v ->
     (when u <= when v)%Q /\ (storedEnd u <= when v)%Q /\ withinRounding u v) /\
  (forall (now : double) (msg : LiveServerMessage) (b : AudioBuffer),
     playable msg b ->
     started (run (evs ++ [Message now msg])) =
       started (run evs)
         ++ [mkScheduled (created (run evs)) (Qmax (nextStartTime (run evs)) now) b] /\
     (now <= Qmax (nextStartTime (run evs)) now)%Q /\
     (forall u : Scheduled, u ∈ started (run evs) ->
        (storedEnd u <= Qmax (nextStartTime (run evs)) now)%Q /\
        (finish u - Qmax (nextStartTime (run evs)) now
         <= finish u * Double.unit_roundoff)%Q)).
Proof.
  destruct (run_invariant evs) as [Hord Hset].
  pose proof (run_soundTimes evs) as Hsound.
  split.
  - intros i j u v Hij Hu Hv.
    destruct (Hord i j u v Hij Hu Hv) as [Hstart Hend].
    split; [exact Hstart|]. split; [exact Hend|].
    apply (stored_within_rounding (run evs) u (when v) Hsound); [|exact Hend].
    eapply list_elem_of_lookup_2; eassumption.
  - intros now msg b Hp. rewrite run_snoc. cbn [step].
    rewrite (onMessage_playable now msg b _ Hp).
    destruct (dispatch_schedule msg (scheduledAt now b (run evs)))
      as (_ & _ & _ & _ & Hs).
    rewrite Hs. split; [reflexivity|]. split; [apply Q.le_max_r|].
    intros u Hu.
    assert (Hend : (storedEnd u <= Qmax (nextStartTime (run evs)) now)%Q).
    { eapply Qle_trans; [apply Hset; exact Hu|apply Q.le_max_l]. }
    split; [exact Hend|].
    apply (stored_within_rounding (run evs) u _ Hsound Hu Hend).
Qed.

Lemma Qmax_left (a b : Q) : (b <= a)%Q -> Qmax a b = a.
Proof.
  intros Hle. unfold Qmax, GenericMinMax.gmax.
  destruct (a ?= b)%Q eqn:Hc; try reflexivity.
  apply Qlt_alt in Hc. exfalso. lra.
Qed.

Lemma Qmax_twice (a b c : Q) : (b <= c)%Q -> (Qmax (Qmax a b) c == Qmax a c)%Q.
Proof.
  intros Hle.
  destruct (Q.max_spec a b) as [[? H1]|[? H1]];
    destruct (Q.max_spec (Qmax a b) c) as [[? H2]|[? H2]];
    destruct (Q.max_spec a c) as [[? H3]|[? H3]]; lra.
Qed.


(** C7. An audio message whose payload cannot be decoded ends its
    handler with the decoding error and starts nothing: the list of
    started units, the pending set and the node count are as before, and
    the marker is only raised to the clock.  The next playable chunk,
    arriving when the clock reads the same or more, is started as if
    the malformed one had not arrived, at the larger of the old marker
    and the clock, never before the clock, and moves the marker to its
    end, the double sum of its start and its duration. *)
Theorem malformed_chunk_dropped
    (st : SessionState) (now now' : double) (msg msg' : LiveServerMessage)
    (e : JsError) (b : AudioBuffer) :
  malformed msg e ->
  playable msg' b ->
  (now <= now')%Q ->
  snd (onMessage now msg st) = inl e /\
  started (step st (Message now msg)) = started st /\
  sources (step st (Message now msg)) = sources st /\
  created (step st (Message now msg)) = created st /\
  nextStartTime (step st (Message now msg)) = Qmax (nextStartTime st) now /\
  exists u : Scheduled,
    started (step (step st (Message now msg)) (Message now' msg')) = started st ++ [u] /\
    buffer u = b /\
    (when u == Qmax (nextStartTime st) now')%Q /\
    (now' <= when u)%Q /\
    nextStartTime (step (step st (Message now msg)) (Message now' msg')) =
      Double.add (when u) (duration b) /\
    node u ∈ sources (step (step st (Message now msg)) (Message now' msg')).
Proof.
  intros Hm Hp Hnow. cbn [step].
  rewrite (onMessage_malformed now msg e st Hm). cbn [fst snd].
  repeat (split; [reflexivity|]).
  set (st1 := setNextStartTime _ _).
  rewrite (onMessage_playable now' msg' b st1 Hp).
  destruct (dispatch_schedule msg' (scheduledAt now' b st1))
    as (_ & Hn & Hsrc & _ & Hs).
  rewrite Hs, Hn, Hsrc. subst st1. cbn.
  eexists. split; [reflexivity|]. cbn.
  split; [reflexivity|]. split; [apply Qmax_twice, Hnow|].
  split; [apply Q.le_max_r|]. split; [reflexivity|].
  apply elem_of_union; right. apply elem_of_singleton. reflexivity.
Qed.

(** ** The tool-call dispatcher *)

Lemma handleFunctionCall_other (fc : FunctionCall) (st : SessionState) :
  fc_name fc <> "setPoseIndex" -> handleFunctionCall fc st = (st, inr tt).
Proof.
  intros Hname. unfold handleFunctionCall.
  destruct (String.eqb_spec (fc_name fc) "setPoseIndex"); [contradiction|reflexivity].
Qed.

Lemma handleFunctionCall_answered
    (fc : FunctionCall) (args : gmap string jsval) (st : SessionState) :
  fc_name fc = "setPoseIndex" ->
  fc_args fc = Some args ->
  handleFunctionCall fc st =
    (sendToolResponse (responseTo fc)
       (if accepted (requestedIndex args)
        then setCurrentPoseIndex (fun _ => requestedIndex args) st
        else st),
     inr tt).
Proof.
  intros Hname Hargs. unfold handleFunctionCall, responseTo, bind, modify.
  rewrite Hname, Hargs. cbn [String.eqb Ascii.eqb Bool.eqb from_option id].
  change (Number (default JUndefined (args !! "index"))) with (requestedIndex args).
  change (negb (JsNum.isNaN (requestedIndex args)) && JsNum.ge (requestedIndex args) 0
          && JsNum.lt (requestedIndex args) poseCount)%bool
    with (accepted (requestedIndex args)).
  destruct (accepted (requestedIndex args)); reflexivity.
Qed.

Lemma handleFunctionCall_no_args (fc : FunctionCall) (st : SessionState) :
  fc_name fc = "setPoseIndex" ->
  fc_args fc = None ->
  handleFunctionCall fc st = (st, inl TypeError).
Proof.
  intros Hname Hargs. unfold handleFunctionCall. rewrite Hname, Hargs. reflexivity.
Qed.

(** A [setPoseIndex] call with arguments: an accepted index becomes
    the pose index and is answered with success, any other leaves the
    pose index alone and is answered with the bounds error. *)
Lemma setPoseIndex_call_outcome
    (fc : FunctionCall) (args : gmap string jsval) (st : SessionState) :
  fc_name fc = "setPoseIndex" ->
  fc_args fc = Some args ->
  (accepted (requestedIndex args) = true ->
   currentPoseIndex (fst (handleFunctionCall fc st)) = requestedIndex args /\
   sent (fst (handleFunctionCall fc st)) =
     sent st ++ [mkFunctionResponse (fc_id fc) "setPoseIndex" "OK, pose updated."]) /\
  (accepted (requestedIndex args) = false ->
   currentPoseIndex (fst (handleFunctionCall fc st)) = currentPoseIndex st /\
   sent (fst (handleFunctionCall fc st)) =
     sent st ++ [mkFunctionResponse (fc_id fc) "setPoseIndex"
                   "Error: Pose index out of bounds."]).
Proof.
  intros Hname Hargs. rewrite (handleFunctionCall_answered fc args st Hname Hargs).
  unfold responseTo. rewrite Hargs, Hname. cbn [from_option id fst].
  split; intros ->; split; reflexivity.
Qed.

Lemma accepted_Fin (i : number) :
  accepted i = true -> exists q, i = Fin q /\ (0 <= q)%Q /\ (q < poseCount)%Q.
Proof.
  unfold accepted. destruct i as [| | |q]; cbn; try discriminate.
  intros H. apply andb_prop in H as [H0 H1].
  exists q. split; [reflexivity|]. split.
  - apply Qle_bool_iff, H0.
  - apply negb_true_iff in H1. apply Qnot_le_lt. intros Hle.
    apply Qle_bool_iff in Hle. congruence.
Qed.

(** The responses a handler adds are those of the [setPoseIndex] calls
    it went through, in order. *)
Lemma for_of_sent (calls : list FunctionCall) (st : SessionState) :
  exists done : list FunctionCall,
    done `prefix_of` filter (fun fc => fc_name fc = "setPoseIndex") calls /\
    sent (fst (for_of calls handleFunctionCall st)) = sent st ++ map responseTo done /\
    (snd (for_of calls handleFunctionCall st) = inr tt ->
     done = filter (fun fc => fc_name fc = "setPoseIndex") calls).
Proof.
  revert st. induction calls as [|fc calls IH]; intros st.
  - exists []. cbn. rewrite app_nil_r. repeat split. apply prefix_nil.
  - cbn [for_of]. unfold bind.
    destruct (decide (fc_name fc = "setPoseIndex")) as [Hname|Hname].
    + rewrite filter_cons_True by exact Hname.
      destruct (fc_args fc) as [args|] eqn:Hargs.
      * rewrite (handleFunctionCall_answered fc args st Hname Hargs).
        set (st1 := sendToolResponse _ _).
        destruct (IH st1) as (done & Hpre & Hsent & Hall).
        exists (fc :: done). split; [apply prefix_cons, Hpre|]. split.
        -- rewrite Hsent. subst st1. cbn. destruct (accepted _); cbn;
             rewrite <- app_assoc; reflexivity.
        -- intros Hok. rewrite (Hall Hok). reflexivity.
      * rewrite (handleFunctionCall_no_args fc st Hname Hargs).
        exists []. cbn. rewrite app_nil_r. split; [apply prefix_nil|].
        split; [reflexivity|discriminate].
    + rewrite filter_cons_False by exact Hname.
      rewrite (handleFunctionCall_other fc st Hname). apply IH.
Qed.

Lemma for_of_filter (calls : list FunctionCall) (st : SessionState) :
  for_of calls handleFunctionCall st =
  for_of (filter (fun fc => fc_name fc = "setPoseIndex") calls) handleFunctionCall st.
Proof.
  revert st. induction calls as [|fc calls IH]; intros st; [reflexivity|].
  destruct (decide (fc_name fc = "setPoseIndex")) as [Hname|Hname].
  - rewrite filter_cons_True by exact Hname. cbn [for_of]. unfold bind.
    destruct (handleFunctionCall fc st) as [st' [e|[]]]; [reflexivity|apply IH].
  - rewrite filter_cons_False by exact Hname. cbn [for_of]. unfold bind.
    rewrite (handleFunctionCall_other fc st Hname). apply IH.
Qed.

Lemma playAudio_navigation (now : double) (msg : LiveServerMessage) (st : SessionState) :
  sameNavigation st (fst (playAudio now msg st)).
Proof.
  unfold playAudio. destruct (truthy (audioData msg)); [|split; reflexivity].
  fold (payload msg).
  destruct (decodePayload (payload msg)) as [e|b] eqn:Hd.
  - rewrite (handleAudio_failed _ _ _ _ Hd). split; reflexivity.
  - rewrite (handleAudio_decoded _ _ _ _ Hd). split; reflexivity.
Qed.

(** C10. A function call whose name is not [setPoseIndex] is passed
    over: its handler changes nothing and sends nothing.  A message is
    handled exactly as the same message without such calls would be;
    every response sent while a message is handled answers a call of
    that message named [setPoseIndex], under that call's identifier;
    and a message with no such call leaves the pose index and the
    responses sent as they were. *)
Theorem other_calls_ignored :
  (forall (fc : FunctionCall) (st : SessionState),
     fc_name fc <> "setPoseIndex" -> handleFunctionCall fc st = (st, inr tt)) /\
  (forall (calls : list FunctionCall) (st : SessionState),
     for_of calls handleFunctionCall st =
     for_of (filter (fun fc => fc_name fc = "setPoseIndex") calls) handleFunctionCall st) /\
  (forall (now : double) (msg : LiveServerMessage) (st : SessionState),
     exists rs : list FunctionResponse,
       sent (fst (onMessage now msg st)) = sent st ++ rs /\
       forall r : FunctionResponse, r ∈ rs ->
         fr_name r = "setPoseIndex" /\
         exists (calls : list FunctionCall) (fc : FunctionCall),
           toolCall msg = Some (mkToolCall (Some calls)) /\
           fc ∈ calls /\ fc_name fc = "setPoseIndex" /\ fr_id r = fc_id fc) /\
  (forall (now : double) (msg : LiveServerMessage) (calls : list FunctionCall) (st : SessionState),
     toolCall msg = Some (mkToolCall (Some calls)) ->
     Forall (fun fc => fc_name fc <> "setPoseIndex") calls ->
     sameNavigation st (fst (onMessage now msg st)) /\
     (truthy (audioData msg) = false -> onMessage now msg st = (st, inr tt))).
Proof.
  split; [exact handleFunctionCall_other|]. split; [exact for_of_filter|]. split.
  - intros now msg st. unfold onMessage, bind.
    destruct (playAudio_navigation now msg st) as [_ Hsent].
    destruct (playAudio now msg st) as [st1 [e|[]]]; cbn [fst] in *.
    { exists []. rewrite app_nil_r. split; [exact Hsent|]. intros r Hr.
      apply elem_of_nil in Hr. contradiction. }
    unfold dispatch. destruct (toolCall msg) as [[[calls|]]|]; cbn.
    + destruct (for_of_sent calls st1) as (done & Hpre & Hs & _).
      exists (map responseTo done). rewrite Hs, Hsent. split; [reflexivity|].
      intros r Hr. apply list_elem_of_fmap in Hr as (fc & -> & Hfc).
      assert (Hin : fc ∈ filter (fun fc => fc_name fc = "setPoseIndex") calls).
      { destruct Hpre as [k ->]. apply elem_of_app. left. exact Hfc. }
      apply list_elem_of_filter in Hin as [Hname Hin].
      split; [exact Hname|]. exists calls, fc. repeat split; assumption.
    + exists []. rewrite app_nil_r. split; [exact Hsent|]. intros r Hr.
      apply elem_of_nil in Hr. contradiction.
    + exists []. rewrite app_nil_r. split; [exact Hsent|]. intros r Hr.
      apply elem_of_nil in Hr. contradiction.
  - intros now msg calls st Htc Hall.
    assert (Hnone : filter (fun fc => fc_name fc = "setPoseIndex") calls = []).
    { clear Htc. induction Hall as [|fc calls Hfc _ IH]; [reflexivity|].
      rewrite filter_cons_False by exact Hfc. exact IH. }
    assert (Hd : forall st1, dispatch msg st1 = (st1, inr tt)).
    { intros st1. unfold dispatch. rewrite Htc. cbn.
      rewrite for_of_filter, Hnone. reflexivity. }
    split.
    + unfold onMessage, bind.
      pose proof (playAudio_navigation now msg st) as Hnav.
      destruct (playAudio now msg st) as [st1 [e|[]]]; cbn [fst] in *; [exact Hnav|].
      rewrite Hd. exact Hnav.
    + intros Ht. rewrite (onMessage_silent now msg st Ht). apply Hd.
Qed.

(** ** The pose index *)

Lemma is_integerb_inject_Z (z : Z) : JsNum.is_integerb (inject_Z z) = true.
Proof. unfold JsNum.is_integerb. cbn. rewrite Z.mod_1_r. reflexivity. Qed.

Lemma is_integerb_shift (q : Q) (k : Z) :
  JsNum.is_integerb q = true -> JsNum.is_integerb (q + inject_Z k) = true.
Proof.
  unfold JsNum.is_integerb. destruct q as [n d]. cbn.
  rewrite !Z.eqb_eq. intros Hn.
  rewrite Pos.mul_1_r, Z.mul_1_r.
  rewrite Z.add_mod, Hn, Z.mod_mul by lia. reflexivity.
Qed.

Lemma Qmin_cases (a b : Q) : Qmin a b = a \/ Qmin a b = b.
Proof. unfold Qmin, GenericMinMax.gmin. destruct (a ?= b)%Q; auto. Qed.

Lemma poseCount_pos : poses sequence <> [] -> (1 <= poseCount)%Q.
Proof.
  intros Hne. unfold poseCount. destruct (poses sequence) as [|p ps]; [contradiction|].
  cbn [length]. change 1%Q with (inject_Z 1). rewrite <- Zle_Qle. lia.
Qed.

Lemma poseIndexInBounds_same (st st' : SessionState) :
  currentPoseIndex st' = currentPoseIndex st ->
  poseIndexInBounds st -> poseIndexInBounds st'.
Proof. unfold poseIndexInBounds. intros ->. trivial. Qed.

Lemma onPrevClick_bounds (st : SessionState) :
  poses sequence <> [] -> poseIndexInBounds st -> poseIndexInBounds (onPrevClick st).
Proof.
  intros Hne. apply poseCount_pos in Hne.
  unfold poseIndexInBounds, onPrevClick. cbn.
  destruct (currentPoseIndex st) as [| | |q]; try contradiction.
  intros (Hint & H0 & Hlt). cbn.
  pose proof (is_integerb_shift q (-1) Hint) as Hint'.
  change (inject_Z (-1)) with (-1)%Q in Hint'.
  split; [destruct (Qmax_cases 0 (q + -1)) as [-> | ->]; [reflexivity|exact Hint']|].
  destruct (Q.max_spec 0 (q + -1)) as [[? Hm]|[? Hm]]; rewrite Hm; split; lra.
Qed.

Lemma onNextClick_bounds (st : SessionState) :
  poses sequence <> [] -> poseIndexInBounds st -> poseIndexInBounds (onNextClick st).
Proof.
  intros Hne. apply poseCount_pos in Hne.
  unfold poseIndexInBounds, onNextClick. cbn.
  destruct (currentPoseIndex st) as [| | |q]; try contradiction.
  intros (Hint & H0 & Hlt). cbn.
  pose proof (is_integerb_shift q 1 Hint) as Hint'.
  change (inject_Z 1) with 1%Q in Hint'.
  assert (Hlast : JsNum.is_integerb (poseCount - 1) = true).
  { unfold poseCount. apply (is_integerb_shift _ (-1)), is_integerb_inject_Z. }
  split; [destruct (Qmin_cases (poseCount - 1) (q + 1)) as [-> | ->]; assumption|].
  destruct (Q.min_spec (poseCount - 1) (q + 1)) as [[? Hm]|[? Hm]]; rewrite Hm; split; lra.
Qed.

Lemma handleFunctionCall_bounds (fc : FunctionCall) (st : SessionState) :
  wholeCall fc = true ->
  poseIndexInBounds st -> poseIndexInBounds (fst (handleFunctionCall fc st)).
Proof.
  intros Hwhole Hst. unfold wholeCall in Hwhole.
  destruct (String.eqb_spec (fc_name fc) "setPoseIndex") as [Hname|Hname].
  - destruct (fc_args fc) as [args|] eqn:Hargs.
    + rewrite (handleFunctionCall_answered fc args st Hname Hargs). cbn [fst].
      destruct (accepted (requestedIndex args)) eqn:Hacc.
      * pose proof Hacc as Hacc'.
        apply accepted_Fin in Hacc as (q & Hq & H0 & Hlt).
        unfold poseIndexInBounds. cbn. rewrite Hq in *.
        rewrite Hacc', orb_false_r in Hwhole. repeat split; assumption.
      * exact Hst.
    + rewrite (handleFunctionCall_no_args fc st Hname Hargs). exact Hst.
  - rewrite (handleFunctionCall_other fc st Hname). exact Hst.
Qed.

Lemma for_of_bounds (calls : list FunctionCall) (st : SessionState) :
  forallb wholeCall calls = true ->
  poseIndexInBounds st -> poseIndexInBounds (fst (for_of calls handleFunctionCall st)).
Proof.
  revert st. induction calls as [|fc calls IH]; intros st Hall Hst; [exact Hst|].
  cbn in Hall. apply andb_prop in Hall as [Hfc Hall].
  cbn [for_of]. unfold bind.
  pose proof (handleFunctionCall_bounds fc st Hfc Hst) as Hst'.
  destruct (handleFunctionCall fc st) as [st' [e|[]]]; [exact Hst'|].
  apply IH; assumption.
Qed.

Lemma step_bounds (st : SessionState) (ev : Event) :
  poses sequence <> [] -> wholeEvent ev = true ->
  poseIndexInBounds st -> poseIndexInBounds (step st ev).
Proof.
  intros Hne Hev Hst. destruct ev as [now msg|source| |]; cbn [step].
  - unfold onMessage, bind.
    destruct (playAudio_navigation now msg st) as [Hidx _].
    destruct (playAudio now msg st) as [st1 [e|[]]]; cbn [fst] in *.
    { eapply poseIndexInBounds_same; eassumption. }
    assert (Hst1 : poseIndexInBounds st1) by (eapply poseIndexInBounds_same; eassumption).
    unfold dispatch. cbn in Hev.
    destruct (toolCall msg) as [[[calls|]]|]; cbn; try exact Hst1.
    apply for_of_bounds; assumption.
  - eapply poseIndexInBounds_same; [|exact Hst].
    unfold onEnded. cbn. destruct (size _ =? 0)%nat; reflexivity.
  - apply onPrevClick_bounds; assumption.
  - apply onNextClick_bounds; assumption.
Qed.

Lemma poseIndexInRange_same (st st' : SessionState) :
  currentPoseIndex st' = currentPoseIndex st ->
  poseIndexInRange st -> poseIndexInRange st'.
Proof. unfold poseIndexInRange. intros ->. trivial. Qed.

Lemma onPrevClick_range (st : SessionState) :
  poses sequence <> [] -> poseIndexInRange st -> poseIndexInRange (onPrevClick st).
Proof.
  intros Hne. apply poseCount_pos in Hne.
  unfold poseIndexInRange, onPrevClick. cbn.
  destruct (currentPoseIndex st) as [| | |q]; try contradiction.
  intros (H0 & Hlt). cbn.
  destruct (Q.max_spec 0 (q + -1)) as [[? Hm]|[? Hm]]; rewrite Hm; split; lra.
Qed.

Lemma onNextClick_range (st : SessionState) :
  poses sequence <> [] -> poseIndexInRange st -> poseIndexInRange (onNextClick st).
Proof.
  intros Hne. apply poseCount_pos in Hne.
  unfold poseIndexInRange, onNextClick. cbn.
  destruct (currentPoseIndex st) as [| | |q]; try contradiction.
  intros (H0 & Hlt). cbn.
  destruct (Q.min_spec (poseCount - 1) (q + 1)) as [[? Hm]|[? Hm]]; rewrite Hm; split; lra.
Qed.

Lemma handleFunctionCall_range (fc : FunctionCall) (st : SessionState) :
  poseIndexInRange st -> poseIndexInRange (fst (handleFunctionCall fc st)).
Proof.
  intros Hst.
  destruct (String.eqb_spec (fc_name fc) "setPoseIndex") as [Hname|Hname].
  - destruct (fc_args fc) as [args|] eqn:Hargs.
    + rewrite (handleFunctionCall_answered fc args st Hname Hargs). cbn [fst].
      destruct (accepted (requestedIndex args)) eqn:Hacc.
      * apply accepted_Fin in Hacc as (q & Hq & H0 & Hlt).
        unfold poseIndexInRange. cbn. rewrite Hq. split; assumption.
      * exact Hst.
    + rewrite (handleFunctionCall_no_args fc st Hname Hargs). exact Hst.
  - rewrite (handleFunctionCall_other fc st Hname). exact Hst.
Qed.

Lemma for_of_range (calls : list FunctionCall) (st : SessionState) :
  poseIndexInRange st -> poseIndexInRange (fst (for_of calls handleFunctionCall st)).
Proof.
  revert st. induction calls as [|fc calls IH]; intros st Hst; [exact Hst|].
  cbn [for_of]. unfold bind.
  pose proof (handleFunctionCall_range fc st Hst) as Hst'.
  destruct (handleFunctionCall fc st) as [st' [e|[]]]; [exact Hst'|].
  apply IH; assumption.
Qed.

Lemma step_range (st : SessionState) (ev : Event) :
  poses sequence <> [] -> poseIndexInRange st -> poseIndexInRange (step st ev).
Proof.
  intros Hne Hst. destruct ev as [now msg|source| |]; cbn [step].
  - unfold onMessage, bind.
    destruct (playAudio_navigation now msg st) as [Hidx _].
    destruct (playAudio now msg st) as [st1 [e|[]]]; cbn [fst] in *.
    { eapply poseIndexInRange_same; eassumption. }
    assert (Hst1 : poseIndexInRange st1) by (eapply poseIndexInRange_same; eassumption).
    unfold dispatch.
    destruct (toolCall msg) as [[[calls|]]|]; cbn; try exact Hst1.
    apply for_of_range; assumption.
  - eapply poseIndexInRange_same; [|exact Hst].
    unfold onEnded. cbn. destruct (size _ =? 0)%nat; reflexivity.
  - apply onPrevClick_range; assumption.
  - apply onNextClick_range; assumption.
Qed.

(** C3, amended. Over a sequence with at least one pose, the pose
    index of a session satisfies [0 <= index < poseCount] in every state
    the session reaches: at its start, after every Prev and Next, after
    every ended playback and after every message, whatever its tool
    calls ask for. *)
Theorem pose_index_within_bounds (evs : list Event) :
  poses sequence <> [] ->
  poseIndexInRange (run evs).
Proof.
  intros Hne. induction evs as [|ev evs IH] using rev_ind.
  - unfold poseIndexInRange. cbn. apply poseCount_pos in Hne. split; lra.
  - rewrite run_snoc. apply step_range; auto.
Qed.

(** The index is a whole number as well, as long as no accepted
    [setPoseIndex] call of a message carries a fractional index. *)
Lemma pose_index_whole (evs : list Event) :
  poses sequence <> [] ->
  forallb wholeEvent evs = true ->
  poseIndexInBounds (run evs).
Proof.
  intros Hne. induction evs as [|ev evs IH] using rev_ind; intros Hall.
  - unfold poseIndexInBounds. cbn. apply poseCount_pos in Hne.
    split; [reflexivity|]. split; lra.
  - rewrite forallb_app in Hall. apply andb_prop in Hall as [Hevs Hev].
    cbn in Hev. rewrite andb_true_r in Hev.
    rewrite run_snoc. apply step_bounds; auto.
Qed.

(** ** The speaking flag *)

Lemma step_speaking (st : SessionState) (ev : Event) :
  decodable ev = true ->
  (isSpeaking st = true <-> sources st <> ∅) ->
  (isSpeaking (step st ev) = true <-> sources (step st ev) <> ∅).
Proof.
  intros Hev Hst. destruct ev as [now msg|source| |]; cbn [step]; try exact Hst.
  - cbn in Hev. destruct (truthy (audioData msg)) eqn:Ht.
    + destruct (decodePayload (payload msg)) as [e|b] eqn:Hd; [discriminate|].
      rewrite (onMessage_playable now msg b st (conj Ht Hd)).
      destruct (dispatch_schedule msg (scheduledAt now b st)) as (-> & _ & -> & _).
      cbn. split; [intros _|reflexivity].
      rewrite union_comm_L. apply union_positive_l_alt_L, non_empty_singleton_L.
    + rewrite (onMessage_silent now msg st Ht).
      destruct (dispatch_schedule msg st) as (-> & _ & -> & _). exact Hst.
  - unfold onEnded. cbn.
    destruct (size (sources st ∖ {[source]}) =? 0)%nat eqn:Hsz; cbn.
    + apply Nat.eqb_eq, size_empty_iff in Hsz.
      split; [discriminate|]. intros Hne. exfalso. apply Hne. apply leibniz_equiv, Hsz.
    + apply Nat.eqb_neq in Hsz. rewrite Hst.
      split; intros _.
      * intros Hemp. apply Hsz. rewrite Hemp. apply size_empty.
      * intros Hemp. apply Hsz. rewrite Hemp, empty_difference_L. apply size_empty.
Qed.

(** X11. As long as every audio payload decodes, the speaking flag
    tells, in every state a session reaches, whether the pending set is
    non-empty. *)
Lemma speaking_iff_pending (evs : list Event) :
  forallb decodable evs = true ->
  (isSpeaking (run evs) = true <-> sources (run evs) <> ∅).
Proof.
  induction evs as [|ev evs IH] using rev_ind; intros Hall.
  - cbn. split; [discriminate|]. intros H. contradiction.
  - rewrite forallb_app in Hall. apply andb_prop in Hall as [Hevs Hev].
    cbn in Hev. rewrite andb_true_r in Hev.
    rewrite run_snoc. apply step_speaking; auto.
Qed.

(** ** More on the playback scheduler *)

(** X5. The marker [nextStartTime] starts at 0 and never moves back,
    whatever the event; after any message with a truthy audio payload,
    decodable or not, it is at or past the clock reading of that
    message. *)
Theorem marker_never_moves_back (evs : list Event) (ev : Event) :
  (0 <= nextStartTime (run evs))%Q /\
  (nextStartTime (run evs) <= nextStartTime (run (evs ++ [ev])))%Q /\
  (forall (now : double) (msg : LiveServerMessage),
     ev = Message now msg -> truthy (audioData msg) = true ->
     (now <= nextStartTime (run (evs ++ [ev])))%Q).
Proof.
  pose proof (run_soundTimes evs) as Hsound.
  split; [exact (proj1 Hsound)|]. split.
  - rewrite run_snoc. apply step_marker, Hsound.
  - intros now msg -> Ht. rewrite run_snoc. cbn [step].
    destruct (decodePayload (payload msg)) as [e|b] eqn:Hd.
    + rewrite (onMessage_malformed now msg e _ (conj Ht Hd)). cbn. apply Q.le_max_r.
    + rewrite (onMessage_playable now msg b _ (conj Ht Hd)).
      destruct (dispatch_schedule msg (scheduledAt now b (run evs))) as (_ & -> & _).
      cbn. pose proof (Q.le_max_r (nextStartTime (run evs)) now) as Hr.
      pose proof (Q.le_max_l (nextStartTime (run evs)) now) as Hl.
      destruct Hsound as (H0 & Hrep & _).
      pose proof (decodePayload_duration _ _ Hd) as Hdur.
      pose proof (add_ge (Qmax (nextStartTime (run evs)) now) (duration b)
                    ltac:(lra) (Qmax_representable _ now Hrep)
                    (Qlt_le_weak _ _ (duration_positive b Hdur))).
      lra.
Qed.

Lemma step_nodesConsistent (st : SessionState) (ev : Event) :
  nodesConsistent st -> nodesConsistent (step st ev).
Proof.
  intros [Hn Hs]. destruct ev as [now msg|source| |]; cbn [step].
  - destruct (truthy (audioData msg)) eqn:Ht.
    + destruct (decodePayload (payload msg)) as [e|b] eqn:Hd.
      * rewrite (onMessage_malformed now msg e st (conj Ht Hd)). split; assumption.
      * rewrite (onMessage_playable now msg b st (conj Ht Hd)).
        destruct (dispatch_schedule msg (scheduledAt now b st)) as (_ & _ & Hsrc & Hc & Hst).
        split.
        -- rewrite Hst, Hc. unfold scheduledAt. cbn [started created].
           rewrite map_app, Hn, seq_S. reflexivity.
        -- intros n. rewrite Hsrc, Hc. cbn. intros Hin.
           apply elem_of_union in Hin as [Hin|Hin].
           ++ specialize (Hs n Hin). lia.
           ++ apply elem_of_singleton in Hin as ->. lia.
    + rewrite (onMessage_silent now msg st Ht).
      destruct (dispatch_schedule msg st) as (_ & _ & Hsrc & Hc & Hst).
      split; [rewrite Hst, Hc; exact Hn|]. intros n. rewrite Hsrc, Hc. apply Hs.
  - unfold onEnded. cbn.
    assert (Hsub : forall n, n ∈ sources st ∖ {[source]} -> (n < created st)%nat).
    { intros n Hin. apply elem_of_difference in Hin as [Hin _]. apply Hs, Hin. }
    destruct (size _ =? 0)%nat; split; cbn; assumption.
  - split; assumption.
  - split; assumption.
Qed.

(** X6. In every state a session reaches, the source nodes started are
    exactly the nodes created on the output context, each started once
    and in creation order, and every node of the pending set is one of
    them: no node is started twice, and none is pending that was not
    started. *)
Theorem every_node_started_once (evs : list Event) :
  map node (started (run evs)) = seq 0 (created (run evs)) /\
  NoDup (map node (started (run evs))) /\
  (forall n : nat, n ∈ sources (run evs) -> n ∈ map node (started (run evs))).
Proof.
  assert (Hinv : nodesConsistent (run evs)).
  { induction evs as [|ev evs IH] using rev_ind.
    - split; [reflexivity|]. intros n Hn. cbn in Hn. apply elem_of_empty in Hn. contradiction.
    - rewrite run_snoc. apply step_nodesConsistent, IH. }
  destruct Hinv as [Hn Hs]. split; [exact Hn|]. split.
  - rewrite Hn. apply NoDup_seq.
  - intros n Hin. rewrite Hn. apply elem_of_seq. specialize (Hs n Hin). lia.
Qed.

Lemma burst_from (t0 : Q) (chunks : list (double * LiveServerMessage * AudioBuffer)) :
  forall st : SessionState,
    soundTimes st ->
    (t0 <= nextStartTime st)%Q ->
    Forall (fun c : double * LiveServerMessage * AudioBuffer =>
              playable c.1.2 c.2 /\ (c.1.1 <= t0)%Q) chunks ->
    exists units : list Scheduled,
      started (fold_left step (map (fun c => Message c.1.1 c.1.2) chunks) st) =
        started st ++ units /\
      map buffer units = map snd chunks /\
      backToBack (nextStartTime st) units /\
      nextStartTime (fold_left step (map (fun c => Message c.1.1 c.1.2) chunks) st) =
        runningSum (nextStartTime st) (map snd chunks).
Proof.
  induction chunks as [|[[now msg] b] chunks IH]; intros st Hsound Ht0 Hall.
  - exists []. cbn. rewrite app_nil_r. repeat split.
  - apply Forall_cons in Hall as [[Hp Hnow] Hall]. cbn in Hp, Hnow.
    cbn [map fold_left fst snd].
    pose proof (step_soundTimes st (Message now msg) Hsound) as Hsound1.
    pose proof (step_marker st (Message now msg) Hsound) as Hle.
    cbn [step] in *.
    rewrite (onMessage_playable now msg b st Hp) in *.
    destruct (dispatch_schedule msg (scheduledAt now b st)) as (_ & Hn & _ & _ & Hs).
    set (st1 := fst (dispatch msg (scheduledAt now b st))) in *.
    assert (Hmax : Qmax (nextStartTime st) now = nextStartTime st).
    { apply Qmax_left. lra. }
    cbn in Hn, Hs. rewrite Hmax in Hn, Hs.
    destruct (IH st1 Hsound1) as (units & Hst & Hb & Hbb & Hnext); [lra|exact Hall|].
    exists (mkScheduled (created st) (nextStartTime st) b :: units).
    split; [|split; [|split]].
    + rewrite Hst, Hs, <- app_assoc. reflexivity.
    + cbn. rewrite Hb. reflexivity.
    + cbn. split; [reflexivity|]. unfold storedEnd; cbn. rewrite <- Hn. exact Hbb.
    + rewrite Hnext, Hn. reflexivity.
Qed.

(** X7. A burst of playable chunks in a state a session has reached,
    the first arriving at any time and every later one while the clock
    has not passed the start of the first: all are started, in arrival
    order, the first at [max(nextStartTime, currentTime)] and each later
    one exactly at the end stored for the one before it; the marker
    ends at the durations of the burst added one by one, in doubles, to
    the start of the first. *)
Theorem burst_plays_back_to_back
    (evs : list Event) (now0 : double) (msg0 : LiveServerMessage) (b0 : AudioBuffer)
    (chunks : list (double * LiveServerMessage * AudioBuffer)) :
  playable msg0 b0 ->
  Forall (fun c : double * LiveServerMessage * AudioBuffer =>
            playable c.1.2 c.2 /\
            (c.1.1 <= Qmax (nextStartTime (run evs)) now0)%Q) chunks ->
  exists units : list Scheduled,
    started (fold_left step (Message now0 msg0 :: map (fun c => Message c.1.1 c.1.2) chunks)
               (run evs)) =
      started (run evs) ++ units /\
    map buffer units = b0 :: map snd chunks /\
    backToBack (Qmax (nextStartTime (run evs)) now0) units /\
    nextStartTime
      (fold_left step (Message now0 msg0 :: map (fun c => Message c.1.1 c.1.2) chunks)
         (run evs)) =
      runningSum (Qmax (nextStartTime (run evs)) now0) (b0 :: map snd chunks).
Proof.
  intros Hp Hall. cbn [fold_left].
  pose proof (run_soundTimes evs) as Hsound.
  pose proof (step_soundTimes _ (Message now0 msg0) Hsound) as Hsound1.
  cbn [step] in *.
  rewrite (onMessage_playable now0 msg0 b0 _ Hp) in *.
  destruct (dispatch_schedule msg0 (scheduledAt now0 b0 (run evs))) as (_ & Hn & _ & _ & Hs).
  set (st1 := fst (dispatch msg0 (scheduledAt now0 b0 (run evs)))) in *.
  cbn in Hn, Hs.
  pose proof (decodePayload_duration _ _ (proj2 Hp)) as Hd.
  assert (Hge : (Qmax (nextStartTime (run evs)) now0 <= nextStartTime st1)%Q).
  { rewrite Hn. destruct Hsound as (H0 & Hrep & _).
    pose proof (Q.le_max_l (nextStartTime (run evs)) now0).
    apply add_ge; [lra|apply Qmax_representable, Hrep|].
    apply Qlt_le_weak, duration_positive, Hd. }
  destruct (burst_from (Qmax (nextStartTime (run evs)) now0) chunks st1 Hsound1 Hge Hall)
    as (units & Hst & Hb & Hbb & Hnext).
  exists (mkScheduled (created (run evs)) (Qmax (nextStartTime (run evs)) now0) b0 :: units).
  split; [|split; [|split]].
  - rewrite Hst, Hs, <- app_assoc. reflexivity.
  - cbn. rewrite Hb. reflexivity.
  - cbn. split; [reflexivity|]. unfold storedEnd; cbn. rewrite <- Hn. exact Hbb.
  - rewrite Hnext, Hn. reflexivity.
Qed.

(** ** More on the tool-call dispatcher *)

Lemma for_of_completes (calls : list FunctionCall) (st : SessionState) :
  Forall (fun fc => fc_name fc = "setPoseIndex" -> is_Some (fc_args fc)) calls ->
  snd (for_of calls handleFunctionCall st) = inr tt.
Proof.
  intros Hall. revert st. induction Hall as [|fc calls Hfc _ IH]; intros st; [reflexivity|].
  cbn [for_of]. unfold bind.
  destruct (decide (fc_name fc = "setPoseIndex")) as [Hname|Hname].
  - destruct (Hfc Hname) as [args Hargs].
    rewrite (handleFunctionCall_answered fc args st Hname Hargs). apply IH.
  - rewrite (handleFunctionCall_other fc st Hname). apply IH.
Qed.

Lemma for_of_app (pre post : list FunctionCall) (st : SessionState) :
  for_of (pre ++ post) handleFunctionCall st =
  match for_of pre handleFunctionCall st with
  | (st', inr _) => for_of post handleFunctionCall st'
  | (st', inl e) => (st', inl e)
  end.
Proof.
  revert st. induction pre as [|fc pre IH]; intros st; [reflexivity|].
  cbn [app for_of]. unfold bind.
  destruct (handleFunctionCall fc st) as [st' [e|[]]]; [reflexivity|apply IH].
Qed.

(** X8. A message whose audio half does not throw and whose
    [setPoseIndex] calls all carry an argument object is handled to the
    end, and exactly one response is sent per [setPoseIndex] call, in
    the order of the calls, each under the identifier of its call and
    with the verdict of the bounds check on that call's index. *)
Theorem every_call_answered
    (now : double) (msg : LiveServerMessage) (calls : list FunctionCall) (st : SessionState) :
  (forall e : JsError, ~ malformed msg e) ->
  toolCall msg = Some (mkToolCall (Some calls)) ->
  Forall (fun fc => fc_name fc = "setPoseIndex" -> is_Some (fc_args fc)) calls ->
  snd (onMessage now msg st) = inr tt /\
  sent (fst (onMessage now msg st)) =
    sent st ++ map responseTo (filter (fun fc => fc_name fc = "setPoseIndex") calls).
Proof.
  intros Hok Htc Hall.
  assert (Hd : forall st1 : SessionState,
             snd (dispatch msg st1) = inr tt /\
             sent (fst (dispatch msg st1)) =
               sent st1 ++ map responseTo (filter (fun fc => fc_name fc = "setPoseIndex") calls)).
  { intros st1. unfold dispatch. rewrite Htc. cbn [functionCalls].
    pose proof (for_of_completes calls st1 Hall) as Hc.
    destruct (for_of_sent calls st1) as (done & _ & Hs & Hfull).
    rewrite <- (Hfull Hc). split; [exact Hc|exact Hs]. }
  destruct (truthy (audioData msg)) eqn:Ht.
  - destruct (decodePayload (payload msg)) as [e|b] eqn:Hp.
    + exfalso. apply (Hok e). split; assumption.
    + rewrite (onMessage_playable now msg b st (conj Ht Hp)).
      destruct (Hd (scheduledAt now b st)) as [Hdone Hsent]. split; [exact Hdone|exact Hsent].
  - rewrite (onMessage_silent now msg st Ht). apply Hd.
Qed.

(** X9. A [setPoseIndex] call without an argument object ends the
    handler with a [TypeError]: the calls before it are answered as
    usual, it and every call after it get no response, and the pose
    index is what the calls before it made it. *)
Theorem call_without_args_stops_dispatch
    (pre post : list FunctionCall) (fc : FunctionCall) (st : SessionState) :
  Forall (fun c => fc_name c = "setPoseIndex" -> is_Some (fc_args c)) pre ->
  fc_name fc = "setPoseIndex" ->
  fc_args fc = None ->
  for_of (pre ++ fc :: post) handleFunctionCall st =
    (fst (for_of pre handleFunctionCall st), inl TypeError) /\
  sent (fst (for_of (pre ++ fc :: post) handleFunctionCall st)) =
    sent st ++ map responseTo (filter (fun c => fc_name c = "setPoseIndex") pre).
Proof.
  intros Hpre Hname Hargs.
  pose proof (for_of_completes pre st Hpre) as Hc.
  destruct (for_of_sent pre st) as (done & _ & Hs & Hfull).
  rewrite for_of_app.
  destruct (for_of pre handleFunctionCall st) as [st' [e|[]]] eqn:Hrun; [discriminate|].
  cbn [for_of]. unfold bind. rewrite (handleFunctionCall_no_args fc st' Hname Hargs).
  cbn [fst snd] in *. split; [reflexivity|]. rewrite Hs, (Hfull eq_refl). reflexivity.
Qed.

(** ** More on manual navigation *)

Lemma onNextClick_indexIs (st : SessionState) (i : Z) :
  indexIs st i ->
  indexIs (onNextClick st) (Z.min (Z.of_nat (length (poses sequence)) - 1) (i + 1)).
Proof.
  intros (q & Hidx & Hq). unfold indexIs, onNextClick. cbn. rewrite Hidx. cbn.
  eexists. split; [reflexivity|].
  assert (Ha : (inject_Z (i + 1) == q + 1)%Q) by (rewrite inject_Z_plus, Hq; reflexivity).
  assert (Hb : (inject_Z (Z.of_nat (length (poses sequence)) - 1) == poseCount - 1)%Q).
  { unfold poseCount, Z.sub. rewrite inject_Z_plus. reflexivity. }
  destruct (Z.min_spec (Z.of_nat (length (poses sequence)) - 1) (i + 1)) as [[Hlt ->]|[Hle ->]].
  - rewrite Zlt_Qlt in Hlt.
    destruct (Q.min_spec (poseCount - 1) (q + 1)) as [[? ->]|[? ->]]; lra.
  - rewrite Zle_Qle in Hle.
    destruct (Q.min_spec (poseCount - 1) (q + 1)) as [[? ->]|[? ->]]; lra.
Qed.

Lemma onPrevClick_indexIs (st : SessionState) (i : Z) :
  indexIs st i -> indexIs (onPrevClick st) (Z.max 0 (i - 1)).
Proof.
  intros (q & Hidx & Hq). unfold indexIs, onPrevClick. cbn. rewrite Hidx. cbn.
  eexists. split; [reflexivity|].
  assert (Ha : (inject_Z (i - 1) == q + -1)%Q).
  { unfold Z.sub. rewrite inject_Z_plus, Hq. reflexivity. }
  change 0%Q with (inject_Z 0) in *.
  destruct (Z.max_spec 0 (i - 1)) as [[Hlt ->]|[Hle ->]].
  - rewrite Zlt_Qlt in Hlt.
    destruct (Q.max_spec (inject_Z 0) (q + -1)) as [[? ->]|[? ->]]; lra.
  - rewrite Zle_Qle in Hle.
    destruct (Q.max_spec (inject_Z 0) (q + -1)) as [[? ->]|[? ->]]; lra.
Qed.

(** X10. From pose [i] of a sequence, pressing Next [k] times shows
    pose [min(i + k, poseCount - 1)] and pressing Prev [k] times shows
    pose [max(i - k, 0)]: the buttons move one pose at a time and stop
    at the last and at the first pose. *)
Theorem clicks_move_and_clamp (k : nat) (st : SessionState) (i : Z) :
  0 <= i < Z.of_nat (length (poses sequence)) ->
  indexIs st i ->
  indexIs (fold_left step (repeat NextClick k) st)
    (Z.min (Z.of_nat (length (poses sequence)) - 1) (i + Z.of_nat k)) /\
  indexIs (fold_left step (repeat PrevClick k) st) (Z.max 0 (i - Z.of_nat k)).
Proof.
  intros Hi Hst. split.
  - revert st i Hi Hst. induction k as [|k IH]; intros st i Hi Hst.
    + cbn [repeat fold_left]. replace (Z.min _ _) with i by lia. exact Hst.
    + cbn [repeat fold_left step].
      pose proof (onNextClick_indexIs st i Hst) as Hnext.
      apply IH in Hnext; [|lia].
      replace (Z.min (Z.of_nat (length (poses sequence)) - 1) (i + Z.of_nat (S k)))
        with (Z.min (Z.of_nat (length (poses sequence)) - 1)
                (Z.min (Z.of_nat (length (poses sequence)) - 1) (i + 1) + Z.of_nat k))
        by lia.
      exact Hnext.
  - revert st i Hi Hst. induction k as [|k IH]; intros st i Hi Hst.
    + cbn [repeat fold_left]. replace (Z.max _ _) with i by lia. exact Hst.
    + cbn [repeat fold_left step].
      pose proof (onPrevClick_indexIs st i Hst) as Hprev.
      apply IH in Hprev; [|lia].
      replace (Z.max 0 (i - Z.of_nat (S k)))
        with (Z.max 0 (Z.max 0 (i - 1) - Z.of_nat k)) by lia.
      exact Hprev.
Qed.

(** ** Audio outside the first part *)

(** X19. Only the first part of a model turn is looked at: when that
    part carries no inline data, or an empty payload, the message
    starts nothing, raises no flag and does not move the marker,
    whatever audio its other parts carry; only its tool calls are
    handled. *)
Theorem audio_beyond_first_part_ignored
    (now : double) (msg : LiveServerMessage) (sc : ServerContent) (mt : Content)
    (p : Part) (others : list Part) (st : SessionState) :
  serverContent msg = Some sc ->
  modelTurn sc = Some mt ->
  parts mt = Some (p :: others) ->
  inlineData p = None \/ inlineData p = Some (mkInlineData None)
    \/ inlineData p = Some (mkInlineData (Some "")) ->
  onMessage now msg st = dispatch msg st /\
  sameSchedule st (fst (onMessage now msg st)).
Proof.
  intros Hsc Hmt Hps Hp.
  assert (Ht : truthy (audioData msg) = false).
  { unfold audioData. rewrite Hsc. cbn. rewrite Hmt. cbn. rewrite Hps. cbn.
    destruct Hp as [-> | [-> | ->]]; reflexivity. }
  rewrite (onMessage_silent now msg st Ht). split; [reflexivity|apply dispatch_schedule].
Qed.

End Session.

(** ** The audio encoder *)

Lemma ToInt16_range (n : number) : -32768 <= JsNum.ToInt16 n <= 32767.
Proof.
  unfold JsNum.ToInt16. destruct n as [| | |q]; try lia.
  pose proof (Z.mod_pos_bound (JsNum.truncate q) 65536 ltac:(lia)) as Hm.
  destruct (32768 <=? JsNum.truncate q mod 65536) eqn:Hc; lia.
Qed.

Lemma ToInt16_small (q : Q) :
  -32768 <= JsNum.truncate q <= 32767 -> JsNum.ToInt16 (Fin q) = JsNum.truncate q.
Proof.
  intros Hr. unfold JsNum.ToInt16.
  destruct (Z_lt_le_dec (JsNum.truncate q) 0) as [Hneg|Hpos].
  - replace (JsNum.truncate q mod 65536) with (JsNum.truncate q + 65536).
    + destruct (32768 <=? JsNum.truncate q + 65536) eqn:Hc; lia.
    + apply (Z.mod_unique _ _ (-1)); lia.
  - rewrite Z.mod_small by lia.
    destruct (32768 <=? JsNum.truncate q) eqn:Hc; lia.
Qed.

(** Below full scale the encoder scales linearly: the sample times
    32768, rounded towards zero, with no wrap-around. *)
Lemma pcm_sample_below_full_scale (q : Q) :
  (-1 <= q)%Q -> (q < 1)%Q ->
  JsNum.ToInt16 (JsNum.mul_pos (Fin q) 32768) = JsNum.truncate (q * 32768) /\
  -32768 <= JsNum.truncate (q * 32768) <= 32767.
Proof.
  intros Hlo Hhi.
  assert (Hr : -32768 <= JsNum.truncate (q * 32768) <= 32767).
  { destruct q as [n d]. unfold Qle, Qlt in *. cbn in *.
    unfold JsNum.truncate. cbn. rewrite Pos.mul_1_r. split.
    - apply Z.quot_le_lower_bound; lia.
    - destruct (Z_lt_le_dec n 0) as [Hneg|Hpos].
      + assert (n * 32768 ÷ Z.pos d <= 0) by (apply Z.quot_le_upper_bound; lia). lia.
      + assert (n * 32768 ÷ Z.pos d < 32768) by (apply Z.quot_lt_upper_bound; lia). lia. }
  split; [|exact Hr]. cbn [JsNum.mul_pos]. apply ToInt16_small, Hr.
Qed.

Lemma pcm_int16_length (data : list number) : length (pcm_int16 data) = length data.
Proof. unfold pcm_int16. apply length_map. Qed.

Lemma pcm_int16_range (data : list number) (v : Z) :
  In v (pcm_int16 data) -> -32768 <= v <= 32767.
Proof.
  unfold pcm_int16. rewrite in_map_iff. intros (x & <- & _). apply ToInt16_range.
Qed.

(** C5, at a full-scale sample. The sample 1.0 is scaled to 32768,
    which the store into the 16-bit array wraps to -32768: the chunk
    sent for it holds the bytes 00 80, the most negative value, where a
    linear scaling into the 16-bit range gives the most positive one. *)
Theorem full_scale_sample_wraps :
  pcm_int16 [Fin 1] = [-32768] /\
  pcm_int16 [Fin (-1)] = [-32768] /\
  bytes_of_int16 (pcm_int16 [Fin 1]) = [0; 128] /\
  createPcmBlob [Fin 1] = mkPcmBlob "AIA=" "audio/pcm;rate=16000".
Proof. repeat split. Qed.

(** ** Teardown *)

Lemma lifeStep_inputNeverClosed (r : Resources) (ev : LifeEvent) :
  inputNeverClosed r -> inputNeverClosed (lifeStep r ev).
Proof.
  intros [Hin Href]. destruct ev as [granted|resumed| |]; cbn [lifeStep].
  - unfold initCamera. destruct granted; split; cbn; assumption.
  - unfold handleStartSession. split; cbn.
    + intros c Hc Hrate. apply elem_of_app in Hc as [Hc|Hc]; [apply Hin; assumption|].
      apply elem_of_cons in Hc as [->|Hc]; [reflexivity|].
      apply list_elem_of_singleton in Hc as ->. discriminate.
    + intros i Hi. destruct resumed; cbn in Hi.
      * injection Hi as <-. exists (mkAudioContext 24000 0). split; [|reflexivity].
        rewrite lookup_app_r by lia.
        replace (S (length (contexts r)) - length (contexts r))%nat with 1%nat by lia.
        reflexivity.
      * destruct (Href i Hi) as (c & Hc & Hrate). exists c. split; [|exact Hrate].
        apply lookup_app_l_Some, Hc.
  - split; cbn; assumption.
  - unfold cleanup. split; cbn.
    + intros c Hc Hrate. unfold release in Hc.
      destruct (audioContextRef r) as [i|] eqn:Hi; [|apply Hin; assumption].
      apply list_elem_of_lookup in Hc as [j Hj].
      destruct (decide (i = j)) as [<-|Hne].
      * destruct (Href i eq_refl) as (c0 & Hc0 & Hrate0).
        rewrite list_lookup_alter, Hc0, decide_True in Hj by reflexivity. cbn in Hj.
        assert (Hc : c = close c0) by congruence.
        rewrite Hc in Hrate. cbn in Hrate. lia.
      * rewrite list_lookup_alter_ne in Hj by exact Hne.
        apply Hin; [eapply list_elem_of_lookup_2; eassumption|exact Hrate].
    + intros i Hi. destruct (Href i Hi) as (c & Hc & Hrate).
      exists (close c). split; [|exact Hrate].
      unfold release. rewrite Hi, list_lookup_alter, Hc, decide_True by reflexivity.
      reflexivity.
Qed.

(** X12. Whatever happens to the component, a 16 kHz input context is
    never closed: [cleanup] closes only what [audioContextRef] holds,
    and that is the 24 kHz output context. *)
Lemma input_context_never_closed (evs : list LifeEvent) (c : AudioContext) :
  c ∈ contexts (lifeRun evs) -> ctx_sampleRate c = 16000 -> closes c = 0%nat.
Proof.
  assert (Hinv : inputNeverClosed (lifeRun evs)).
  { induction evs as [|ev evs IH] using rev_ind.
    - split; cbn.
      + intros c' Hc'. apply elem_of_nil in Hc'. contradiction.
      + intros i Hi. discriminate.
    - unfold lifeRun. rewrite fold_left_app. cbn [fold_left].
      apply lifeStep_inputNeverClosed, IH. }
  apply Hinv.
Qed.

(** C6, on the plain path. A session that was started and opened and
    is then unmounted: the tracks of the stream are stopped once, the
    timer is cleared once, the processor is disconnected once and the
    24 kHz output context is closed once, but the 16 kHz input context,
    which [handleStartSession] keeps in a local variable only, is
    left open. *)
Theorem teardown_leaves_input_context_open :
  streams (lifeRun [CameraReady true; StartClick true; Open; Unmount]) = [1%nat] /\
  intervals (lifeRun [CameraReady true; StartClick true; Open; Unmount]) = [1%nat] /\
  processors (lifeRun [CameraReady true; StartClick true; Open; Unmount]) = [1%nat] /\
  contexts (lifeRun [CameraReady true; StartClick true; Open; Unmount]) =
    [mkAudioContext 16000 0; mkAudioContext 24000 1].
Proof. repeat split. Qed.

(** ** The handshake *)

Lemma append_cons (x : ascii) (a b : string) : String x a +:+ b = String x (a +:+ b).
Proof. reflexivity. Qed.

Lemma append_assoc (a b c : string) : (a +:+ b) +:+ c = a +:+ b +:+ c.
Proof.
  induction a as [|x a IH]; [reflexivity|].
  rewrite !append_cons, IH. reflexivity.
Qed.

Lemma append_empty_r (a : string) : a +:+ "" = a.
Proof.
  induction a as [|x a IH]; [reflexivity|].
  rewrite append_cons, IH. reflexivity.
Qed.

Lemma join_cons (sep x y : string) (rest : list string) :
  Gemini.join sep (x :: y :: rest) = x +:+ sep +:+ Gemini.join sep (y :: rest).
Proof. reflexivity. Qed.

(** What follows a line in a joined text: nothing, or the separator
    and the rest joined. *)
Lemma join_at (sep : string) (before : list string) (l : string) (after : list string) :
  exists a : string,
    Gemini.join sep (before ++ l :: after) =
    a +:+ l +:+ match after with [] => "" | _ => sep +:+ Gemini.join sep after end.
Proof.
  induction before as [|x before [a IH]].
  - exists "". cbn [app String.append]. destruct after; cbn [Gemini.join].
    + rewrite append_empty_r. reflexivity.
    + reflexivity.
  - exists (x +:+ sep +:+ a).
    cbn [app]. destruct (before ++ l :: after) as [|y rest] eqn:Hrest.
    + destruct before; discriminate.
    + rewrite join_cons, IH, !append_assoc. reflexivity.
Qed.

Lemma join_one (sep : string) (lines : list string) (i : nat) (l : string) :
  lines !! i = Some l ->
  exists a b : string, Gemini.join sep lines = a +:+ l +:+ b.
Proof.
  intros Hi. apply list_elem_of_lookup_2, list_elem_of_split in Hi as (before & after & ->).
  destruct (join_at sep before l after) as [a Ha]. eauto.
Qed.

Lemma join_two (sep : string) (lines : list string) (i j : nat) (li lj : string) :
  (i < j)%nat -> lines !! i = Some li -> lines !! j = Some lj ->
  exists a b c : string, Gemini.join sep lines = a +:+ li +:+ b +:+ lj +:+ c.
Proof.
  intros Hij Hi Hj.
  pose proof (take_drop_middle lines i li Hi) as Hsplit.
  assert (Hj' : drop (S i) lines !! (j - S i)%nat = Some lj).
  { rewrite lookup_drop. replace (S i + (j - S i))%nat with j by lia. exact Hj. }
  pose proof (take_drop_middle _ _ _ Hj') as Hsplit'.
  rewrite <- Hsplit, <- Hsplit'.
  destruct (join_at sep (take i lines) li
              (take (j - S i) (drop (S i) lines) ++ lj :: drop (S (j - S i)) (drop (S i) lines)))
    as [a Ha].
  destruct (join_at sep (take (j - S i) (drop (S i) lines)) lj
              (drop (S (j - S i)) (drop (S i) lines))) as [b Hb].
  rewrite Ha.
  destruct (take (j - S i) (drop (S i) lines) ++ lj :: drop (S (j - S i)) (drop (S i) lines))
    as [|y rest] eqn:Hrest.
  { destruct (take (j - S i) (drop (S i) lines)); discriminate. }
  rewrite Hb. exists a, (sep +:+ b). eexists. rewrite !append_assoc. reflexivity.
Qed.

(** C9. Whenever an API key is set, the handshake is sent, and for
    every sequence it asks for audio as the only response modality,
    declares exactly one tool with exactly one function, named
    [setPoseIndex], whose only and required parameter is the integer
    [index], and carries a directive made of a fixed head, one line per
    pose, and a fixed tail: the line of the pose at position [i] is
    the decimal numeral of [i], the pose's english name and its
    modification, and the lines stand in the directive in the order
    of the sequence. *)
Theorem handshake_contents (apiKey : option string) (sequence : YogaSequence) :
  truthy apiKey = true ->
  exists params : Gemini.LiveConnectParameters,
    Gemini.connectToYogaSession apiKey sequence = inr params /\
    Gemini.responseModalities (Gemini.config params) = [Gemini.AUDIO] /\
    (exists (fd : Gemini.FunctionDeclaration) (index : Gemini.Schema),
       Gemini.tools (Gemini.config params) = [Gemini.mkTool [fd]] /\
       Gemini.fd_name fd = "setPoseIndex" /\
       Gemini.schema_properties (Gemini.parameters fd) = [("index", index)] /\
       Gemini.schema_type index = Gemini.INTEGER /\
       Gemini.schema_required (Gemini.parameters fd) = ["index"]) /\
    (exists lines : list string,
       Gemini.systemInstruction (Gemini.config params) =
         Gemini.promptHead +:+ Gemini.join Gemini.nl lines +:+ Gemini.promptTail /\
       length lines = length (poses sequence) /\
       (forall (i : nat) (p : Pose),
          poses sequence !! i = Some p ->
          lines !! i =
            Some (Gemini.index_to_string i +:+ ". " +:+ english_name p
                    +:+ ". Mod: " +:+ modification p) /\
          NilEmpty.uint_of_string (Gemini.index_to_string i) = Some (Nat.to_uint i)) /\
       (forall (i j : nat) (li lj : string),
          (i < j)%nat -> lines !! i = Some li -> lines !! j = Some lj ->
          exists a b c : string,
            Gemini.systemInstruction (Gemini.config params) =
              a +:+ li +:+ b +:+ lj +:+ c)).
Proof.
  intros Hkey. unfold Gemini.connectToYogaSession. rewrite Hkey.
  eexists. split; [reflexivity|]. cbn.
  split; [reflexivity|]. split.
  - eexists _, _. repeat split.
  - exists (Gemini.poseLines (poses sequence)). unfold Gemini.systemPrompt.
    split; [reflexivity|]. split; [apply length_imap|]. split.
    + intros i p Hp. split.
      * unfold Gemini.poseLines. rewrite list_lookup_imap, Hp. reflexivity.
      * apply NilEmpty.usu.
    + intros i j li lj Hij Hi Hj.
      destruct (join_two Gemini.nl _ i j li lj Hij Hi Hj) as (a & b & c & Hjoin).
      rewrite Hjoin. exists (Gemini.promptHead +:+ a), b, (c +:+ Gemini.promptTail).
      rewrite !append_assoc. reflexivity.
Qed.

(** ** Concrete sessions *)

(** The scenario of the specification: three poses, [setPoseIndex(1)]
    moves to pose 1 and is answered with success; [setPoseIndex(5)]
    leaves the index alone and is answered with the bounds error. *)
Example setPoseIndex_scenario :
  currentPoseIndex
    (run everyStringNaN threePoses chrome
       [Message clock_0 (toolCallMessage [setPoseIndexCall "call-1" (JNumber (Fin 1))])]) = Fin 1 /\
  sent
    (run everyStringNaN threePoses chrome
       [Message clock_0 (toolCallMessage [setPoseIndexCall "call-1" (JNumber (Fin 1))]);
        Message clock_0 (toolCallMessage [setPoseIndexCall "call-2" (JNumber (Fin 5))])]) =
    [mkFunctionResponse "call-1" "setPoseIndex" "OK, pose updated.";
     mkFunctionResponse "call-2" "setPoseIndex" "Error: Pose index out of bounds."] /\
  currentPoseIndex
    (run everyStringNaN threePoses chrome
       [Message clock_0 (toolCallMessage [setPoseIndexCall "call-1" (JNumber (Fin 1))]);
        Message clock_0 (toolCallMessage [setPoseIndexCall "call-2" (JNumber (Fin 5))])]) = Fin 1.
Proof. vm_compute. repeat split. Qed.

(** C2, at a fractional index. With three poses, a [setPoseIndex] call
    whose index is 1.5 passes the check: the pose index becomes 1.5,
    which is no position of the sequence, and the call is answered with
    success, where the index was to stay and the answer to be an
    error. *)
Theorem fractional_index_accepted :
  currentPoseIndex
    (run everyStringNaN threePoses chrome
       [Message clock_0 (toolCallMessage [setPoseIndexCall "call-1" (JNumber (Fin (3 # 2)))])])
    = Fin (3 # 2) /\
  sent
    (run everyStringNaN threePoses chrome
       [Message clock_0 (toolCallMessage [setPoseIndexCall "call-1" (JNumber (Fin (3 # 2)))])])
    = [mkFunctionResponse "call-1" "setPoseIndex" "OK, pose updated."] /\
  ~ poseIndexInBounds threePoses
      (run everyStringNaN threePoses chrome
         [Message clock_0 (toolCallMessage [setPoseIndexCall "call-1" (JNumber (Fin (3 # 2)))])]).
Proof.
  split; [reflexivity|]. split; [reflexivity|].
  intros [Hint _]. vm_compute in Hint. discriminate.
Qed.

(** A [null] index is converted to 0 and accepted as well. *)
Example null_index_accepted :
  currentPoseIndex
    (run everyStringNaN threePoses chrome
       [NextClick; NextClick; Message clock_0 (toolCallMessage [setPoseIndexCall "call-1" JNull])])
    = Fin 0 /\
  sent
    (run everyStringNaN threePoses chrome
       [NextClick; NextClick; Message clock_0 (toolCallMessage [setPoseIndexCall "call-1" JNull])])
    = [mkFunctionResponse "call-1" "setPoseIndex" "OK, pose updated."].
Proof. vm_compute. split; reflexivity. Qed.

(** A call without an argument object ends the handler: it and the
    calls after it get no response. *)
Example missing_args_unanswered :
  onMessage everyStringNaN threePoses chrome clock_0
    (toolCallMessage [mkFunctionCall "call-1" "setPoseIndex" None;
                      setPoseIndexCall "call-2" (JNumber (Fin 1))])
    initialState = (initialState, inl TypeError).
Proof. reflexivity. Qed.

(** C3 as stated fails at initialization over an empty pose list: the
    index starts at 0, and no index is below a pose count of 0. *)
Lemma empty_sequence_out_of_bounds :
  ~ poseIndexInRange noPoses (run everyStringNaN noPoses chrome []).
Proof.
  unfold poseIndexInRange. cbn. intros (_ & Hlt).
  vm_compute in Hlt. discriminate.
Qed.

(** C4, after a payload that cannot be decoded. A session that
    receives, as its first audio message, three bytes of payload: the
    flag is raised before decoding, the 16-bit view of an odd number of
    bytes throws, nothing is started or added to the pending set, and
    the flag stays raised over an empty set. *)
Theorem speaking_flag_stuck_after_decode_failure :
  snd (onMessage everyStringNaN threePoses chrome clock_0 (audioMessage "AAAA") initialState)
    = inl RangeError /\
  isSpeaking (run everyStringNaN threePoses chrome [Message clock_0 (audioMessage "AAAA")]) = true /\
  sources (run everyStringNaN threePoses chrome [Message clock_0 (audioMessage "AAAA")]) = ∅ /\
  started (run everyStringNaN threePoses chrome [Message clock_0 (audioMessage "AAAA")]) = [].
Proof. vm_compute. repeat split. Qed.

(** C1 as stated fails on three chunks of 3, 4 and 3 frames that
    arrive in a burst at clock 0: the marker after the second chunk is
    the double sum of 0.000125 and the duration of four frames, which
    lies 2^-65 seconds before the exact sum, so the third chunk starts
    before the playing time of the second is over and the two
    overlap. *)
Lemma rounded_sums_overlap :
  exists u v : Scheduled,
    started
      (run everyStringNaN threePoses chrome
         [Message clock_0 (audioMessage "AAAAAAAA");
          Message clock_0 (audioMessage "AAAAAAAAAAA=");
          Message clock_0 (audioMessage "AAAAAAAA")]) !! 1%nat = Some u /\
    started
      (run everyStringNaN threePoses chrome
         [Message clock_0 (audioMessage "AAAAAAAA");
          Message clock_0 (audioMessage "AAAAAAAAAAA=");
          Message clock_0 (audioMessage "AAAAAAAA")]) !! 2%nat = Some v /\
    when u = (1152921504606847 # 9223372036854775808)%Q /\
    when v = (336268772176997 # 1152921504606846976)%Q /\
    (finish u - when v == 2 ^ (-65))%Q /\
    ~ disjoint u v.
Proof.
  eexists _, _. split; [vm_compute; reflexivity|]. split; [vm_compute; reflexivity|].
  split; [vm_compute; reflexivity|]. split; [vm_compute; reflexivity|].
  split; [vm_compute; reflexivity|].
  intros [H|H]; vm_compute in H; apply H; reflexivity.
Qed.

(** ** The theorems at work *)

Lemma playback_schedule_witness :
  playable chrome (audioMessage "AAAAAAAA") (silence 3) /\
  started
    (run everyStringNaN threePoses chrome
       ([Message clock_0 (audioMessage "AAAAAAAA")]
          ++ [Message clock_1_1024 (audioMessage "AAAAAAAA")])) =
  started (run everyStringNaN threePoses chrome [Message clock_0 (audioMessage "AAAAAAAA")])
    ++ [mkScheduled
          (created (run everyStringNaN threePoses chrome
                      [Message clock_0 (audioMessage "AAAAAAAA")]))
          (Qmax (nextStartTime
                   (run everyStringNaN threePoses chrome
                      [Message clock_0 (audioMessage "AAAAAAAA")]))
                clock_1_1024)
          (silence 3)].
Proof.
  assert (Hp : playable chrome (audioMessage "AAAAAAAA") (silence 3)) by (split; reflexivity).
  split; [exact Hp|].
  exact (proj1 (proj2 (playback_schedule everyStringNaN threePoses chrome
                         [Message clock_0 (audioMessage "AAAAAAAA")])
                 clock_1_1024 (audioMessage "AAAAAAAA") (silence 3) Hp)).
Defined.


Lemma malformed_chunk_dropped_witness :
  malformed chrome (audioMessage "AAAA") RangeError /\
  playable chrome (audioMessage "AAAAAAAA") (silence 3) /\
  (clock_0 <= clock_1)%Q /\
  started (step everyStringNaN threePoses chrome initialState
             (Message clock_0 (audioMessage "AAAA"))) =
    started initialState /\
  exists u : Scheduled,
    started
      (step everyStringNaN threePoses chrome
         (step everyStringNaN threePoses chrome initialState
            (Message clock_0 (audioMessage "AAAA")))
         (Message clock_1 (audioMessage "AAAAAAAA"))) = started initialState ++ [u] /\
    buffer u = silence 3 /\
    (when u == Qmax (nextStartTime initialState) clock_1)%Q.
Proof.
  assert (Hm : malformed chrome (audioMessage "AAAA") RangeError) by (split; reflexivity).
  assert (Hp : playable chrome (audioMessage "AAAAAAAA") (silence 3)) by (split; reflexivity).
  assert (Hnow : (clock_0 <= clock_1)%Q) by (apply Qle_bool_iff; reflexivity).
  split; [exact Hm|]. split; [exact Hp|]. split; [exact Hnow|].
  destruct (malformed_chunk_dropped everyStringNaN threePoses chrome initialState
              clock_0 clock_1
              (audioMessage "AAAA") (audioMessage "AAAAAAAA") RangeError (silence 3)
              Hm Hp Hnow)
    as (_ & Hs & _ & _ & _ & u & Hu & Hb & Hw & _).
  split; [exact Hs|]. exists u. split; [exact Hu|]. split; [exact Hb|exact Hw].
Defined.

Lemma other_calls_ignored_witness :
  fc_name (mkFunctionCall "call-7" "getWeather" None) <> "setPoseIndex" /\
  handleFunctionCall everyStringNaN threePoses
    (mkFunctionCall "call-7" "getWeather" None) initialState = (initialState, inr tt) /\
  onMessage everyStringNaN threePoses chrome clock_0
    (toolCallMessage [mkFunctionCall "call-7" "getWeather" None]) initialState =
    (initialState, inr tt).
Proof.
  assert (Hname : fc_name (mkFunctionCall "call-7" "getWeather" None) <> "setPoseIndex")
    by discriminate.
  assert (Hall : Forall (fun fc => fc_name fc <> "setPoseIndex")
                   [mkFunctionCall "call-7" "getWeather" None])
    by (constructor; [exact Hname|constructor]).
  destruct (other_calls_ignored everyStringNaN threePoses chrome) as (Hone & _ & _ & Hmsg).
  split; [exact Hname|]. split; [exact (Hone _ initialState Hname)|].
  exact (proj2 (Hmsg clock_0 (toolCallMessage [mkFunctionCall "call-7" "getWeather" None])
                  [mkFunctionCall "call-7" "getWeather" None] initialState eq_refl Hall)
           eq_refl).
Defined.

Lemma pose_index_within_bounds_witness :
  poses threePoses <> [] /\
  poseIndexInRange threePoses
    (run everyStringNaN threePoses chrome
       [NextClick;
        Message clock_0 (toolCallMessage [setPoseIndexCall "call-1" (JNumber (Fin (15 # 2)))]);
        Message clock_0 (toolCallMessage [setPoseIndexCall "call-2" (JNumber (Fin (3 # 2)))]);
        NextClick; PrevClick; Ended 0]).
Proof.
  assert (Hne : poses threePoses <> []) by discriminate.
  split; [exact Hne|].
  exact (pose_index_within_bounds everyStringNaN threePoses chrome
           [NextClick;
            Message clock_0
              (toolCallMessage [setPoseIndexCall "call-1" (JNumber (Fin (15 # 2)))]);
            Message clock_0
              (toolCallMessage [setPoseIndexCall "call-2" (JNumber (Fin (3 # 2)))]);
            NextClick; PrevClick; Ended 0]
           Hne).
Defined.

Lemma handshake_contents_witness :
  truthy (Some "key") = true /\
  exists params : Gemini.LiveConnectParameters,
    Gemini.connectToYogaSession (Some "key") threePoses = inr params /\
    Gemini.responseModalities (Gemini.config params) = [Gemini.AUDIO].
Proof.
  split; [reflexivity|].
  destruct (handshake_contents (Some "key") threePoses eq_refl) as (params & Hc & Hm & _).
  exists params. split; [exact Hc|exact Hm].
Defined.

(** * More of the code *)

(** ** The wire format: base64 and 16-bit PCM *)

Lemma list_ind3 {A : Type} (P : list A -> Prop) :
  P [] -> (forall a, P [a]) -> (forall a b, P [a; b]) ->
  (forall a b c l, P l -> P (a :: b :: c :: l)) ->
  forall l, P l.
Proof.
  intros H0 H1 H2 H3. fix IH 1.
  intros [|a [|b [|c l]]]; [exact H0|apply H1|apply H2|apply H3, IH].
Qed.

Lemma sextet_char (k : Z) :
  0 <= k < 64 ->
  Base64.sextet_of_char (Base64.char_of_sextet k) = Some k /\
  Ascii.eqb (Base64.char_of_sextet k) Base64.pad = false /\
  Base64.is_ascii_whitespace (Base64.char_of_sextet k) = false.
Proof.
  intros Hk.
  assert (Hall :
    forallb (fun n =>
      match Base64.sextet_of_char (Base64.char_of_sextet (Z.of_nat n)) with
      | Some k' => k' =? Z.of_nat n
      | None => false
      end
      && negb (Ascii.eqb (Base64.char_of_sextet (Z.of_nat n)) Base64.pad)
      && negb (Base64.is_ascii_whitespace (Base64.char_of_sextet (Z.of_nat n))))%bool
      (seq 0 64) = true) by (vm_compute; reflexivity).
  rewrite List.forallb_forall in Hall.
  specialize (Hall (Z.to_nat k)). rewrite Z2Nat.id in Hall by lia.
  assert (Hin : In (Z.to_nat k) (seq 0 64)) by (apply in_seq; lia).
  specialize (Hall Hin).
  apply andb_prop in Hall as [Hall Hws]. apply andb_prop in Hall as [Hs Hp].
  destruct (Base64.sextet_of_char (Base64.char_of_sextet k)) as [k'|]; [|discriminate].
  apply Z.eqb_eq in Hs as ->.
  repeat split; [apply negb_true_iff, Hp|apply negb_true_iff, Hws].
Qed.

Lemma strip_padding_app (pre cs : list ascii) :
  (2 <= length cs)%nat ->
  Base64.strip_padding (pre ++ cs) = pre ++ Base64.strip_padding cs.
Proof.
  intros Hlen. unfold Base64.strip_padding. rewrite rev_app_distr.
  destruct (rev cs) as [|p1 [|p2 r]] eqn:Hrev.
  - apply (f_equal length) in Hrev. rewrite length_rev in Hrev. cbn in Hrev. lia.
  - apply (f_equal length) in Hrev. rewrite length_rev in Hrev. cbn in Hrev. lia.
  - cbn [app]. destruct (Ascii.eqb p1 Base64.pad); [|reflexivity].
    destruct (Ascii.eqb p2 Base64.pad).
    + rewrite rev_app_distr, rev_involutive. reflexivity.
    + change (p2 :: r ++ rev pre) with ((p2 :: r) ++ rev pre).
      rewrite rev_app_distr, rev_involutive. reflexivity.
Qed.

Lemma encode_length (bs : list Z) :
  length (Base64.encode bs) = (4 * ((length bs + 2) / 3))%nat.
Proof.
  induction bs as [|a|a b|a b c l IH] using list_ind3; try reflexivity.
  cbn [Base64.encode length]. rewrite IH.
  replace (S (S (S (length l))) + 2)%nat with (1 * 3 + (length l + 2))%nat by lia.
  rewrite Nat.div_add_l by lia. lia.
Qed.

Lemma strip_padding_two (x y : ascii) :
  Base64.strip_padding [x; y; Base64.pad; Base64.pad] = [x; y].
Proof. reflexivity. Qed.

Lemma strip_padding_one (x y z : ascii) :
  Ascii.eqb z Base64.pad = false ->
  Base64.strip_padding [x; y; z; Base64.pad] = [x; y; z].
Proof.
  intros Hz. unfold Base64.strip_padding. cbn [rev app].
  change (Ascii.eqb Base64.pad Base64.pad) with true. cbv iota. rewrite Hz. reflexivity.
Qed.

Lemma strip_padding_none (x y z w : ascii) :
  Ascii.eqb w Base64.pad = false ->
  Base64.strip_padding [x; y; z; w] = [x; y; z; w].
Proof.
  intros Hw. unfold Base64.strip_padding. cbn [rev app]. rewrite Hw. reflexivity.
Qed.

Lemma encode_body (bs : list Z) :
  Forall isByte bs ->
  exists ss : list Z,
    Forall2 (fun c s => Base64.sextet_of_char c = Some s)
      (Base64.strip_padding (Base64.encode bs)) ss /\
    Base64.decode ss = bs /\
    (length ss mod 4 <> 1)%nat.
Proof.
  unfold isByte.
  induction bs as [|a|a b|a b c l IH] using list_ind3; intros Hbs.
  - exists []. repeat split; [constructor|cbn; lia].
  - apply Forall_cons in Hbs as [Ha _].
    exists [a * 16 / 64; (a * 16) mod 64].
    assert (H0 : 0 <= a * 16 / 64 < 64) by (Z.div_mod_to_equations; lia).
    assert (H1 : 0 <= (a * 16) mod 64 < 64) by (Z.div_mod_to_equations; lia).
    destruct (sextet_char _ H0) as (E0 & _ & _), (sextet_char _ H1) as (E1 & _ & _).
    split; [|split].
    + cbn [Base64.encode]. rewrite strip_padding_two. repeat constructor; assumption.
    + cbn [Base64.decode]. f_equal. Z.div_mod_to_equations; lia.
    + cbn. lia.
  - apply Forall_cons in Hbs as [Ha Hbs]. apply Forall_cons in Hbs as [Hb _].
    set (n := (a * 256 + b) * 4).
    exists [n / 4096; (n / 64) mod 64; n mod 64].
    assert (H0 : 0 <= n / 4096 < 64) by (subst n; Z.div_mod_to_equations; lia).
    assert (H1 : 0 <= (n / 64) mod 64 < 64) by (subst n; Z.div_mod_to_equations; lia).
    assert (H2 : 0 <= n mod 64 < 64) by (subst n; Z.div_mod_to_equations; lia).
    destruct (sextet_char _ H0) as (E0 & _ & _), (sextet_char _ H1) as (E1 & _ & _),
      (sextet_char _ H2) as (E2 & P2 & _).
    split; [|split].
    + cbn [Base64.encode]. fold n. rewrite (strip_padding_one _ _ _ P2).
      repeat constructor; assumption.
    + cbn [Base64.decode]. subst n. f_equal; [|f_equal]; Z.div_mod_to_equations; lia.
    + cbn. lia.
  - apply Forall_cons in Hbs as [Ha Hbs]. apply Forall_cons in Hbs as [Hb Hbs].
    apply Forall_cons in Hbs as [Hc Hl].
    destruct (IH Hl) as (ss & HF & Hd & Hlen).
    set (n := a * 65536 + b * 256 + c).
    exists (n / 262144 :: (n / 4096) mod 64 :: (n / 64) mod 64 :: n mod 64 :: ss).
    assert (H0 : 0 <= n / 262144 < 64) by (subst n; Z.div_mod_to_equations; lia).
    assert (H1 : 0 <= (n / 4096) mod 64 < 64) by (subst n; Z.div_mod_to_equations; lia).
    assert (H2 : 0 <= (n / 64) mod 64 < 64) by (subst n; Z.div_mod_to_equations; lia).
    assert (H3 : 0 <= n mod 64 < 64) by (subst n; Z.div_mod_to_equations; lia).
    destruct (sextet_char _ H0) as (E0 & _ & _), (sextet_char _ H1) as (E1 & _ & _),
      (sextet_char _ H2) as (E2 & _ & _), (sextet_char _ H3) as (E3 & P3 & _).
    split; [|split].
    + cbn [Base64.encode]. fold n.
      assert (Hstrip :
        Base64.strip_padding
          (Base64.char_of_sextet (n / 262144) :: Base64.char_of_sextet ((n / 4096) mod 64)
             :: Base64.char_of_sextet ((n / 64) mod 64) :: Base64.char_of_sextet (n mod 64)
             :: Base64.encode l) =
        Base64.char_of_sextet (n / 262144) :: Base64.char_of_sextet ((n / 4096) mod 64)
          :: Base64.char_of_sextet ((n / 64) mod 64) :: Base64.char_of_sextet (n mod 64)
          :: Base64.strip_padding (Base64.encode l)).
      { destruct l as [|x l'].
        - apply strip_padding_none, P3.
        - apply (strip_padding_app [_; _; _; _]).
          rewrite encode_length. cbn [length].
          assert (1 <= (S (length l') + 2) / 3)%nat by (apply Nat.div_le_lower_bound; lia).
          lia. }
      rewrite Hstrip. repeat (constructor; [assumption|]). exact HF.
    + cbn [Base64.decode]. rewrite Hd.
      assert (Hn : n / 262144 * 262144 + (n / 4096) mod 64 * 4096 + (n / 64) mod 64 * 64 + n mod 64 = n)
        by (Z.div_mod_to_equations; lia).
      rewrite Hn. subst n. f_equal; [|f_equal; [|f_equal]]; Z.div_mod_to_equations; lia.
    + cbn [length]. replace (S (S (S (S (length ss))))) with (length ss + 1 * 4)%nat by lia.
      rewrite Nat.Div0.mod_add. exact Hlen.
Qed.

Lemma encode_no_whitespace (bs : list Z) :
  Forall isByte bs ->
  Forall (fun c => Base64.is_ascii_whitespace c = false) (Base64.encode bs).
Proof.
  unfold isByte.
  induction bs as [|a|a b|a b c l IH] using list_ind3; intros Hbs.
  - constructor.
  - apply Forall_cons in Hbs as [Ha _]. cbn [Base64.encode].
    repeat constructor; apply sextet_char; Z.div_mod_to_equations; lia.
  - apply Forall_cons in Hbs as [Ha Hbs]. apply Forall_cons in Hbs as [Hb _].
    cbn [Base64.encode].
    repeat constructor; apply sextet_char; Z.div_mod_to_equations; lia.
  - apply Forall_cons in Hbs as [Ha Hbs]. apply Forall_cons in Hbs as [Hb Hbs].
    apply Forall_cons in Hbs as [Hc Hl]. cbn [Base64.encode].
    repeat (constructor; [apply sextet_char; Z.div_mod_to_equations; lia|]).
    apply IH, Hl.
Qed.

Lemma atob_btoa (bs : list Z) :
  Forall isByte bs -> Base64.atob (Base64.btoa bs) = Some bs.
Proof.
  intros Hbs. unfold Base64.atob, Base64.btoa.
  rewrite list_ascii_of_string_of_list_ascii.
  assert (Hf : filter (fun c => Base64.is_ascii_whitespace c = false) (Base64.encode bs)
               = Base64.encode bs).
  { pose proof (encode_no_whitespace bs Hbs) as Hws.
    induction Hws as [|c cs Hc _ IH]; [reflexivity|].
    rewrite filter_cons_True by exact Hc. f_equal. exact IH. }
  rewrite Hf.
  assert (Hm : (length (Base64.encode bs) mod 4 =? 0)%nat = true).
  { apply Nat.eqb_eq. rewrite encode_length, Nat.mul_comm. apply Nat.Div0.mod_mul. }
  rewrite Hm.
  destruct (encode_body bs Hbs) as (ss & HF & Hd & Hlen).
  rewrite (Forall2_length _ _ _ HF).
  apply Nat.eqb_neq in Hlen. rewrite Hlen.
  rewrite (mapM_Some_2 _ _ _ HF). cbn. rewrite Hd. reflexivity.
Qed.

Lemma bytes_of_int16_bytes (vs : list Z) : Forall isByte (bytes_of_int16 vs).
Proof.
  induction vs as [|v vs IH]; [constructor|].
  cbn [bytes_of_int16]. repeat (constructor; [unfold isByte; Z.div_mod_to_equations; lia|]).
  exact IH.
Qed.

Lemma bytes_of_int16_length (vs : list Z) :
  length (bytes_of_int16 vs) = (2 * length vs)%nat.
Proof. induction vs as [|v vs IH]; [reflexivity|]. cbn [bytes_of_int16 length]. lia. Qed.

Lemma int16_of_bytes_of_int16 (vs : list Z) :
  Forall isInt16 vs -> int16_of_bytes (bytes_of_int16 vs) = vs.
Proof.
  induction 1 as [|v vs Hv _ IH]; [reflexivity|].
  cbn [bytes_of_int16 int16_of_bytes]. rewrite IH. f_equal.
  unfold isInt16 in Hv.
  assert (Hu : (v mod 65536) mod 256 + 256 * (v mod 65536 / 256) = v mod 65536)
    by (Z.div_mod_to_equations; lia).
  rewrite Hu.
  destruct (32768 <=? v mod 65536) eqn:Hc; [apply Z.leb_le in Hc|apply Z.leb_gt in Hc];
    Z.div_mod_to_equations; lia.
Qed.

Lemma int16_of_bytes_length (bs : list Z) :
  length (int16_of_bytes bs) = (length bs / 2)%nat.
Proof.
  revert bs. fix IH 1. intros [|lo [|hi rest]]; [reflexivity|reflexivity|].
  cbn [int16_of_bytes length]. rewrite IH.
  replace (S (S (length rest))) with (1 * 2 + length rest)%nat by lia.
  rewrite Nat.div_add_l by lia. lia.
Qed.

Lemma int16_of_bytes_range (bs : list Z) :
  Forall isByte bs -> Forall isInt16 (int16_of_bytes bs).
Proof.
  revert bs. fix IH 1. intros [|lo [|hi rest]] Hbs; [constructor|constructor|].
  apply Forall_cons in Hbs as [Hlo Hbs]. apply Forall_cons in Hbs as [Hhi Hrest].
  cbn [int16_of_bytes]. constructor; [|apply IH, Hrest].
  unfold isByte, isInt16 in *.
  destruct (32768 <=? lo + 256 * hi) eqn:Hc; [apply Z.leb_le in Hc|apply Z.leb_gt in Hc]; lia.
Qed.

Lemma pcm_int16_isInt16 (data : list number) : Forall isInt16 (pcm_int16 data).
Proof.
  unfold pcm_int16. apply Forall_fmap, Forall_forall. intros x _. apply ToInt16_range.
Qed.

(** X1. Base64 round trip: for every sequence of bytes, decoding with
    [base64ToUint8Array] what [btoa] made of them gives the bytes
    back, with no error. *)
Theorem base64_round_trip (bs : list Z) :
  Forall isByte bs -> base64ToUint8Array (Base64.btoa bs) = inr bs.
Proof. intros Hbs. unfold base64ToUint8Array. rewrite (atob_btoa bs Hbs). reflexivity. Qed.

(** X2. The encoder and the decoder speak the same wire format: the
    payload [createPcmBlob] makes of a non-empty block of samples is
    one the playback side accepts, in every browser, and it decodes to
    the 16-bit values the encoder stored, each divided by 32768. *)
Theorem encoded_chunk_decodes (ctx : RateRange) (data : list number) :
  data <> [] ->
  decodePayload ctx (blob_data (createPcmBlob data)) =
    inr (mkAudioBuffer 24000 (map (fun v => (inject_Z v / 32768)%Q) (pcm_int16 data))) /\
  playable ctx (audioMessage (blob_data (createPcmBlob data)))
    (mkAudioBuffer 24000 (map (fun v => (inject_Z v / 32768)%Q) (pcm_int16 data))).
Proof.
  intros Hne.
  assert (Hd : decodePayload ctx (blob_data (createPcmBlob data)) =
    inr (mkAudioBuffer 24000 (map (fun v => (inject_Z v / 32768)%Q) (pcm_int16 data)))).
  { unfold decodePayload, createPcmBlob. cbn [blob_data]. unfold base64ToUint8Array.
    rewrite (atob_btoa _ (bytes_of_int16_bytes _)).
    unfold decodeAudioData, createBuffer.
    rewrite bytes_of_int16_length.
    replace (Nat.odd (2 * length (pcm_int16 data))) with false
      by (symmetry; rewrite <- Nat.negb_even, Nat.even_mul; reflexivity).
    rewrite (int16_of_bytes_of_int16 _ (pcm_int16_isInt16 data)).
    rewrite pcm_int16_length, nominal_24000.
    destruct data as [|x data]; [contradiction|]. reflexivity. }
  split; [exact Hd|]. split; [|exact Hd].
  unfold audioMessage, createPcmBlob, Base64.btoa. cbn.
  destruct data as [|x data]; [contradiction|].
  cbn [pcm_int16 map bytes_of_int16].
  destruct data as [|y data]; reflexivity.
Qed.

Lemma int16_sample_range (v : Z) :
  isInt16 v -> (-1 <= inject_Z v / 32768)%Q /\ (inject_Z v / 32768 < 1)%Q.
Proof.
  unfold isInt16. intros Hv.
  unfold Qle, Qlt, Qdiv, Qmult, Qinv, inject_Z. cbn. lia.
Qed.

Lemma nominal_required (ctx : RateRange) (rate : Z) :
  8000 <= rate <= 96000 -> nominal ctx rate = true.
Proof.
  intros Hr. unfold nominal. rewrite !andb_true_iff, Z.ltb_lt, !Z.leb_le. lia.
Qed.

Lemma nominal_positive (ctx : RateRange) (rate : Z) :
  rate <= 0 -> nominal ctx rate = false.
Proof.
  intros Hr. unfold nominal.
  destruct (Z.ltb_spec 0 rate) as [Hlt|_]; [lia|reflexivity].
Qed.

(** X4. [decodeAudioData] throws [RangeError] on an odd number of
    bytes; on an even number it throws [NotSupportedError] when there
    are no bytes or the sample rate is outside the nominal range of the
    context, as every rate of zero or less is and no rate from 8000 to
    96000 is; on any other input it returns a buffer at the given rate
    with one frame per two bytes, whose samples, for bytes in range,
    lie in [[-1, 1)]. *)
Theorem decodeAudioData_outcome (data : list Z) (ctx : RateRange) (rate : Z) :
  (Nat.odd (length data) = true -> decodeAudioData data ctx rate = inl RangeError) /\
  (Nat.odd (length data) = false -> data = [] \/ nominal ctx rate = false ->
   decodeAudioData data ctx rate = inl NotSupportedError) /\
  (Nat.odd (length data) = false -> data <> [] -> nominal ctx rate = true ->
   exists b : AudioBuffer,
     decodeAudioData data ctx rate = inr b /\
     sampleRate b = rate /\
     (2 * frames b = length data)%nat /\
     (Forall isByte data ->
      Forall (fun x => (-1 <= x)%Q /\ (x < 1)%Q) (channelData b))) /\
  (rate <= 0 -> nominal ctx rate = false) /\
  (8000 <= rate <= 96000 -> nominal ctx rate = true).
Proof.
  unfold decodeAudioData, createBuffer.
  split; [intros ->; reflexivity|]. split; [|split].
  - intros -> [-> | ->]; [reflexivity|]. rewrite orb_true_r. reflexivity.
  - intros Hodd Hne Hnom. rewrite Hodd, Hnom, orb_false_r.
    assert (Hlen : (2 * (length data / 2) = length data)%nat).
    { rewrite <- Nat.negb_even in Hodd. apply negb_false_iff, Nat.even_spec in Hodd.
      destruct Hodd as [k Hk]. rewrite Hk, (Nat.mul_comm 2 k), Nat.div_mul by lia. lia. }
    rewrite int16_of_bytes_length.
    destruct (length data / 2 =? 0)%nat eqn:Hz.
    { apply Nat.eqb_eq in Hz. destruct data; [contradiction|]. cbn [length] in *. lia. }
    eexists. split; [reflexivity|]. split; [reflexivity|]. split.
    + unfold frames. cbn [channelData]. rewrite length_map, int16_of_bytes_length. exact Hlen.
    + intros Hbytes. cbn [channelData]. apply Forall_fmap.
      eapply Forall_impl; [apply int16_of_bytes_range, Hbytes|].
      intros v Hv. cbn. apply int16_sample_range, Hv.
  - split; [apply nominal_positive|apply nominal_required].
Qed.

(** X3. Below full scale the encoder loses less than one 16-bit step:
    for a sample in [[-1, 1)] the stored value, divided by 32768, is
    within 1/32768 of the sample, and lies between the sample and
    zero. *)
Theorem encoder_quantisation (q : Q) :
  (-1 <= q)%Q -> (q < 1)%Q ->
  (q - 1 / 32768 < inject_Z (JsNum.ToInt16 (JsNum.mul_pos (Fin q) 32768)) / 32768)%Q /\
  (inject_Z (JsNum.ToInt16 (JsNum.mul_pos (Fin q) 32768)) / 32768 < q + 1 / 32768)%Q /\
  ((0 <= q)%Q -> (inject_Z (JsNum.ToInt16 (JsNum.mul_pos (Fin q) 32768)) / 32768 <= q)%Q) /\
  ((q <= 0)%Q -> (q <= inject_Z (JsNum.ToInt16 (JsNum.mul_pos (Fin q) 32768)) / 32768)%Q).
Proof.
  intros Hlo Hhi.
  destruct (pcm_sample_below_full_scale q Hlo Hhi) as [-> _].
  destruct q as [n d]. unfold JsNum.truncate. cbn [Qmult Qnum Qden].
  rewrite Pos.mul_1_r.
  pose proof (Z.quot_rem' (n * 32768) (Z.pos d)) as Hqr.
  set (t := n * 32768 ÷ Z.pos d) in *.
  set (r := Z.rem (n * 32768) (Z.pos d)) in *.
  assert (Hr : (0 <= n -> 0 <= r < Z.pos d) /\ (n <= 0 -> - Z.pos d < r <= 0)).
  { split; intros Hn.
    - apply Z.rem_bound_pos; lia.
    - apply Z.rem_bound_pos_neg; lia. }
  clearbody t r. destruct Hr as [Hrp Hrn].
  unfold Qle, Qlt, Qminus, Qplus, Qopp, Qdiv, Qmult, Qinv, inject_Z in *. cbn in *.
  destruct (Z_le_gt_dec 0 n) as [Hn|Hn].
  - specialize (Hrp Hn). repeat split; try intros; nia.
  - assert (Hn' : n <= 0) by lia. specialize (Hrn Hn'). repeat split; try intros; nia.
Qed.

(** ** Frames: [blobToBase64] *)

Lemma list_ascii_of_append (a b : string) :
  list_ascii_of_string (a +:+ b) = list_ascii_of_string a ++ list_ascii_of_string b.
Proof.
  induction a as [|c a IH]; [reflexivity|].
  rewrite append_cons. cbn [list_ascii_of_string app]. rewrite IH. reflexivity.
Qed.

Lemma splitOn_whole (sep : ascii) (s : string) :
  ~ In sep (list_ascii_of_string s) -> splitOn sep s = [s].
Proof.
  induction s as [|c s IH]; intros Hno; [reflexivity|].
  cbn [splitOn]. rewrite IH by (intros Hin; apply Hno; right; exact Hin).
  destruct (Ascii.eqb_spec c sep) as [->|_]; [|reflexivity].
  exfalso. apply Hno. left. reflexivity.
Qed.

Lemma splitOn_nonempty (sep : ascii) (s : string) : splitOn sep s <> [].
Proof.
  induction s as [|c s IH]; [discriminate|].
  cbn [splitOn]. destruct (splitOn sep s); [contradiction|].
  destruct (Ascii.eqb c sep); discriminate.
Qed.

Lemma splitOn_first (sep : ascii) (a b : string) :
  ~ In sep (list_ascii_of_string a) ->
  splitOn sep (a +:+ String sep b) = a :: splitOn sep b.
Proof.
  induction a as [|c a IH]; intros Hno.
  - change ("" +:+ String sep b) with (String sep b). cbn [splitOn].
    rewrite Ascii.eqb_refl. destruct (splitOn sep b) as [|x xs] eqn:Hb; [|reflexivity].
    exfalso. exact (splitOn_nonempty sep b Hb).
  - rewrite append_cons. cbn [splitOn].
    rewrite IH by (intros Hin; apply Hno; right; exact Hin).
    destruct (Ascii.eqb_spec c sep) as [->|_]; [|reflexivity].
    exfalso. apply Hno. left. reflexivity.
Qed.

Lemma encode_chars (bs : list Z) :
  Forall (fun c => In c Base64.alphabet \/ c = Base64.pad) (Base64.encode bs).
Proof.
  assert (Hc : forall n, In (Base64.char_of_sextet n) Base64.alphabet \/
                         Base64.char_of_sextet n = Base64.pad).
  { intros n. unfold Base64.char_of_sextet.
    destruct (nth_in_or_default (Z.to_nat n) Base64.alphabet Base64.pad); auto. }
  induction bs as [|a|a b|a b c l IH] using list_ind3; cbn [Base64.encode].
  - constructor.
  - repeat (constructor; [first [apply Hc|right; reflexivity]|]). constructor.
  - repeat (constructor; [first [apply Hc|right; reflexivity]|]). constructor.
  - repeat (constructor; [apply Hc|]). exact IH.
Qed.

Lemma btoa_no_comma (bs : list Z) :
  ~ In ","%char (list_ascii_of_string (Base64.btoa bs)).
Proof.
  unfold Base64.btoa. rewrite list_ascii_of_string_of_list_ascii.
  intros Hin. pose proof (encode_chars bs) as Hall.
  rewrite List.Forall_forall in Hall. destruct (Hall _ Hin) as [Ha|Hp].
  - revert Ha. vm_compute. intuition discriminate.
  - discriminate.
Qed.

(** X13. For a blob whose type holds no comma, as the JPEG frames of
    the sampler, [blobToBase64] resolves with exactly the base64 text
    of the blob's bytes: the part of the data URL after its one comma,
    never [undefined]; decoding it gives the bytes back. *)
Theorem blobToBase64_payload (mime : string) (bytes : list Z) :
  ~ In ","%char (list_ascii_of_string mime) ->
  blobToBase64 mime bytes = Some (Base64.btoa bytes) /\
  (Forall isByte bytes ->
   forall s, blobToBase64 mime bytes = Some s -> base64ToUint8Array s = inr bytes).
Proof.
  intros Hmime.
  assert (Hb : blobToBase64 mime bytes = Some (Base64.btoa bytes)).
  { unfold blobToBase64, dataURL.
    change (";base64," +:+ Base64.btoa bytes)
      with (";base64" +:+ String ","%char (Base64.btoa bytes)).
    rewrite <- !append_assoc.
    rewrite splitOn_first.
    - rewrite (splitOn_whole _ _ (btoa_no_comma bytes)). reflexivity.
    - rewrite !list_ascii_of_append. intros Hin.
      apply in_app_or in Hin as [Hin|Hin].
      + apply in_app_or in Hin as [Hin|Hin]; [|contradiction].
        revert Hin. vm_compute. intuition discriminate.
      + revert Hin. vm_compute. intuition discriminate. }
  split; [exact Hb|]. intros Hbytes s Hs. rewrite Hb in Hs. injection Hs as <-.
  unfold base64ToUint8Array. rewrite (atob_btoa bytes Hbytes). reflexivity.
Qed.

(** ** Images: the data URL and its prefix *)

(** X14. [analyzePoseForm] strips the data-URL prefix of a PNG, JPEG
    or JPG image and nothing else: the payload comes back unchanged,
    and a URL of another image type is passed on whole. *)
Theorem data_url_prefix_stripped (d : string) :
  stripDataUrlPrefix ("data:image/png;base64," +:+ d) = d /\
  stripDataUrlPrefix ("data:image/jpeg;base64," +:+ d) = d /\
  stripDataUrlPrefix ("data:image/jpg;base64," +:+ d) = d /\
  stripDataUrlPrefix ("data:image/webp;base64," +:+ d) = "data:image/webp;base64," +:+ d /\
  (dropPrefix "data:image/" d = None -> stripDataUrlPrefix d = d).
Proof.
  repeat split.
  intros Hno. unfold stripDataUrlPrefix.
  assert (Hp : forall rest, dropPrefix ("data:image/" +:+ rest) d = None).
  { intros rest. revert Hno.
    generalize "data:image/". intros p. revert d.
    induction p as [|c p IH]; intros d Hno; [discriminate|].
    rewrite append_cons. cbn [dropPrefix] in *. destruct d as [|x d]; [reflexivity|].
    destruct (Ascii.eqb c x); [apply IH, Hno|reflexivity]. }
  pose proof (Hp "png;base64,") as H1. pose proof (Hp "jpeg;base64,") as H2.
  pose proof (Hp "jpg;base64,") as H3.
  change ("data:image/" +:+ "png;base64,") with "data:image/png;base64," in H1.
  change ("data:image/" +:+ "jpeg;base64,") with "data:image/jpeg;base64," in H2.
  change ("data:image/" +:+ "jpg;base64,") with "data:image/jpg;base64," in H3.
  rewrite H1, H2, H3. reflexivity.
Qed.

Lemma firstInlineImage_skips (pre : list Part) (rest : list Part) :
  Forall (fun p => inlineData p = None) pre ->
  firstInlineImage (pre ++ rest) = firstInlineImage rest.
Proof.
  induction 1 as [|p pre Hp _ IH]; [reflexivity|].
  cbn [app firstInlineImage]. rewrite Hp. exact IH.
Qed.

(** X15. With an API key set, [generatePoseImage] returns [null]
    exactly when no part of the response carries inline data;
    otherwise it returns the PNG data URL of the first part that does,
    and stripping that URL as [analyzePoseForm] does gives that part's
    data back. *)
Theorem generatePoseImage_first_inline (apiKey : option string) (ps : list Part) :
  truthy apiKey = true ->
  (generatePoseImage apiKey (Some ps) = inr None <->
   Forall (fun p => inlineData p = None) ps) /\
  (forall (pre post : list Part) (p : Part) (d : string),
     ps = pre ++ p :: post ->
     Forall (fun p' => inlineData p' = None) pre ->
     inlineData p = Some (mkInlineData (Some d)) ->
     exists url : string,
       generatePoseImage apiKey (Some ps) = inr (Some url) /\
       stripDataUrlPrefix url = d).
Proof.
  intros Hkey. unfold generatePoseImage. rewrite Hkey. cbn [default from_option id]. split.
  - split.
    + intros Hnone. induction ps as [|p ps IH]; [constructor|].
      cbn [firstInlineImage] in Hnone.
      destruct (inlineData p) eqn:Hp; [discriminate|]. constructor; [exact Hp|].
      apply IH, Hnone.
    + intros Hall. rewrite <- (app_nil_r ps), (firstInlineImage_skips ps [] Hall).
      reflexivity.
  - intros pre post p d -> Hpre Hp.
    rewrite (firstInlineImage_skips pre _ Hpre). cbn [firstInlineImage]. rewrite Hp.
    eexists. split; [reflexivity|]. reflexivity.
Qed.

(** ** The form and the request it leads to *)

(** X16. Whatever the form holds, the preferences it submits have a
    goal and an injuries text that are not empty, so the prompt of
    [generateYogaSequence] never falls back to its own default: an
    empty injuries field reads [None] in the prompt, and an empty goal
    reads as the form's general goal. *)
Theorem form_defaults_reach_prompt (f : YogaFormState) :
  goal (handleSubmit f) <> "" /\
  injuries (handleSubmit f) <> "" /\
  sequencePrompt (handleSubmit f) =
    Gemini.nl +:+
    "    Create a therapeutic yoga sequence with the following parameters:" +:+ Gemini.nl +:+
    "    - User Goal: " +:+ orElse (form_goal f) "General relaxation and mobility"
      +:+ Gemini.nl +:+
    "    - Injuries/Conditions: " +:+ orElse (form_injuries f) "None" +:+ Gemini.nl +:+
    "    - Experience Level: " +:+ levelName (form_level f) +:+ Gemini.nl +:+
    "    - Total Duration: " +:+ Gemini.index_to_string (form_duration f) +:+ " minutes"
      +:+ Gemini.nl +:+
    Gemini.nl +:+
    "    Ensure the sequence flows logically (warm-up, peak, cool-down) and strictly adheres to safety guidelines for the listed injuries."
      +:+ Gemini.nl +:+
    "  ".
Proof.
  assert (Hne : forall a b, b <> "" -> orElse a b <> "").
  { intros a b Hb. unfold orElse. destruct (String.eqb_spec a ""); assumption. }
  assert (Hid : forall a b, b <> "" -> orElse (orElse a b) "None reported" = orElse a b).
  { intros a b Hb. unfold orElse at 1.
    destruct (String.eqb_spec (orElse a b) "") as [He|_]; [|reflexivity].
    exfalso. exact (Hne a b Hb He). }
  split; [apply Hne; discriminate|]. split; [apply Hne; discriminate|].
  unfold sequencePrompt, handleSubmit.
  cbn [goal injuries durationMinutes experienceLevel].
  rewrite Hid by discriminate. reflexivity.
Qed.

(** ** Teardown, twice *)

(** X17. [cleanup] leaves the refs as they are, so it is not
    idempotent: run a second time it stops the tracks of the held
    stream again and calls [close()] again on the held output
    context. *)
Theorem cleanup_twice_releases_twice
    (r : Resources) (i j : nat) (c : AudioContext) (n : nat) :
  audioContextRef r = Some i -> contexts r !! i = Some c ->
  streamRef r = Some j -> streams r !! j = Some n ->
  contexts (cleanup (cleanup r)) !! i = Some (close (close c)) /\
  streams (cleanup (cleanup r)) !! j = Some (S (S n)) /\
  audioContextRef (cleanup (cleanup r)) = Some i /\
  streamRef (cleanup (cleanup r)) = Some j.
Proof.
  intros Hi Hc Hj Hn. unfold cleanup. cbn. rewrite Hi, Hj. cbn.
  rewrite !list_lookup_alter, Hc, Hn, !decide_True by reflexivity.
  repeat split.
Qed.

(** ** Durations on the pose cards: [formatTime] *)

Lemma uint_digits (d : Decimal.uint) :
  Forall (fun c => isDigit c = true) (list_ascii_of_string (NilEmpty.string_of_uint d)).
Proof. induction d; cbn; constructor; (reflexivity || assumption). Qed.

Lemma index_to_string_inj (n m : nat) :
  Gemini.index_to_string n = Gemini.index_to_string m -> n = m.
Proof.
  unfold Gemini.index_to_string. intros Heq.
  apply (f_equal NilEmpty.uint_of_string) in Heq. rewrite !NilEmpty.usu in Heq.
  injection Heq as Heq. apply (f_equal Nat.of_uint) in Heq.
  rewrite !DecimalNat.Unsigned.of_to in Heq. exact Heq.
Qed.

Lemma number_prefix_unique (d1 d2 r1 r2 : string) :
  Forall (fun c => isDigit c = true) (list_ascii_of_string d1) ->
  Forall (fun c => isDigit c = true) (list_ascii_of_string d2) ->
  endsNumber r1 -> endsNumber r2 ->
  d1 +:+ r1 = d2 +:+ r2 -> d1 = d2 /\ r1 = r2.
Proof.
  revert d2. induction d1 as [|c d1 IH]; intros [|c' d2] H1 H2 E1 E2 Heq.
  - split; [reflexivity|exact Heq].
  - exfalso. change ("" +:+ r1) with r1 in Heq. rewrite append_cons in Heq. subst r1.
    cbn in E1, H2. apply Forall_cons in H2 as [Hc _]. congruence.
  - exfalso. change ("" +:+ r2) with r2 in Heq. rewrite append_cons in Heq. subst r2.
    cbn in E2, H1. apply Forall_cons in H1 as [Hc _]. congruence.
  - rewrite !append_cons in Heq. injection Heq as -> Heq.
    cbn in H1, H2. apply Forall_cons in H1 as [_ H1]. apply Forall_cons in H2 as [_ H2].
    destruct (IH d2 H1 H2 E1 E2 Heq) as [-> ->]. split; reflexivity.
Qed.

Lemma numberToString_nonneg (z : Z) :
  0 <= z -> numberToString z = Gemini.index_to_string (Z.to_nat z).
Proof.
  intros Hz. unfold numberToString.
  destruct (z <? 0) eqn:Hneg; [apply Z.ltb_lt in Hneg; lia|reflexivity].
Qed.

(** The text for a duration: a numeral and what follows it. *)
Lemma formatTime_shape (s : Z) :
  0 <= s ->
  exists (n : Z) (r : string),
    0 <= n /\
    formatTime s = Gemini.index_to_string (Z.to_nat n) +:+ r /\
    endsNumber r /\
    ((0 < s / 60 /\ 0 < s mod 60 /\ n = s / 60 /\
      r = "m " +:+ Gemini.index_to_string (Z.to_nat (s mod 60)) +:+ "s") \/
     (0 < s / 60 /\ s mod 60 = 0 /\ n = s / 60 /\ r = " min") \/
     (s / 60 = 0 /\ n = s mod 60 /\ r = " sec")).
Proof.
  intros Hs. unfold formatTime. rewrite (Z.rem_mod_nonneg s 60) by lia.
  assert (Hm : 0 <= s / 60) by (apply Z.div_pos; lia).
  assert (Hr : 0 <= s mod 60 < 60) by (apply Z.mod_pos_bound; lia).
  rewrite !numberToString_nonneg by lia.
  destruct (0 <? s / 60) eqn:Hmins; [apply Z.ltb_lt in Hmins|apply Z.ltb_ge in Hmins].
  - destruct (0 <? s mod 60) eqn:Hsecs; [apply Z.ltb_lt in Hsecs|apply Z.ltb_ge in Hsecs];
      cbn [andb].
    + exists (s / 60). eexists. split; [exact Hm|]. split; [reflexivity|].
      split; [reflexivity|]. left. repeat split; assumption.
    + exists (s / 60). eexists. split; [exact Hm|]. split; [reflexivity|].
      split; [reflexivity|]. right. left. repeat split; (assumption || lia).
  - cbn [andb]. exists (s mod 60). eexists. split; [lia|]. split; [reflexivity|].
    split; [reflexivity|]. right. right. repeat split. lia.
Qed.

(** X18. On whole, non-negative numbers of seconds, within the range
    in which a number is printed digit by digit, [formatTime] is
    one-to-one: two durations that are shown by the same text are the
    same duration. *)
Theorem formatTime_one_to_one (s t : Z) :
  0 <= s < 2 ^ 53 -> 0 <= t < 2 ^ 53 -> formatTime s = formatTime t -> s = t.
Proof.
  intros [Hs _] [Ht _] Heq.
  destruct (formatTime_shape s Hs) as (n & r & Hn & Es & Er & Cs).
  destruct (formatTime_shape t Ht) as (m & q & Hm & Et & Eq & Ct).
  rewrite Es, Et in Heq.
  apply number_prefix_unique in Heq as [Hnum Hrest];
    [|apply uint_digits|apply uint_digits|exact Er|exact Eq].
  apply index_to_string_inj in Hnum.
  assert (Hnm : n = m) by lia. clear Hnum.
  pose proof (Z.div_mod s 60 ltac:(lia)) as Ds.
  pose proof (Z.div_mod t 60 ltac:(lia)) as Dt.
  pose proof (Z.mod_pos_bound s 60 ltac:(lia)) as Bs.
  pose proof (Z.mod_pos_bound t 60 ltac:(lia)) as Bt.
  destruct Cs as [(Hs1 & Hs2 & -> & ->)|[(Hs1 & Hs2 & -> & ->)|(Hs1 & -> & ->)]];
    destruct Ct as [(Ht1 & Ht2 & -> & ->)|[(Ht1 & Ht2 & -> & ->)|(Ht1 & -> & ->)]];
    try discriminate Hrest; try lia.
  injection Hrest as Hrest.
  change (Gemini.index_to_string (Z.to_nat (s mod 60)) +:+ "s" =
          Gemini.index_to_string (Z.to_nat (t mod 60)) +:+ "s") in Hrest.
  apply number_prefix_unique in Hrest as [Hsec _];
    [|apply uint_digits|apply uint_digits|reflexivity|reflexivity].
  apply index_to_string_inj in Hsec. lia.
Qed.

(** A negative duration loses its minutes: the restriction to
    non-negative durations is needed. *)
Example formatTime_negative_collision :
  formatTime (-1) = "-1 sec" /\ formatTime (-61) = "-1 sec".
Proof. split; reflexivity. Qed.

(** ** Capture without a stream *)

(** X20. As long as [getUserMedia] has not granted a stream, the
    component holds no stream and never creates a script processor,
    however often the session is started, opened or torn down: without
    microphone access no audio pipeline is ever built, while the frame
    timer is still created by every [onOpen]. *)
Theorem no_stream_no_processor (evs : list LifeEvent) :
  Forall (fun ev => ev <> CameraReady true) evs ->
  streamRef (lifeRun evs) = None /\
  streams (lifeRun evs) = [] /\
  processorRef (lifeRun evs) = None /\
  processors (lifeRun evs) = [] /\
  length (intervals (lifeRun evs)) =
    length (List.filter (fun ev => match ev with Open => true | _ => false end) evs).
Proof.
  induction evs as [|ev evs IH] using rev_ind; intros Hall.
  - repeat split.
  - apply Forall_app in Hall as [Hevs Hev]. apply Forall_cons in Hev as [Hev _].
    destruct (IH Hevs) as (Hs & Hss & Hp & Hps & Hi).
    unfold lifeRun in *. rewrite fold_left_app. cbn [fold_left].
    rewrite List.filter_app, length_app.
    set (r := fold_left lifeStep evs mounted) in *.
    destruct ev as [[|]|resumed| |]; cbn [lifeStep].
    + contradiction.
    + unfold initCamera. cbn. rewrite Hi. repeat split; try assumption. lia.
    + unfold handleStartSession. cbn. rewrite Hi. repeat split; try assumption. lia.
    + unfold onOpen. rewrite Hs. cbn. rewrite length_app, Hi. repeat split; try assumption.
    + unfold cleanup, release. rewrite Hs, Hp. cbn.
      destruct (frameIntervalRef r); cbn; rewrite ?length_alter, Hi;
        repeat split; try assumption; lia.
Qed.

(** ** Submitting the form *)

(** X21. When [handleFormSubmit] has settled, loading is over.  A
    generated sequence replaces the shown one and clears the error.
    A failure keeps the shown sequence and sets an error; the API key
    selection is reset exactly when the failure's message contains
    [Requested entity was not found], and exactly then the error
    banner offers to reselect the key. *)
Theorem form_submit_settles (outcome : option string + YogaSequence) (st : AppState) :
  isLoading (handleFormSubmit outcome st) = false /\
  (forall result : YogaSequence,
     outcome = inr result ->
     app_sequence (handleFormSubmit outcome st) = Some result /\
     app_error (handleFormSubmit outcome st) = None /\
     hasApiKey (handleFormSubmit outcome st) = hasApiKey st) /\
  (forall message : option string,
     outcome = inl message ->
     app_sequence (handleFormSubmit outcome st) = app_sequence st /\
     is_Some (app_error (handleFormSubmit outcome st)) /\
     (offersReselect (handleFormSubmit outcome st) = true <->
      exists m, message = Some m /\ includes "Requested entity was not found" m = true) /\
     (hasApiKey (handleFormSubmit outcome st) =
      if offersReselect (handleFormSubmit outcome st) then false else hasApiKey st)).
Proof.
  split; [|split].
  - unfold handleFormSubmit. destruct outcome as [[m|]|result]; cbn;
      try destruct (_ && _)%bool; reflexivity.
  - intros result ->. repeat split.
  - intros message ->. unfold handleFormSubmit, offersReselect.
    destruct message as [m|]; cbn.
    + destruct (String.eqb_spec m "") as [->|Hne]; cbn.
      * repeat split; eauto. intros (m & [= <-] & Hinc). discriminate.
      * destruct (includes "Requested entity was not found" m) eqn:Hinc; cbn.
        -- repeat split; eauto.
        -- repeat split; eauto; try discriminate.
           intros (m' & [= <-] & Hinc'). congruence.
    + repeat split; eauto; try discriminate. intros (m & Hm & _). discriminate.
Qed.

(** ** The further theorems at work *)

Lemma base64_round_trip_witness :
  Forall isByte [72; 105; 255] /\
  base64ToUint8Array (Base64.btoa [72; 105; 255]) = inr [72; 105; 255].
Proof.
  assert (Hb : Forall isByte [72; 105; 255])
    by (repeat (constructor; [unfold isByte; lia|]); constructor).
  split; [exact Hb|exact (base64_round_trip [72; 105; 255] Hb)].
Defined.

Lemma encoded_chunk_decodes_witness :
  [Fin (1 # 2); Fin 0] <> [] /\
  playable chrome (audioMessage (blob_data (createPcmBlob [Fin (1 # 2); Fin 0])))
    (mkAudioBuffer 24000
       (map (fun v => (inject_Z v / 32768)%Q) (pcm_int16 [Fin (1 # 2); Fin 0]))).
Proof.
  assert (Hne : [Fin (1 # 2); Fin 0] <> []) by discriminate.
  split; [exact Hne|exact (proj2 (encoded_chunk_decodes chrome [Fin (1 # 2); Fin 0] Hne))].
Defined.

Lemma encoder_quantisation_witness :
  (-1 <= 1 # 3)%Q /\ (1 # 3 < 1)%Q /\
  (inject_Z (JsNum.ToInt16 (JsNum.mul_pos (Fin (1 # 3)) 32768)) / 32768 <= 1 # 3)%Q.
Proof.
  assert (Hlo : (-1 <= 1 # 3)%Q) by (apply Qle_bool_iff; reflexivity).
  assert (Hhi : (1 # 3 < 1)%Q) by reflexivity.
  assert (Hpos : (0 <= 1 # 3)%Q) by (apply Qle_bool_iff; reflexivity).
  split; [exact Hlo|]. split; [exact Hhi|].
  exact (proj1 (proj2 (proj2 (encoder_quantisation (1 # 3) Hlo Hhi))) Hpos).
Defined.

Lemma decodeAudioData_outcome_witness :
  decodeAudioData [0; 128; 1] chrome 24000 = inl RangeError /\
  decodeAudioData [0; 128] chrome 0 = inl NotSupportedError /\
  exists b : AudioBuffer,
    decodeAudioData [0; 128] chrome 24000 = inr b /\ (2 * frames b = 2)%nat.
Proof.
  split; [|split].
  - exact (proj1 (decodeAudioData_outcome [0; 128; 1] chrome 24000) eq_refl).
  - exact (proj1 (proj2 (decodeAudioData_outcome [0; 128] chrome 0)) eq_refl
             (or_intror eq_refl)).
  - destruct (proj1 (proj2 (proj2 (decodeAudioData_outcome [0; 128] chrome 24000))) eq_refl
                ltac:(discriminate) eq_refl) as (b & Hb & _ & Hf & _).
    exists b. split; [exact Hb|exact Hf].
Defined.

Lemma marker_never_moves_back_witness :
  truthy (audioData (audioMessage "AAAA")) = true /\
  (clock_1 <= nextStartTime (run everyStringNaN threePoses chrome
                               ([] ++ [Message clock_1 (audioMessage "AAAA")])))%Q.
Proof.
  split; [reflexivity|].
  exact (proj2 (proj2 (marker_never_moves_back everyStringNaN threePoses chrome []
                         (Message clock_1 (audioMessage "AAAA"))))
           clock_1 (audioMessage "AAAA") eq_refl eq_refl).
Defined.

Lemma every_node_started_once_witness :
  map node
    (started (run everyStringNaN threePoses chrome
                [Message clock_0 (audioMessage "AAAAAAAA"); Ended 0;
                 Message clock_0 (audioMessage "AAAAAAAA")])) =
  seq 0 (created (run everyStringNaN threePoses chrome
                    [Message clock_0 (audioMessage "AAAAAAAA"); Ended 0;
                     Message clock_0 (audioMessage "AAAAAAAA")])).
Proof.
  exact (proj1 (every_node_started_once everyStringNaN threePoses chrome
                  [Message clock_0 (audioMessage "AAAAAAAA"); Ended 0;
                   Message clock_0 (audioMessage "AAAAAAAA")])).
Defined.

Lemma burst_plays_back_to_back_witness :
  playable chrome (audioMessage "AAAAAAAA") (silence 3) /\
  exists units : list Scheduled,
    started
      (fold_left (step everyStringNaN threePoses chrome)
         (Message clock_0 (audioMessage "AAAAAAAA")
            :: map (fun c => Message c.1.1 c.1.2)
                 [(clock_0, audioMessage "AAAAAAAAAAA=", silence 4);
                  (clock_0, audioMessage "AAAAAAAA", silence 3)])
         (run everyStringNaN threePoses chrome [])) =
      started (run everyStringNaN threePoses chrome []) ++ units /\
    backToBack (Qmax (nextStartTime (run everyStringNaN threePoses chrome [])) clock_0) units.
Proof.
  assert (Hp3 : playable chrome (audioMessage "AAAAAAAA") (silence 3)) by (split; reflexivity).
  assert (Hp4 : playable chrome (audioMessage "AAAAAAAAAAA=") (silence 4))
    by (split; reflexivity).
  assert (Hnow : (clock_0 <= Qmax (nextStartTime (run everyStringNaN threePoses chrome []))
                               clock_0)%Q)
    by (apply Qle_bool_iff; reflexivity).
  split; [exact Hp3|].
  destruct (burst_plays_back_to_back everyStringNaN threePoses chrome [] clock_0
              (audioMessage "AAAAAAAA") (silence 3)
              [(clock_0, audioMessage "AAAAAAAAAAA=", silence 4);
               (clock_0, audioMessage "AAAAAAAA", silence 3)] Hp3)
    as (units & Hs & _ & Hb & _).
  - constructor; [split; [exact Hp4|exact Hnow]|].
    constructor; [split; [exact Hp3|exact Hnow]|]. constructor.
  - exists units. split; [exact Hs|exact Hb].
Defined.

Lemma every_call_answered_witness :
  toolCall (toolCallMessage [setPoseIndexCall "call-1" (JNumber (Fin 1));
                             mkFunctionCall "call-2" "getWeather" None;
                             setPoseIndexCall "call-3" (JNumber (Fin 7))]) =
    Some (mkToolCall (Some [setPoseIndexCall "call-1" (JNumber (Fin 1));
                            mkFunctionCall "call-2" "getWeather" None;
                            setPoseIndexCall "call-3" (JNumber (Fin 7))])) /\
  length
    (sent (fst (onMessage everyStringNaN threePoses chrome clock_0
                  (toolCallMessage [setPoseIndexCall "call-1" (JNumber (Fin 1));
                                    mkFunctionCall "call-2" "getWeather" None;
                                    setPoseIndexCall "call-3" (JNumber (Fin 7))])
                  initialState))) = 2%nat.
Proof.
  split; [reflexivity|].
  destruct (every_call_answered everyStringNaN threePoses chrome clock_0
              (toolCallMessage [setPoseIndexCall "call-1" (JNumber (Fin 1));
                                mkFunctionCall "call-2" "getWeather" None;
                                setPoseIndexCall "call-3" (JNumber (Fin 7))])
              [setPoseIndexCall "call-1" (JNumber (Fin 1));
               mkFunctionCall "call-2" "getWeather" None;
               setPoseIndexCall "call-3" (JNumber (Fin 7))]
              initialState) as [_ Hsent].
  - intros e [Ht _]. discriminate Ht.
  - reflexivity.
  - constructor; [intros _; eexists; reflexivity|].
    constructor; [intros Hname; discriminate Hname|].
    constructor; [intros _; eexists; reflexivity|]. constructor.
  - rewrite Hsent. reflexivity.
Defined.

Lemma call_without_args_stops_dispatch_witness :
  fc_args (mkFunctionCall "call-2" "setPoseIndex" None) = None /\
  for_of ([setPoseIndexCall "call-1" (JNumber (Fin 1))]
            ++ mkFunctionCall "call-2" "setPoseIndex" None
            :: [setPoseIndexCall "call-3" (JNumber (Fin 2))])
    (handleFunctionCall everyStringNaN threePoses) initialState =
  (fst (for_of [setPoseIndexCall "call-1" (JNumber (Fin 1))]
          (handleFunctionCall everyStringNaN threePoses) initialState),
   inl TypeError).
Proof.
  split; [reflexivity|].
  refine (proj1 (call_without_args_stops_dispatch everyStringNaN threePoses
                   [setPoseIndexCall "call-1" (JNumber (Fin 1))]
                   [setPoseIndexCall "call-3" (JNumber (Fin 2))]
                   (mkFunctionCall "call-2" "setPoseIndex" None) initialState
                   _ eq_refl eq_refl)).
  constructor; [intros _; eexists; reflexivity|constructor].
Defined.

Lemma clicks_move_and_clamp_witness :
  indexIs initialState 0 /\
  indexIs (fold_left (step everyStringNaN threePoses chrome) (repeat NextClick 5) initialState)
    (Z.min (Z.of_nat (length (poses threePoses)) - 1) (0 + Z.of_nat 5)).
Proof.
  assert (Hi : indexIs initialState 0) by (exists 0%Q; split; reflexivity).
  split; [exact Hi|].
  refine (proj1 (clicks_move_and_clamp everyStringNaN threePoses chrome 5 initialState 0 _ Hi)).
  cbn. lia.
Defined.

Lemma speaking_iff_pending_witness :
  isSpeaking (run everyStringNaN threePoses chrome
                [Message clock_0 (audioMessage "AAAAAAAA"); Ended 0]) = true <->
  sources (run everyStringNaN threePoses chrome
             [Message clock_0 (audioMessage "AAAAAAAA"); Ended 0]) <> ∅.
Proof.
  exact (speaking_iff_pending everyStringNaN threePoses chrome
           [Message clock_0 (audioMessage "AAAAAAAA"); Ended 0] eq_refl).
Defined.

Lemma input_context_never_closed_witness :
  closes (mkAudioContext 16000 0) = 0%nat.
Proof.
  refine (input_context_never_closed [CameraReady true; StartClick true; Open; Unmount]
            (mkAudioContext 16000 0) _ eq_refl).
  change (contexts (lifeRun [CameraReady true; StartClick true; Open; Unmount]))
    with [mkAudioContext 16000 0; mkAudioContext 24000 1].
  apply list_elem_of_here.
Defined.

Lemma blobToBase64_payload_witness :
  ~ In ","%char (list_ascii_of_string "image/jpeg") /\
  blobToBase64 "image/jpeg" [255; 216; 255] = Some (Base64.btoa [255; 216; 255]).
Proof.
  assert (Hm : ~ In ","%char (list_ascii_of_string "image/jpeg"))
    by (cbn; intuition discriminate).
  split; [exact Hm|exact (proj1 (blobToBase64_payload "image/jpeg" [255; 216; 255] Hm))].
Defined.

Lemma data_url_prefix_stripped_witness :
  dropPrefix "data:image/" "QUJD" = None /\ stripDataUrlPrefix "QUJD" = "QUJD".
Proof.
  split; [reflexivity|].
  exact (proj2 (proj2 (proj2 (proj2 (data_url_prefix_stripped "QUJD")))) eq_refl).
Defined.

Lemma generatePoseImage_first_inline_witness :
  truthy (Some "key") = true /\
  exists url : string,
    generatePoseImage (Some "key")
      (Some [mkPart None; mkPart (Some (mkInlineData (Some "QUJD")))]) = inr (Some url) /\
    stripDataUrlPrefix url = "QUJD".
Proof.
  split; [reflexivity|].
  refine (proj2 (generatePoseImage_first_inline (Some "key")
                   [mkPart None; mkPart (Some (mkInlineData (Some "QUJD")))] eq_refl)
            [mkPart None] [] (mkPart (Some (mkInlineData (Some "QUJD")))) "QUJD"
            eq_refl _ eq_refl).
  constructor; [reflexivity|constructor].
Defined.

Lemma form_defaults_reach_prompt_witness :
  injuries (handleSubmit (mkYogaFormState "" "" 15 Beginner)) <> "".
Proof.
  exact (proj1 (proj2 (form_defaults_reach_prompt (mkYogaFormState "" "" 15 Beginner)))).
Defined.

Lemma cleanup_twice_releases_twice_witness :
  audioContextRef (lifeRun [CameraReady true; StartClick true; Open]) = Some 1%nat /\
  contexts (cleanup (cleanup (lifeRun [CameraReady true; StartClick true; Open]))) !! 1%nat =
    Some (close (close (mkAudioContext 24000 0))).
Proof.
  split; [reflexivity|].
  exact (proj1 (cleanup_twice_releases_twice
                  (lifeRun [CameraReady true; StartClick true; Open])
                  1 0 (mkAudioContext 24000 0) 0 eq_refl eq_refl eq_refl eq_refl)).
Defined.

Lemma formatTime_one_to_one_witness :
  0 <= 125 < 2 ^ 53 /\ formatTime 125 = "2m 5s" /\ 125 = 125.
Proof.
  assert (H : 0 <= 125 < 2 ^ 53) by (cbn; lia).
  split; [exact H|]. split; [reflexivity|].
  exact (formatTime_one_to_one 125 125 H H eq_refl).
Defined.

Lemma audio_beyond_first_part_ignored_witness :
  onMessage everyStringNaN threePoses chrome clock_0
    (mkLiveServerMessage
       (Some (mkServerContent
                (Some (mkContent
                         (Some [mkPart None;
                                mkPart (Some (mkInlineData (Some "AAAAAAAA")))])))))
       None)
    initialState =
  dispatch everyStringNaN threePoses
    (mkLiveServerMessage
       (Some (mkServerContent
                (Some (mkContent
                         (Some [mkPart None;
                                mkPart (Some (mkInlineData (Some "AAAAAAAA")))])))))
       None)
    initialState.
Proof.
  exact (proj1 (audio_beyond_first_part_ignored everyStringNaN threePoses chrome clock_0
                  (mkLiveServerMessage
                     (Some (mkServerContent
                              (Some (mkContent
                                       (Some [mkPart None;
                                              mkPart (Some (mkInlineData (Some "AAAAAAAA")))])))))
                     None)
                  (mkServerContent
                     (Some (mkContent
                              (Some [mkPart None;
                                     mkPart (Some (mkInlineData (Some "AAAAAAAA")))]))))
                  (mkContent
                     (Some [mkPart None; mkPart (Some (mkInlineData (Some "AAAAAAAA")))]))
                  (mkPart None) [mkPart (Some (mkInlineData (Some "AAAAAAAA")))]
                  initialState eq_refl eq_refl eq_refl (or_introl eq_refl))).
Defined.

Lemma no_stream_no_processor_witness :
  Forall (fun ev => ev <> CameraReady true) [CameraReady false; StartClick true; Open; Unmount] /\
  processors (lifeRun [CameraReady false; StartClick true; Open; Unmount]) = [].
Proof.
  assert (Hall : Forall (fun ev => ev <> CameraReady true)
                   [CameraReady false; StartClick true; Open; Unmount])
    by (repeat (constructor; [discriminate|]); constructor).
  split; [exact Hall|].
  exact (proj1 (proj2 (proj2 (proj2 (no_stream_no_processor _ Hall))))).
Defined.

Lemma form_submit_settles_witness :
  offersReselect
    (handleFormSubmit (inl (Some "404: Requested entity was not found."))
       (mkAppState true None false None)) = true /\
  hasApiKey
    (handleFormSubmit (inl (Some "404: Requested entity was not found."))
       (mkAppState true None false None)) = false.
Proof.
  split; [reflexivity|].
  exact (proj2 (proj2 (proj2
           (proj2 (proj2 (form_submit_settles
                            (inl (Some "404: Requested entity was not found."))
                            (mkAppState true None false None)))
              (Some "404: Requested entity was not found.") eq_refl)))).
Defined.
